(** * A leftist-heap priority queue over an explicit node store

    Shallow embedding of [src/priority_queue.hpp] (namespace [sjtu],
    class [priority_queue<T, Compare>]).

    The C++ class keeps its elements in heap-allocated [Node]s linked by raw
    pointers and mutates them in place, so the model keeps an explicit store:
    a finite map from node addresses to node records, and a second finite map
    from the addresses of [priority_queue] objects to their fields.  Every
    member function is a computation in a state-and-exception monad over that
    pair of maps.

    - [Node*] is [option positive] ([None] is [nullptr]).
    - [int npl] is a [Z].  Signed overflow is undefined in C++, and the stored
      value never exceeds the logarithm of the number of nodes, so no
      wrap-around is written for it.
    - [size_t sz] is a [Z] reduced modulo [2^64] at every arithmetic step.
    - The comparator object [comp] is a partial function
      [T -> T -> option bool]; [None] stands for a call that throws.
      One comparator serves all queues: [Compare] is a type parameter of
      the class and its objects are taken to be interchangeable, as those of
      [std::less<T>] are, so the copy of [comp] made by the copy constructor
      and by [operator=] is not written.
    - [new] returns an address that is not allocated at the time of the call
      and never fails; copying an element never throws.
    - Recursion ([merge], [copy], [clear]) is bounded by a fuel argument; the
      public operations start it at one more than the number of allocated
      nodes, which no acyclic structure in the store can exceed.

    The file has three parts: the definitions (the class, client programs,
    and the vocabulary of the proofs), the proofs, and concrete queues on
    which every property with a hypothesis is exercised. *)

From stdpp Require Import gmap list sorting.

(** * Definitions *)

(** ** Outcomes and the monad *)

Inductive exn := container_is_empty | foreign_failure.

(** [Fault] is an access through a dangling or null pointer (undefined
    behaviour in the source); [Timeout] is exhausted recursion fuel. *)
Inductive outcome (A : Type) :=
  | Done (a : A)
  | Throw (e : exn)
  | Fault
  | Timeout.
Arguments Done {A} a.
Arguments Throw {A} e.
Arguments Fault {A}.
Arguments Timeout {A}.

Section PriorityQueue.

Context {T : Type}.

(** The [Compare] functor.  [comp x y = Some b] when the call returns [b],
    [None] when it throws. *)
Variable comp : T → T → option bool.

Record Node := mkNode {
  data : T;
  left : option positive;
  right : option positive;
  npl : Z
}.

Record PQ := mkPQ {
  root : option positive;
  sz : Z
}.

Record state := mkState {
  mem : gmap positive Node;
  objs : gmap positive PQ
}.

Definition M (A : Type) : Type := state → outcome A * state.

Definition ret {A} (a : A) : M A := λ st, (Done a, st).

Definition bind {A B} (m : M A) (k : A → M B) : M B := λ st,
  match m st with
  | (Done a, st') => k a st'
  | (Throw e, st') => (Throw e, st')
  | (Fault, st') => (Fault, st')
  | (Timeout, st') => (Timeout, st')
  end.

Definition throw {A} (e : exn) : M A := λ st, (Throw e, st).
Definition fault {A} : M A := λ st, (Fault, st).
Definition timeout {A} : M A := λ st, (Timeout, st).

(** [try { m } catch (...) { h }] *)
Definition try_catch {A} (m : M A) (h : exn → M A) : M A := λ st,
  match m st with
  | (Throw e, st') => h e st'
  | r => r
  end.

Notation "'do' x <- m ; k" := (bind m (λ x, k))
  (at level 10, x name, m at level 100, k at level 200,
   format "'[v' 'do'  x  <-  m ; '/' k ']'").
Notation "m ;; k" := (bind m (λ _, k))
  (at level 100, k at level 200, right associativity).

(** ** Node store primitives *)

Definition load (a : positive) : M Node := λ st,
  match mem st !! a with
  | Some n => (Done n, st)
  | None => (Fault, st)
  end.

Definition store (a : positive) (n : Node) : M unit := λ st,
  match mem st !! a with
  | Some _ => (Done tt, mkState (<[a := n]> (mem st)) (objs st))
  | None => (Fault, st)
  end.

(** [new Node(val)]: the constructor sets both children to [nullptr] and
    [npl] to 1. *)
Definition new_node (val : T) : M positive := λ st,
  let a := fresh (dom (mem st)) in
  (Done a, mkState (<[a := mkNode val None None 1%Z]> (mem st)) (objs st)).

(** [delete node] *)
Definition delete_node (a : positive) : M unit := λ st,
  match mem st !! a with
  | Some _ => (Done tt, mkState (delete a (mem st)) (objs st))
  | None => (Fault, st)
  end.

Definition set_left (a : positive) (l : option positive) : M unit :=
  do n <- load a; store a (mkNode (data n) l (right n) (npl n)).

Definition set_right (a : positive) (r : option positive) : M unit :=
  do n <- load a; store a (mkNode (data n) (left n) r (npl n)).

Definition set_npl (a : positive) (v : Z) : M unit :=
  do n <- load a; store a (mkNode (data n) (left n) (right n) v).

(** [std::swap(h1->left, h1->right)] *)
Definition swap_children (a : positive) : M unit :=
  do n <- load a; store a (mkNode (data n) (right n) (left n) (npl n)).

Definition call_comp (x y : T) : M bool :=
  match comp x y with
  | Some b => ret b
  | None => throw foreign_failure
  end.

(** ** Private helpers of the class *)

Definition getNPL (node : option positive) : M Z :=
  match node with
  | Some a => do n <- load a; ret (npl n)
  | None => ret 0%Z
  end.

Definition updateNPL (node : option positive) : M unit :=
  match node with
  | Some a =>
      do n <- load a;
      do r <- getNPL (right n);
      set_npl a (r + 1)%Z
  | None => ret tt
  end.

Fixpoint merge (fuel : nat) (h1 h2 : option positive) : M (option positive) :=
  match fuel with
  | O => timeout
  | S fuel' =>
      match h1, h2 with
      | None, _ => ret h2
      | Some _, None => ret h1
      | Some a1, Some a2 =>
          do n1 <- load a1;
          do n2 <- load a2;
          do c <- call_comp (data n1) (data n2);
          let h := if c then a2 else a1 in
          let o := if c then a1 else a2 in
          do nh <- load h;
          do r <- merge fuel' (right nh) (Some o);
          set_right h r;;
          do nh <- load h;
          do nl <- getNPL (left nh);
          do nr <- getNPL (right nh);
          (if (nl <? nr)%Z then swap_children h else ret tt);;
          updateNPL (Some h);;
          ret (Some h)
      end
  end.

Fixpoint clear (fuel : nat) (node : option positive) : M unit :=
  match fuel with
  | O => timeout
  | S fuel' =>
      match node with
      | None => ret tt
      | Some a =>
          do n <- load a;
          clear fuel' (left n);;
          do n <- load a;
          clear fuel' (right n);;
          delete_node a
      end
  end.

Fixpoint copy (fuel : nat) (node : option positive) : M (option positive) :=
  match fuel with
  | O => timeout
  | S fuel' =>
      match node with
      | None => ret None
      | Some a =>
          do n <- load a;
          do newNode <- new_node (data n);
          do n <- load a;
          do l <- copy fuel' (left n);
          set_left newNode l;;
          do n <- load a;
          do r <- copy fuel' (right n);
          set_right newNode r;;
          do n <- load a;
          set_npl newNode (npl n);;
          ret (Some newNode)
      end
  end.

(** ** Queue objects *)

Definition size_modulus : Z := (2 ^ 64)%Z.
Definition wrap (z : Z) : Z := (z mod size_modulus)%Z.

Definition get_obj (this : positive) : M PQ := λ st,
  match objs st !! this with
  | Some o => (Done o, st)
  | None => (Fault, st)
  end.

Definition put_obj (this : positive) (o : PQ) : M unit := λ st,
  match objs st !! this with
  | Some _ => (Done tt, mkState (mem st) (<[this := o]> (objs st)))
  | None => (Fault, st)
  end.

Definition get_root (this : positive) : M (option positive) :=
  do o <- get_obj this; ret (root o).

Definition get_sz (this : positive) : M Z :=
  do o <- get_obj this; ret (sz o).

Definition set_root (this : positive) (r : option positive) : M unit :=
  do o <- get_obj this; put_obj this (mkPQ r (sz o)).

Definition set_sz (this : positive) (s : Z) : M unit :=
  do o <- get_obj this; put_obj this (mkPQ (root o) s).

(** Recursion budget of a public operation: one more than the number of
    allocated nodes. *)
Definition budget : M nat := λ st, (Done (S (size (mem st))), st).

(** ** Public member functions *)

(** [priority_queue()] placed at address [this]. *)
Definition construct (this : positive) : M unit := λ st,
  (Done tt, mkState (mem st) (<[this := mkPQ None 0%Z]> (objs st))).

Definition size (this : positive) : M Z := get_sz this.

Definition empty (this : positive) : M bool :=
  do s <- get_sz this; ret (s =? 0)%Z.

(** [priority_queue(const priority_queue &other)] placed at address [this]. *)
Definition copy_construct (this other : positive) : M unit :=
  (λ st, (Done tt, mkState (mem st) (<[this := mkPQ None 0%Z]> (objs st))));;
  do b <- budget;
  do r0 <- get_root other;
  do r <- copy b r0;
  set_root this r;;
  do s <- get_sz other;
  set_sz this s.

(** [~priority_queue()]: the nodes are released and the object ceases to
    exist. *)
Definition destroy (this : positive) : M unit :=
  do b <- budget;
  do r <- get_root this;
  clear b r;;
  (λ st, (Done tt, mkState (mem st) (delete this (objs st)))).

(** [operator=] *)
Definition assign (this other : positive) : M unit :=
  if decide (this ≠ other) then
    do b <- budget;
    do r0 <- get_root this;
    clear b r0;;
    do b <- budget;
    do r1 <- get_root other;
    do r <- copy b r1;
    set_root this r;;
    do s <- get_sz other;
    set_sz this s
  else ret tt.

Definition top (this : positive) : M T :=
  do e <- empty this;
  if e then throw container_is_empty
  else
    do r <- get_root this;
    match r with
    | Some a => do n <- load a; ret (data n)
    | None => fault
    end.

Definition push (this : positive) (e : T) : M unit :=
  do newNode <- new_node e;
  try_catch
    (do b <- budget;
     do r0 <- get_root this;
     do r <- merge b r0 (Some newNode);
     set_root this r;;
     do s <- get_sz this;
     set_sz this (wrap (s + 1)%Z))
    (λ ex, delete_node newNode;; throw ex).

Definition pop (this : positive) : M unit :=
  do e <- empty this;
  if e then throw container_is_empty
  else
    do oldRoot <- get_root this;
    match oldRoot with
    | None => fault
    | Some a =>
        do n <- load a;
        do b <- budget;
        do r <- merge b (left n) (right n);
        set_root this r;;
        delete_node a;;
        do s <- get_sz this;
        set_sz this (wrap (s - 1)%Z)
    end.

(** [void merge(priority_queue &other)] *)
Definition merge_pq (this other : positive) : M unit :=
  if decide (this = other) then ret tt
  else
    try_catch
      (do b <- budget;
       do r0 <- get_root this;
       do r1 <- get_root other;
       do r <- merge b r0 r1;
       set_root this r;;
       do s0 <- get_sz this;
       do s1 <- get_sz other;
       set_sz this (wrap (s0 + s1)%Z);;
       set_root other None;;
       set_sz other 0%Z)
      (λ ex, throw ex).

(** ** A client loop: read [top()], then [pop()], until [empty()] *)

Fixpoint drain_loop (n : nat) (this : positive) : M (list T) :=
  match n with
  | O => timeout
  | S n' =>
      do e <- empty this;
      if e then ret []
      else
        do x <- top this;
        pop this;;
        do xs <- drain_loop n' this;
        ret (x :: xs)
  end.

Definition drain (this : positive) : M (list T) :=
  do b <- budget; drain_loop b this.

Fixpoint push_all (this : positive) (xs : list T) : M unit :=
  match xs with
  | [] => ret tt
  | x :: xs' => push this x;; push_all this xs'
  end.

(** ** Exception behaviour of computations

    Properties of a computation, closed under [bind]:
    - [readonly]: the state is never changed;
    - [nothrow]: no exception leaves it;
    - [throw_safe]: when an exception leaves it, the state is the one it
      started from. *)

Definition readonly {A} (m : M A) : Prop := ∀ st, (m st).2 = st.
Definition nothrow {A} (m : M A) : Prop := ∀ st e, (m st).1 ≠ Throw e.
Definition throw_safe {A} (m : M A) : Prop :=
  ∀ st e st', m st = (Throw e, st') → st' = st.

(** [throws_only e m]: no exception other than [e] leaves [m]. *)
Definition throws_only {A} (e : exn) (m : M A) : Prop :=
  ∀ st ex st', m st = (Throw ex, st') → ex = e.

(** ** Client programs

    Sequences of calls a client may make; they are the programs the
    properties below speak about. *)

(** [k] calls of [pop()]. *)
Fixpoint pop_n (k : nat) (this : positive) : M unit :=
  match k with
  | O => ret tt
  | S k' => pop this;; pop_n k' this
  end.

(** A mutation of one queue by a client that goes on whatever the call
    returns or throws. *)
Inductive mutation :=
  | MPush (e : T)
  | MPop.

Definition run_mutation (this : positive) (mu : mutation) : M unit :=
  match mu with
  | MPush e => push this e
  | MPop => pop this
  end.

Definition run_mutations (this : positive) (mus : list mutation)
    (st : state) : state :=
  foldl (λ s mu, (run_mutation this mu s).2) st mus.

(** One call of a public member function, constructor or destructor. *)
Inductive op :=
  | OpConstruct (this : positive)
  | OpCopyConstruct (this other : positive)
  | OpDestroy (this : positive)
  | OpAssign (this other : positive)
  | OpTop (this : positive)
  | OpPush (this : positive) (e : T)
  | OpPop (this : positive)
  | OpSize (this : positive)
  | OpEmpty (this : positive)
  | OpMerge (this other : positive).

Definition run_op (c : op) : M unit :=
  match c with
  | OpConstruct q => construct q
  | OpCopyConstruct q other => copy_construct q other
  | OpDestroy q => destroy q
  | OpAssign q other => assign q other
  | OpTop q => top q;; ret tt
  | OpPush q e => push q e
  | OpPop q => pop q
  | OpSize q => size q;; ret tt
  | OpEmpty q => empty q;; ret tt
  | OpMerge q other => merge_pq q other
  end.


(** A call completes when it returns or throws; [Fault] and [Timeout] are
    not behaviours of a well-defined C++ program. *)
Definition completes {A} (r : outcome A) : Prop :=
  match r with Done _ | Throw _ => True | Fault | Timeout => False end.

(** Running a list of calls, as long as each returns or throws. *)
Fixpoint exec (cs : list op) (st : state) : option state :=
  match cs with
  | [] => Some st
  | c :: cs' =>
      match run_op c st with
      | (Done _, st') | (Throw _, st') => exec cs' st'
      | _ => None
      end
  end.

(** The program state before anything was allocated. *)
Definition init : state := mkState ∅ ∅.

(** The states a program gets to by calls that return or throw. *)
Inductive reachable : state → Prop :=
  | reachable_init : reachable init
  | reachable_step st c r st' :
      reachable st → run_op c st = (r, st') → completes r → reachable st'.

(** ** Ghost trees

    A [tree] records which node sits at which address.  [repr m t] says that
    the store [m] holds, at the addresses of [t], exactly the nodes of [t]
    with the pointers between them; together with [NoDup (addrs t)] it says
    that [ptr t] is the root of a tree-shaped, unshared structure.  A queue
    [owns] a tree when its root points to it and its size field counts it. *)

Inductive tree :=
  | Leaf
  | Br (a : positive) (l : tree) (x : T) (n : Z) (r : tree).

Definition ptr (t : tree) : option positive :=
  match t with Leaf => None | Br a _ _ _ _ => Some a end.

(** What [getNPL] reads at the root of [t]. *)
Definition rank (t : tree) : Z :=
  match t with Leaf => 0%Z | Br _ _ _ n _ => n end.

Fixpoint addrs (t : tree) : list positive :=
  match t with
  | Leaf => []
  | Br a l _ _ r => a :: addrs l ++ addrs r
  end.

Fixpoint elems (t : tree) : list T :=
  match t with
  | Leaf => []
  | Br _ l x _ r => x :: elems l ++ elems r
  end.

Fixpoint tsize (t : tree) : nat :=
  match t with
  | Leaf => 0
  | Br _ l _ _ r => S (tsize l + tsize r)
  end.

Fixpoint repr (m : gmap positive Node) (t : tree) : Prop :=
  match t with
  | Leaf => True
  | Br a l x n r =>
      m !! a = Some (mkNode x (ptr l) (ptr r) n) ∧ repr m l ∧ repr m r
  end.

(** The tree of a node just made by [new Node(e)]. *)
Definition leaf (a : positive) (e : T) : tree := Br a Leaf e 1%Z Leaf.

(** The fields of a queue object that owns [t]. *)
Definition obj_of (t : tree) : PQ := mkPQ (ptr t) (wrap (Z.of_nat (tsize t))).

Definition owns (st : state) (q : positive) (t : tree) : Prop :=
  objs st !! q = Some (mkPQ (ptr t) (wrap (Z.of_nat (tsize t))))
  ∧ repr (mem st) t
  ∧ NoDup (addrs t).

(** [erase] forgets the addresses: two trees with the same erasure hold the
    same data, the same child structure and the same stored [npl] at every
    node. *)
Fixpoint erase (t : tree) : tree :=
  match t with
  | Leaf => Leaf
  | Br _ l x n r => Br 1 (erase l) x n (erase r)
  end.

(** ** The algorithms on ghost trees *)

(** Lines 47-55 of the source seen on trees: [r] becomes the right child,
    the children are swapped when [getNPL(left) < getNPL(right)], and the
    stored [npl] becomes [getNPL(right) + 1]. *)
Definition join (a : positive) (l : tree) (x : T) (r : tree) : tree :=
  if (rank l <? rank r)%Z
  then Br a r x (rank l + 1)%Z l
  else Br a l x (rank r + 1)%Z r.

(** The tree-level [merge] seen on trees, with the same fuel. *)
Fixpoint tmerge (fuel : nat) (t1 t2 : tree) : outcome tree :=
  match fuel with
  | O => Timeout
  | S fuel' =>
      match t1, t2 with
      | Leaf, _ => Done t2
      | Br _ _ _ _ _, Leaf => Done t1
      | Br a1 l1 x1 _ r1, Br a2 l2 x2 _ r2 =>
          match comp x1 x2 with
          | None => Throw foreign_failure
          | Some true =>
              match tmerge fuel' r2 t1 with
              | Done r => Done (join a2 l2 x2 r)
              | o => o
              end
          | Some false =>
              match tmerge fuel' r1 t2 with
              | Done r => Done (join a1 l1 x1 r)
              | o => o
              end
          end
      end
  end.

(** [tmerge] with just enough fuel. *)
Definition tmerge' (t1 t2 : tree) : outcome tree :=
  tmerge (S (tsize t1 + tsize t2)) t1 t2.

(** What the tree-level [merge] does on a store holding [t1] and [t2]: the
    outcome of [tmerge]; on return the store holds the merged tree and is
    unchanged elsewhere, otherwise it is unchanged altogether. *)
Definition merge_post (fuel : nat) (t1 t2 : tree)
    (m : gmap positive Node) (o : gmap positive PQ) : Prop :=
  match tmerge fuel t1 t2 with
  | Done t =>
      ∃ m', merge fuel (ptr t1) (ptr t2) (mkState m o)
            = (Done (ptr t), mkState m' o)
        ∧ repr m' t
        ∧ (∀ a, a ∉ addrs t1 ++ addrs t2 → m' !! a = m !! a)
        ∧ dom m' = dom m
  | Throw e =>
      merge fuel (ptr t1) (ptr t2) (mkState m o) = (Throw e, mkState m o)
  | Timeout =>
      merge fuel (ptr t1) (ptr t2) (mkState m o) = (Timeout, mkState m o)
  | Fault => False
  end.

Definition omap {A B} (f : A → B) (r : outcome A) : outcome B :=
  match r with
  | Done a => Done (f a)
  | Throw e => Throw e
  | Fault => Fault
  | Timeout => Timeout
  end.

(** The client loop [drain_loop] seen on trees. *)
Fixpoint tdrain (fuel : nat) (t : tree) : outcome (list T) :=
  match fuel with
  | O => Timeout
  | S fuel' =>
      match t with
      | Leaf => Done []
      | Br _ l x _ r =>
          match tmerge' l r with
          | Done t' => omap (cons x) (tdrain fuel' t')
          | Throw e => Throw e
          | Fault => Fault
          | Timeout => Timeout
          end
      end
  end.

(** ** Invariants

    [ginv P]: every queue object owns a tree satisfying [P], and no node
    belongs to two queues. *)

Definition ginv (P : tree → Prop) (st : state) : Prop :=
  ∃ Γ : gmap positive tree,
    dom Γ = dom (objs st)
    ∧ (∀ q t, Γ !! q = Some t → owns st q t ∧ P t)
    ∧ (∀ q1 q2 t1 t2 a, Γ !! q1 = Some t1 → Γ !! q2 = Some t2 →
         a ∈ addrs t1 → a ∈ addrs t2 → q1 = q2).

(** What a predicate on trees must satisfy to be kept by every operation. *)
Record tree_invariant (P : tree → Prop) : Prop := {
  inv_Leaf : P Leaf;
  inv_leaf a e : P (leaf a e);
  inv_merge t1 t2 t : P t1 → P t2 → tmerge' t1 t2 = Done t → P t;
  inv_children a l x n r : P (Br a l x n r) → P l ∧ P r;
  inv_erase t t' : erase t = erase t' → P t → P t'
}.

(** Stored values: at every node the left child's stored [npl] is at least
    the right child's, and the node's own is the right child's plus one. *)
Fixpoint leftist (t : tree) : Prop :=
  match t with
  | Leaf => True
  | Br _ l _ n r =>
      (rank r ≤ rank l)%Z ∧ n = (rank r + 1)%Z ∧ leftist l ∧ leftist r
  end.





(** ** Orderings

    [less] is the order a comparator computes when it does not throw. *)

(** The requirements C++ puts on [Compare]: a strict weak ordering. *)
Record strict_weak_order (less : T → T → bool) : Prop := {
  swo_irrefl x : less x x = false;
  swo_trans x y z : less x y = true → less y z = true → less x z = true;
  swo_equiv_trans x y z :
    less x y = false → less y x = false →
    less y z = false → less z y = false →
    less x z = false ∧ less z x = false
}.

(** The max-heap property: no node is less than either of its children. *)
Definition ge_root (less : T → T → bool) (x : T) (t : tree) : Prop :=
  match t with Leaf => True | Br _ _ y _ _ => less x y = false end.

Fixpoint heap_ordered (less : T → T → bool) (t : tree) : Prop :=
  match t with
  | Leaf => True
  | Br _ l x _ r =>
      ge_root less x l ∧ ge_root less x r
      ∧ heap_ordered less l ∧ heap_ordered less r
  end.

Definition not_less (less : T → T → bool) (x y : T) : Prop :=
  less x y = false.

(** The queue objects a call may modify: [this], and for the queue-to-queue
    merge also [other]. *)
Definition op_writes (c : op) : list positive :=
  match c with
  | OpConstruct q | OpCopyConstruct q _ | OpDestroy q | OpAssign q _
  | OpPush q _ | OpPop q => [q]
  | OpMerge q other => [q; other]
  | OpTop _ | OpSize _ | OpEmpty _ => []
  end.




(** The max-heap property read off the store: the node at [a] is not less
    than the node that either of its child pointers leads to. *)
Definition node_heap_ordered (less : T → T → bool) (st : state)
    (a : positive) : Prop :=
  ∃ n, mem st !! a = Some n
    ∧ ∀ c, left n = Some c ∨ right n = Some c →
        ∃ nc, mem st !! c = Some nc ∧ less (data n) (data nc) = false.


(** * Proofs *)

(** ** The exception properties are closed under [bind] *)

Lemma readonly_throw_safe {A} (m : M A) : readonly m → throw_safe m.
Proof. intros Hm st e st' Heq. specialize (Hm st). by rewrite Heq in Hm. Qed.

Lemma nothrow_throw_safe {A} (m : M A) : nothrow m → throw_safe m.
Proof. intros Hm st e st' Heq. specialize (Hm st e). by rewrite Heq in Hm. Qed.

Lemma readonly_ret {A} (a : A) : readonly (ret a).
Proof. done. Qed.

Lemma readonly_throw {A} e : readonly (@throw A e).
Proof. done. Qed.

Lemma readonly_fault {A} : readonly (@fault A).
Proof. done. Qed.

Lemma readonly_timeout {A} : readonly (@timeout A).
Proof. done. Qed.

Lemma readonly_bind {A B} (m : M A) (k : A → M B) :
  readonly m → (∀ a, readonly (k a)) → readonly (bind m k).
Proof.
  intros Hm Hk st. unfold bind. specialize (Hm st).
  destruct (m st) as [[a| | |] st1]; simpl in *; subst; try done. apply Hk.
Qed.

Lemma readonly_load a : readonly (load a).
Proof. intros st. unfold load. by destruct (mem st !! a). Qed.

Lemma readonly_get_obj q : readonly (get_obj q).
Proof. intros st. unfold get_obj. by destruct (objs st !! q). Qed.

Lemma readonly_call_comp x y : readonly (call_comp x y).
Proof. intros st. unfold call_comp. by destruct (comp x y). Qed.

Lemma readonly_budget : readonly budget.
Proof. done. Qed.

Lemma readonly_getNPL p : readonly (getNPL p).
Proof.
  destruct p; simpl; [|apply readonly_ret].
  apply readonly_bind; [apply readonly_load|intros; apply readonly_ret].
Qed.

Lemma readonly_get_root q : readonly (get_root q).
Proof. apply readonly_bind; [apply readonly_get_obj|intros; apply readonly_ret]. Qed.

Lemma readonly_get_sz q : readonly (get_sz q).
Proof. apply readonly_bind; [apply readonly_get_obj|intros; apply readonly_ret]. Qed.

Lemma readonly_empty q : readonly (empty q).
Proof. apply readonly_bind; [apply readonly_get_sz|intros; apply readonly_ret]. Qed.

Lemma nothrow_ret {A} (a : A) : nothrow (ret a).
Proof. done. Qed.

Lemma nothrow_fault {A} : nothrow (@fault A).
Proof. done. Qed.

Lemma nothrow_timeout {A} : nothrow (@timeout A).
Proof. done. Qed.

Lemma nothrow_bind {A B} (m : M A) (k : A → M B) :
  nothrow m → (∀ a, nothrow (k a)) → nothrow (bind m k).
Proof.
  intros Hm Hk st e. unfold bind. specialize (Hm st).
  destruct (m st) as [[a|e'| |] st1]; simpl in *; try done.
  - apply Hk.
  - by destruct (Hm e').
Qed.

Lemma nothrow_load a : nothrow (load a).
Proof. intros st e. unfold load. by destruct (mem st !! a). Qed.

Lemma nothrow_store a n : nothrow (store a n).
Proof. intros st e. unfold store. by destruct (mem st !! a). Qed.

Lemma nothrow_new_node v : nothrow (new_node v).
Proof. done. Qed.

Lemma nothrow_delete_node a : nothrow (delete_node a).
Proof. intros st e. unfold delete_node. by destruct (mem st !! a). Qed.

Lemma nothrow_get_obj q : nothrow (get_obj q).
Proof. intros st e. unfold get_obj. by destruct (objs st !! q). Qed.

Lemma nothrow_put_obj q o : nothrow (put_obj q o).
Proof. intros st e. unfold put_obj. by destruct (objs st !! q). Qed.

Lemma nothrow_budget : nothrow budget.
Proof. done. Qed.

Create HintDb effects discriminated.
#[local] Hint Resolve readonly_ret readonly_throw readonly_fault
  readonly_timeout readonly_load readonly_get_obj readonly_call_comp
  readonly_budget readonly_getNPL readonly_get_root readonly_get_sz
  readonly_empty nothrow_ret nothrow_fault nothrow_timeout nothrow_load
  nothrow_store nothrow_new_node nothrow_delete_node nothrow_get_obj
  nothrow_put_obj nothrow_budget : effects.
#[local] Hint Extern 2 (readonly (bind _ _)) =>
  apply readonly_bind; [|intros ?] : effects.
#[local] Hint Extern 2 (nothrow (bind _ _)) =>
  apply nothrow_bind; [|intros ?] : effects.
#[local] Hint Extern 3 (nothrow (if ?b then _ else _)) => destruct b : effects.
#[local] Hint Extern 3 (nothrow (match ?o with Some _ => _ | None => _ end)) =>
  destruct o : effects.

Lemma nothrow_set_left a l : nothrow (set_left a l).
Proof. unfold set_left. auto with effects. Qed.

Lemma nothrow_set_right a r : nothrow (set_right a r).
Proof. unfold set_right. auto with effects. Qed.

Lemma nothrow_set_npl a v : nothrow (set_npl a v).
Proof. unfold set_npl. auto with effects. Qed.

Lemma nothrow_swap_children a : nothrow (swap_children a).
Proof. unfold swap_children. auto with effects. Qed.

Lemma nothrow_getNPL p : nothrow (getNPL p).
Proof. unfold getNPL. auto with effects. Qed.

#[local] Hint Resolve nothrow_set_left nothrow_set_right nothrow_set_npl
  nothrow_swap_children nothrow_getNPL : effects.

Lemma nothrow_updateNPL p : nothrow (updateNPL p).
Proof. unfold updateNPL. auto with effects. Qed.

Lemma nothrow_get_root q : nothrow (get_root q).
Proof. unfold get_root. auto with effects. Qed.

Lemma nothrow_get_sz q : nothrow (get_sz q).
Proof. unfold get_sz. auto with effects. Qed.

Lemma nothrow_set_root q r : nothrow (set_root q r).
Proof. unfold set_root. auto with effects. Qed.

Lemma nothrow_set_sz q s : nothrow (set_sz q s).
Proof. unfold set_sz. auto with effects. Qed.

#[local] Hint Resolve nothrow_updateNPL nothrow_get_root nothrow_get_sz
  nothrow_set_root nothrow_set_sz : effects.

Lemma throw_safe_bind_readonly {A B} (m : M A) (k : A → M B) :
  readonly m → (∀ a, throw_safe (k a)) → throw_safe (bind m k).
Proof.
  intros Hm Hk st e st'. unfold bind. specialize (Hm st).
  destruct (m st) as [[a|e'| |] st1]; simpl in *; subst; try done.
  - apply Hk.
  - congruence.
Qed.

Lemma throw_safe_bind_nothrow {A B} (m : M A) (k : A → M B) :
  throw_safe m → (∀ a, nothrow (k a)) → throw_safe (bind m k).
Proof.
  intros Hm Hk st e st'. unfold bind.
  destruct (m st) as [[a|e'| |] st1] eqn:Hmst; try done.
  - intros Hka. specialize (Hk a st1 e). by rewrite Hka in Hk.
  - intros [= -> ->]. by eapply Hm.
Qed.

(** The tree-level merge makes every comparison on the way down the two
    rightmost spines and every assignment on the way back up: an exception
    from the comparator therefore leaves the store as it found it. *)
Lemma throw_safe_merge fuel h1 h2 : throw_safe (merge fuel h1 h2).
Proof.
  revert h1 h2. induction fuel as [|fuel IH]; intros h1 h2; simpl.
  { apply readonly_throw_safe; auto with effects. }
  destruct h1 as [a1|]; [|apply readonly_throw_safe; auto with effects].
  destruct h2 as [a2|]; [|apply readonly_throw_safe; auto with effects].
  apply throw_safe_bind_readonly; [auto with effects|intros n1].
  apply throw_safe_bind_readonly; [auto with effects|intros n2].
  apply throw_safe_bind_readonly; [auto with effects|intros c].
  apply throw_safe_bind_readonly; [auto with effects|intros nh].
  apply throw_safe_bind_nothrow; [apply IH|intros r].
  auto 12 with effects.
Qed.

(** ** Basic facts about ghost trees *)

Lemma length_addrs t : length (addrs t) = tsize t.
Proof. induction t; simpl; [done|]. rewrite length_app. lia. Qed.

Lemma length_elems t : length (elems t) = tsize t.
Proof. induction t; simpl; [done|]. rewrite length_app. lia. Qed.

Lemma ptr_None t : ptr t = None → t = Leaf.
Proof. by destruct t. Qed.

Lemma repr_agree m m' t :
  (∀ a, a ∈ addrs t → m' !! a = m !! a) → repr m t → repr m' t.
Proof.
  induction t as [|a l IHl x n r IHr]; simpl; [done|].
  intros Hag (Ha & Hl & Hr). split_and!.
  - rewrite Hag; [done|set_solver].
  - apply IHl; [|done]. intros b Hb. apply Hag. set_solver.
  - apply IHr; [|done]. intros b Hb. apply Hag. set_solver.
Qed.

Lemma repr_insert m t a n : a ∉ addrs t → repr m t → repr (<[a := n]> m) t.
Proof.
  intros Ha. apply repr_agree. intros b Hb.
  rewrite lookup_insert_ne; [done|]. by intros ->.
Qed.

Lemma repr_delete m t a : a ∉ addrs t → repr m t → repr (delete a m) t.
Proof.
  intros Ha. apply repr_agree. intros b Hb.
  rewrite lookup_delete_ne; [done|]. by intros ->.
Qed.

Lemma repr_dom m t a : repr m t → a ∈ addrs t → a ∈ dom m.
Proof.
  induction t as [|b l IHl x n r IHr]; simpl; [set_solver|].
  intros (Hb & Hl & Hr). rewrite elem_of_cons, elem_of_app.
  intros [->|[?|?]]; [by apply elem_of_dom|by apply IHl|by apply IHr].
Qed.

Lemma repr_size m t : repr m t → NoDup (addrs t) → tsize t ≤ base.size m.
Proof.
  intros Hr Hnd. rewrite <-length_addrs, <-size_dom.
  rewrite <-(size_list_to_set (C:=gset positive) (addrs t)) by done.
  apply subseteq_size. intros a Ha. apply elem_of_list_to_set in Ha.
  by eapply repr_dom.
Qed.

Lemma repr_size2 m t1 t2 :
  repr m t1 → repr m t2 → NoDup (addrs t1 ++ addrs t2) →
  tsize t1 + tsize t2 ≤ base.size m.
Proof.
  intros H1 H2 Hnd. rewrite <-!length_addrs, <-length_app, <-size_dom.
  rewrite <-(size_list_to_set (C:=gset positive) (addrs t1 ++ addrs t2)) by done.
  apply subseteq_size. intros a Ha. apply elem_of_list_to_set in Ha.
  apply elem_of_app in Ha as [Ha|Ha];
    [by apply (repr_dom m t1)|by apply (repr_dom m t2)].
Qed.

Lemma addrs_join a l x r : addrs (join a l x r) ≡ₚ a :: addrs l ++ addrs r.
Proof.
  unfold join. destruct (rank l <? rank r)%Z; simpl; [|done].
  by rewrite (comm (++)).
Qed.

Lemma elems_join a l x r : elems (join a l x r) ≡ₚ x :: elems l ++ elems r.
Proof.
  unfold join. destruct (rank l <? rank r)%Z; simpl; [|done].
  by rewrite (comm (++)).
Qed.

Lemma tsize_join a l x r : tsize (join a l x r) = S (tsize l + tsize r).
Proof. unfold join. destruct (rank l <? rank r)%Z; simpl; lia. Qed.

Lemma ptr_join a l x r : ptr (join a l x r) = Some a.
Proof. unfold join. by destruct (rank l <? rank r)%Z. Qed.

Lemma tmerge_addrs fuel t1 t2 t :
  tmerge fuel t1 t2 = Done t → addrs t ≡ₚ addrs t1 ++ addrs t2.
Proof.
  revert t1 t2 t. induction fuel as [|fuel IH]; intros t1 t2 t; simpl; [done|].
  destruct t1 as [|a1 l1 x1 n1 r1]; [by intros [= ->]|].
  destruct t2 as [|a2 l2 x2 n2 r2]; [intros [= <-]; by rewrite app_nil_r|].
  destruct (comp x1 x2) as [[]|]; [| |done].
  - destruct (tmerge fuel r2 _) as [r| | |] eqn:Hrec; try done.
    intros [= <-]. rewrite addrs_join, (IH _ _ _ Hrec). simpl.
    etrans; [|apply (Permutation_app_comm
      (a2 :: addrs l2 ++ addrs r2) (a1 :: addrs l1 ++ addrs r1))].
    simpl. by rewrite <-(assoc (++)).
  - destruct (tmerge fuel r1 _) as [r| | |] eqn:Hrec; try done.
    intros [= <-]. rewrite addrs_join, (IH _ _ _ Hrec). simpl.
    by rewrite (assoc (++)).
Qed.

Lemma tmerge_elems fuel t1 t2 t :
  tmerge fuel t1 t2 = Done t → elems t ≡ₚ elems t1 ++ elems t2.
Proof.
  revert t1 t2 t. induction fuel as [|fuel IH]; intros t1 t2 t; simpl; [done|].
  destruct t1 as [|a1 l1 x1 n1 r1]; [by intros [= ->]|].
  destruct t2 as [|a2 l2 x2 n2 r2]; [intros [= <-]; by rewrite app_nil_r|].
  destruct (comp x1 x2) as [[]|]; [| |done].
  - destruct (tmerge fuel r2 _) as [r| | |] eqn:Hrec; try done.
    intros [= <-]. rewrite elems_join, (IH _ _ _ Hrec). simpl.
    etrans; [|apply (Permutation_app_comm
      (x2 :: elems l2 ++ elems r2) (x1 :: elems l1 ++ elems r1))].
    simpl. by rewrite <-(assoc (++)).
  - destruct (tmerge fuel r1 _) as [r| | |] eqn:Hrec; try done.
    intros [= <-]. rewrite elems_join, (IH _ _ _ Hrec). simpl.
    by rewrite (assoc (++)).
Qed.

Lemma tmerge_size fuel t1 t2 t :
  tmerge fuel t1 t2 = Done t → tsize t = tsize t1 + tsize t2.
Proof.
  intros H%tmerge_addrs%Permutation_length.
  by rewrite length_app, !length_addrs in H.
Qed.

Lemma tmerge_no_fault fuel t1 t2 : tmerge fuel t1 t2 ≠ Fault.
Proof.
  revert t1 t2. induction fuel as [|fuel IH]; intros t1 t2; simpl; [done|].
  destruct t1 as [|a1 l1 x1 n1 r1]; [done|].
  destruct t2 as [|a2 l2 x2 n2 r2]; [done|].
  destruct (comp x1 x2) as [[]|]; [| |done].
  - specialize (IH r2 (Br a1 l1 x1 n1 r1)). by destruct (tmerge fuel r2 _).
  - specialize (IH r1 (Br a2 l2 x2 n2 r2)). by destruct (tmerge fuel r1 _).
Qed.

(** With fuel beyond the two sizes the recursion never runs dry. *)
Lemma tmerge_no_timeout fuel t1 t2 :
  tsize t1 + tsize t2 < fuel → tmerge fuel t1 t2 ≠ Timeout.
Proof.
  revert t1 t2. induction fuel as [|fuel IH]; intros t1 t2; simpl; [lia|].
  destruct t1 as [|a1 l1 x1 n1 r1]; [done|].
  destruct t2 as [|a2 l2 x2 n2 r2]; [done|].
  simpl. intros Hlt.
  destruct (comp x1 x2) as [[]|]; [| |done].
  - specialize (IH r2 (Br a1 l1 x1 n1 r1)). simpl in IH.
    destruct (tmerge fuel r2 _); try done. apply IH. lia.
  - specialize (IH r1 (Br a2 l2 x2 n2 r2)). simpl in IH.
    destruct (tmerge fuel r1 _); try done. apply IH. lia.
Qed.

(** ** Running the primitives on a store that holds a ghost tree *)

Lemma bind_Done {A B} (m : M A) (k : A → M B) st a st1 :
  m st = (Done a, st1) → bind m k st = k a st1.
Proof. unfold bind. by intros ->. Qed.

Lemma bind_ret {A B} (a : A) (k : A → M B) st : bind (ret a) k st = k a st.
Proof. done. Qed.

Lemma bind_Throw {A B} (m : M A) (k : A → M B) st e st1 :
  m st = (Throw e, st1) → bind m k st = (Throw e, st1).
Proof. unfold bind. by intros ->. Qed.

Lemma bind_Timeout {A B} (m : M A) (k : A → M B) st st1 :
  m st = (Timeout, st1) → bind m k st = (Timeout, st1).
Proof. unfold bind. by intros ->. Qed.

Lemma run_load m o a n :
  m !! a = Some n → load a (mkState m o) = (Done n, mkState m o).
Proof. unfold load. simpl. by intros ->. Qed.

Lemma run_store m o a n0 n :
  m !! a = Some n0 →
  store a n (mkState m o) = (Done tt, mkState (<[a := n]> m) o).
Proof. unfold store. simpl. by intros ->. Qed.

Lemma run_delete_node m o a n0 :
  m !! a = Some n0 →
  delete_node a (mkState m o) = (Done tt, mkState (delete a m) o).
Proof. unfold delete_node. simpl. by intros ->. Qed.

Lemma run_set_left m o a n l :
  m !! a = Some n →
  set_left a l (mkState m o)
  = (Done tt, mkState (<[a := mkNode (data n) l (right n) (npl n)]> m) o).
Proof.
  intros Ha. unfold set_left. rewrite (bind_Done _ _ _ _ _ (run_load _ _ _ _ Ha)).
  by eapply run_store.
Qed.

Lemma run_set_right m o a n r :
  m !! a = Some n →
  set_right a r (mkState m o)
  = (Done tt, mkState (<[a := mkNode (data n) (left n) r (npl n)]> m) o).
Proof.
  intros Ha. unfold set_right. rewrite (bind_Done _ _ _ _ _ (run_load _ _ _ _ Ha)).
  by eapply run_store.
Qed.

Lemma run_set_npl m o a n v :
  m !! a = Some n →
  set_npl a v (mkState m o)
  = (Done tt, mkState (<[a := mkNode (data n) (left n) (right n) v]> m) o).
Proof.
  intros Ha. unfold set_npl. rewrite (bind_Done _ _ _ _ _ (run_load _ _ _ _ Ha)).
  by eapply run_store.
Qed.

Lemma run_swap_children m o a n :
  m !! a = Some n →
  swap_children a (mkState m o)
  = (Done tt, mkState (<[a := mkNode (data n) (right n) (left n) (npl n)]> m) o).
Proof.
  intros Ha. unfold swap_children.
  rewrite (bind_Done _ _ _ _ _ (run_load _ _ _ _ Ha)). by eapply run_store.
Qed.

Lemma run_getNPL m o t :
  repr m t → getNPL (ptr t) (mkState m o) = (Done (rank t), mkState m o).
Proof.
  destruct t as [|a l x n r]; simpl; [done|]. intros (Ha & _).
  by rewrite (bind_Done _ _ _ _ _ (run_load _ _ _ _ Ha)).
Qed.

Lemma run_updateNPL m o a n t :
  m !! a = Some n → right n = ptr t → repr m t →
  updateNPL (Some a) (mkState m o)
  = (Done tt,
     mkState (<[a := mkNode (data n) (left n) (right n) (rank t + 1)%Z]> m) o).
Proof.
  intros Ha Hr Ht. unfold updateNPL.
  rewrite (bind_Done _ _ _ _ _ (run_load _ _ _ _ Ha)), Hr.
  rewrite (bind_Done _ _ _ _ _ (run_getNPL _ _ _ Ht)), <-Hr.
  by eapply run_set_npl.
Qed.

(** The assignments after the recursive call (lines 47-55), run on a store
    where [h] has left subtree [tl] and the recursive call returned the root
    of [tr]. *)
Lemma run_merge_tail m o h x p0 n0 tl tr :
  m !! h = Some (mkNode x (ptr tl) p0 n0) →
  repr m tl → repr m tr → h ∉ addrs tl → h ∉ addrs tr →
  ∃ m',
    (set_right h (ptr tr);;
     do nh <- load h;
     do nl <- getNPL (left nh);
     do nr <- getNPL (right nh);
     (if (nl <? nr)%Z then swap_children h else ret tt);;
     updateNPL (Some h);;
     ret (Some h)) (mkState m o) = (Done (Some h), mkState m' o)
    ∧ repr m' (join h tl x tr)
    ∧ (∀ a, a ≠ h → m' !! a = m !! a)
    ∧ dom m' = dom m.
Proof.
  intros Hh Hl Hr Hhl Hhr.
  rewrite (bind_Done _ _ _ _ _ (run_set_right _ _ _ _ _ Hh)). simpl.
  set (m1 := <[h := _]> m).
  assert (Hh1 : m1 !! h = Some (mkNode x (ptr tl) (ptr tr) n0))
    by apply lookup_insert_eq.
  assert (Hl1 : repr m1 tl) by by apply repr_insert.
  assert (Hr1 : repr m1 tr) by by apply repr_insert.
  rewrite (bind_Done _ _ _ _ _ (run_load _ _ _ _ Hh1)). simpl.
  rewrite (bind_Done _ _ _ _ _ (run_getNPL _ _ _ Hl1)).
  rewrite (bind_Done _ _ _ _ _ (run_getNPL _ _ _ Hr1)).
  unfold join. destruct (rank tl <? rank tr)%Z.
  - rewrite (bind_Done _ _ _ _ _ (run_swap_children _ _ _ _ Hh1)). simpl.
    set (m2 := <[h := _]> m1).
    assert (Hh2 : m2 !! h = Some (mkNode x (ptr tr) (ptr tl) n0))
      by apply lookup_insert_eq.
    assert (Hl2 : repr m2 tl) by by apply repr_insert.
    assert (Hr2 : repr m2 tr) by by apply repr_insert.
    rewrite (bind_Done _ _ _ _ _ (run_updateNPL _ _ _ _ tl Hh2 eq_refl Hl2)).
    simpl. eexists. split; [done|]. split_and!.
    + rewrite lookup_insert_eq. done.
    + by apply repr_insert.
    + by apply repr_insert.
    + intros a Ha. subst m2 m1. by rewrite !lookup_insert_ne by done.
    + subst m2 m1. by rewrite !dom_insert_lookup_L by (by rewrite ?lookup_insert_eq).
  - rewrite bind_ret.
    rewrite (bind_Done _ _ _ _ _ (run_updateNPL _ _ _ _ tr Hh1 eq_refl Hr1)).
    simpl. eexists. split; [done|]. split_and!.
    + rewrite lookup_insert_eq. done.
    + by apply repr_insert.
    + by apply repr_insert.
    + intros a Ha. subst m1. by rewrite !lookup_insert_ne by done.
    + subst m1. by rewrite !dom_insert_lookup_L by (by rewrite ?lookup_insert_eq).
Qed.

(** ** The tree-level merge refines [tmerge] *)

Lemma merge_refines_step fuel a l x n r t2 m o b2 :
  merge_post fuel r t2 m o →
  repr m (Br a l x n r) → repr m t2 →
  NoDup (addrs (Br a l x n r) ++ addrs t2) →
  ptr t2 = Some b2 →
  match
    match tmerge fuel r t2 with
    | Done r' => Done (join a l x r')
    | o' => o'
    end
  with
  | Done t =>
      ∃ m', (do nh <- load a;
             do r' <- merge fuel (right nh) (Some b2);
             set_right a r';;
             do nh <- load a;
             do nl <- getNPL (left nh);
             do nr <- getNPL (right nh);
             (if (nl <? nr)%Z then swap_children a else ret tt);;
             updateNPL (Some a);;
             ret (Some a)) (mkState m o) = (Done (ptr t), mkState m' o)
        ∧ repr m' t
        ∧ (∀ c, c ∉ addrs (Br a l x n r) ++ addrs t2 → m' !! c = m !! c)
        ∧ dom m' = dom m
  | Throw e =>
      (do nh <- load a;
       do r' <- merge fuel (right nh) (Some b2);
       set_right a r';;
       do nh <- load a;
       do nl <- getNPL (left nh);
       do nr <- getNPL (right nh);
       (if (nl <? nr)%Z then swap_children a else ret tt);;
       updateNPL (Some a);;
       ret (Some a)) (mkState m o) = (Throw e, mkState m o)
  | Timeout =>
      (do nh <- load a;
       do r' <- merge fuel (right nh) (Some b2);
       set_right a r';;
       do nh <- load a;
       do nl <- getNPL (left nh);
       do nr <- getNPL (right nh);
       (if (nl <? nr)%Z then swap_children a else ret tt);;
       updateNPL (Some a);;
       ret (Some a)) (mkState m o) = (Timeout, mkState m o)
  | Fault => False
  end.
Proof.
  unfold merge_post. intros Hrec (Ha & Hl & Hr) H2 Hnd Hb2. simpl in Hnd.
  apply NoDup_cons in Hnd as [Ha_notin Hnd].
  rewrite <-(assoc (++)) in Hnd. apply NoDup_app in Hnd as (Hndl & Hdisj & Hnd).
  rewrite !not_elem_of_app in Ha_notin. destruct Ha_notin as [[Hal Har] Ha2].
  rewrite (bind_Done _ _ _ _ _ (run_load _ _ _ _ Ha)). simpl.
  rewrite <-Hb2.
  destruct (tmerge fuel r t2) as [tr|e| |] eqn:Hpure; [| | done |].
  - destruct Hrec as (m1 & Hrun & Hrepr & Hframe & Hdom).
    rewrite (bind_Done _ _ _ _ _ Hrun).
    apply tmerge_addrs in Hpure.
    destruct (run_merge_tail m1 o a x (ptr r) n l tr) as (m' & Hrun' & ? & Hfr' & ?).
    + rewrite Hframe; [done|]. rewrite not_elem_of_app. done.
    + eapply repr_agree; [|done]. intros c Hc. apply Hframe.
      intros Hc'. by eapply Hdisj.
    + done.
    + done.
    + rewrite Hpure, not_elem_of_app. done.
    + exists m'. rewrite ptr_join. split_and!; [done|done| |congruence].
      intros c Hc. simpl in Hc. rewrite not_elem_of_cons in Hc.
      destruct Hc as [Hca Hc]. rewrite Hfr' by done. apply Hframe.
      rewrite !not_elem_of_app in Hc. rewrite not_elem_of_app. tauto.
  - by rewrite (bind_Throw _ _ _ _ _ Hrec).
  - by rewrite (bind_Timeout _ _ _ _ Hrec).
Qed.

Lemma merge_refines fuel t1 t2 m o :
  repr m t1 → repr m t2 → NoDup (addrs t1 ++ addrs t2) →
  merge_post fuel t1 t2 m o.
Proof.
  revert t1 t2 m. induction fuel as [|fuel IH]; intros t1 t2 m H1 H2 Hnd.
  { done. }
  unfold merge_post. simpl.
  destruct t1 as [|a1 l1 x1 n1 r1].
  { exists m. by destruct t2. }
  destruct t2 as [|a2 l2 x2 n2 r2].
  { by exists m. }
  assert (Hnd' : NoDup (addrs (Br a2 l2 x2 n2 r2) ++ addrs (Br a1 l1 x1 n1 r1))).
  { by rewrite (comm (++)). }
  pose proof H1 as (Ha1 & Hl1 & Hr1). pose proof H2 as (Ha2 & Hl2 & Hr2).
  cbn [ptr].
  rewrite (bind_Done _ _ _ _ _ (run_load _ _ _ _ Ha1)).
  rewrite (bind_Done _ _ _ _ _ (run_load _ _ _ _ Ha2)).
  unfold call_comp. cbn [data].
  destruct (comp x1 x2) as [[]|]; [| |done].
  - rewrite bind_ret. cbv zeta.
    pose proof (merge_refines_step fuel a2 l2 x2 n2 r2 (Br a1 l1 x1 n1 r1)
      m o a1) as Hstep.
    destruct (tmerge fuel r2 _) as [tr|e| |] eqn:Hpure.
    + destruct Hstep as (m' & ? & ? & Hfr & ?); try done.
      { unfold merge_post. rewrite Hpure. 
        specialize (IH r2 (Br a1 l1 x1 n1 r1) m). unfold merge_post in IH.
        rewrite Hpure in IH. apply IH; [done..|].
        simpl in Hnd'. apply NoDup_cons in Hnd' as [_ Hnd'].
        rewrite <-(assoc (++)) in Hnd'. by apply NoDup_app in Hnd' as (_ & _ & ?). }
      exists m'. split_and!; [done..| |done].
      intros c Hc. apply Hfr. rewrite not_elem_of_app in Hc.
      rewrite not_elem_of_app. tauto.
    + apply Hstep; try done. unfold merge_post. rewrite Hpure.
      specialize (IH r2 (Br a1 l1 x1 n1 r1) m). unfold merge_post in IH.
      rewrite Hpure in IH. apply IH; [done..|].
      simpl in Hnd'. apply NoDup_cons in Hnd' as [_ Hnd'].
      rewrite <-(assoc (++)) in Hnd'. by apply NoDup_app in Hnd' as (_ & _ & ?).
    + by apply tmerge_no_fault in Hpure.
    + apply Hstep; try done. unfold merge_post. rewrite Hpure.
      specialize (IH r2 (Br a1 l1 x1 n1 r1) m). unfold merge_post in IH.
      rewrite Hpure in IH. apply IH; [done..|].
      simpl in Hnd'. apply NoDup_cons in Hnd' as [_ Hnd'].
      rewrite <-(assoc (++)) in Hnd'. by apply NoDup_app in Hnd' as (_ & _ & ?).
  - rewrite bind_ret. cbv zeta.
    apply (merge_refines_step fuel a1 l1 x1 n1 r1 (Br a2 l2 x2 n2 r2)
      m o a2); try done.
    apply IH; [done..|].
    simpl in Hnd. apply NoDup_cons in Hnd as [_ Hnd].
    rewrite <-(assoc (++)) in Hnd. by apply NoDup_app in Hnd as (_ & _ & ?).
Qed.

(** ** Fuel independence

    [tmerge'] is [tmerge] with just enough fuel; any larger budget computes
    the same tree. *)

Lemma tmerge_fuel fuel fuel' t1 t2 :
  tsize t1 + tsize t2 < fuel → tsize t1 + tsize t2 < fuel' →
  tmerge fuel t1 t2 = tmerge fuel' t1 t2.
Proof.
  revert fuel' t1 t2. induction fuel as [|fuel IH]; intros fuel' t1 t2; [lia|].
  destruct fuel' as [|fuel']; [lia|]. simpl.
  destruct t1 as [|a1 l1 x1 n1 r1]; [done|].
  destruct t2 as [|a2 l2 x2 n2 r2]; [done|].
  simpl. intros Hf Hf'.
  destruct (comp x1 x2) as [[]|]; [| |done].
  - rewrite (IH fuel' r2 (Br a1 l1 x1 n1 r1)); simpl; [done|lia..].
  - rewrite (IH fuel' r1 (Br a2 l2 x2 n2 r2)); simpl; [done|lia..].
Qed.

Lemma tmerge_tmerge' fuel t1 t2 :
  tsize t1 + tsize t2 < fuel → tmerge fuel t1 t2 = tmerge' t1 t2.
Proof. intros. apply tmerge_fuel; lia. Qed.

Lemma tmerge'_no_timeout t1 t2 : tmerge' t1 t2 ≠ Timeout.
Proof. apply tmerge_no_timeout. lia. Qed.

Lemma tmerge'_no_fault t1 t2 : tmerge' t1 t2 ≠ Fault.
Proof. apply tmerge_no_fault. Qed.

Lemma tmerge'_Leaf_l t : tmerge' Leaf t = Done t.
Proof. done. Qed.

Lemma tmerge'_Leaf_r t : tmerge' t Leaf = Done t.
Proof. by destruct t. Qed.

(** ** Size arithmetic and queue objects *)

Lemma wrap_wrap_add a b : wrap (wrap a + b) = wrap (a + b).
Proof. unfold wrap. by rewrite Zplus_mod_idemp_l. Qed.

Lemma wrap_add_wrap a b : wrap (a + wrap b) = wrap (a + b).
Proof. unfold wrap. by rewrite Zplus_mod_idemp_r. Qed.

Lemma wrap_wrap_sub a b : wrap (wrap a - b) = wrap (a - b).
Proof. unfold wrap. by rewrite Zminus_mod_idemp_l. Qed.

Lemma wrap_small z : (0 ≤ z < size_modulus)%Z → wrap z = z.
Proof. intros. unfold wrap. by apply Z.mod_small. Qed.

Lemma wrap_0 : wrap 0 = 0%Z.
Proof. done. Qed.

Lemma run_get_obj m o q pq :
  o !! q = Some pq → get_obj q (mkState m o) = (Done pq, mkState m o).
Proof. unfold get_obj. simpl. by intros ->. Qed.

Lemma run_put_obj m o q pq0 pq :
  o !! q = Some pq0 →
  put_obj q pq (mkState m o) = (Done tt, mkState m (<[q := pq]> o)).
Proof. unfold put_obj. simpl. by intros ->. Qed.

Lemma run_get_root m o q pq :
  o !! q = Some pq → get_root q (mkState m o) = (Done (root pq), mkState m o).
Proof.
  intros Hq. unfold get_root.
  by rewrite (bind_Done _ _ _ _ _ (run_get_obj _ _ _ _ Hq)).
Qed.

Lemma run_get_sz m o q pq :
  o !! q = Some pq → get_sz q (mkState m o) = (Done (sz pq), mkState m o).
Proof.
  intros Hq. unfold get_sz.
  by rewrite (bind_Done _ _ _ _ _ (run_get_obj _ _ _ _ Hq)).
Qed.

Lemma run_set_root m o q pq r :
  o !! q = Some pq →
  set_root q r (mkState m o) = (Done tt, mkState m (<[q := mkPQ r (sz pq)]> o)).
Proof.
  intros Hq. unfold set_root.
  rewrite (bind_Done _ _ _ _ _ (run_get_obj _ _ _ _ Hq)). by eapply run_put_obj.
Qed.

Lemma run_set_sz m o q pq s :
  o !! q = Some pq →
  set_sz q s (mkState m o) = (Done tt, mkState m (<[q := mkPQ (root pq) s]> o)).
Proof.
  intros Hq. unfold set_sz.
  rewrite (bind_Done _ _ _ _ _ (run_get_obj _ _ _ _ Hq)). by eapply run_put_obj.
Qed.

Lemma run_empty m o q pq :
  o !! q = Some pq →
  empty q (mkState m o) = (Done (sz pq =? 0)%Z, mkState m o).
Proof.
  intros Hq. unfold empty.
  by rewrite (bind_Done _ _ _ _ _ (run_get_sz _ _ _ _ Hq)).
Qed.

Lemma run_budget {B} m o (k : nat → M B) :
  bind budget k (mkState m o) = k (S (base.size m)) (mkState m o).
Proof. done. Qed.

Lemma try_catch_Done {A} (m : M A) h st a st1 :
  m st = (Done a, st1) → try_catch m h st = (Done a, st1).
Proof. unfold try_catch. by intros ->. Qed.

Lemma try_catch_Throw {A} (m : M A) h st e st1 :
  m st = (Throw e, st1) → try_catch m h st = h e st1.
Proof. unfold try_catch. by intros ->. Qed.

(** ** Specifications of the public operations on ghost trees *)

Lemma owns_fresh st q t : owns st q t → fresh (dom (mem st)) ∉ addrs t.
Proof.
  intros (_ & Hr & _) Hin. apply (is_fresh (dom (mem st))).
  by eapply repr_dom.
Qed.

Lemma push_spec st q t e :
  owns st q t →
  let a := fresh (dom (mem st)) in
  match tmerge' t (leaf a e) with
  | Done t' =>
      ∃ m', push q e st = (Done tt, mkState m' (<[q := obj_of t']> (objs st)))
        ∧ repr m' t' ∧ NoDup (addrs t')
        ∧ (∀ b, b ∉ a :: addrs t → m' !! b = mem st !! b)
        ∧ dom m' = {[a]} ∪ dom (mem st)
  | Throw ex => push q e st = (Throw ex, st)
  | _ => False
  end.
Proof.
  intros Hown a. pose proof (owns_fresh _ _ _ Hown) as Ha_t.
  destruct Hown as (Hq & Hrepr & Hnd). destruct st as [m o]. simpl in *.
  fold a in Ha_t.
  assert (Ha : m !! a = None).
  { apply not_elem_of_dom. apply is_fresh. }
  set (m1 := <[a := mkNode e None None 1%Z]> m).
  assert (Hrepr1 : repr m1 t) by by apply repr_insert.
  assert (Hleaf : repr m1 (leaf a e)).
  { simpl. unfold m1. by rewrite lookup_insert_eq. }
  assert (Hnd1 : NoDup (addrs t ++ addrs (leaf a e))).
  { simpl. apply NoDup_app. split_and!; [done| |apply NoDup_singleton].
    intros b Hb ->%list_elem_of_singleton. done. }
  pose proof (merge_refines (S (base.size m1)) t (leaf a e) m1 o Hrepr1 Hleaf Hnd1)
    as Hm.
  unfold merge_post in Hm. rewrite tmerge_tmerge' in Hm.
  2:{ simpl. subst m1. rewrite map_size_insert_None by done.
      pose proof (repr_size _ _ Hrepr Hnd). lia. }
  unfold push.
  rewrite (bind_Done _ _ _ a (mkState m1 o)) by done.
  destruct (tmerge' t (leaf a e)) as [t'|ex| |] eqn:Hpure; [| |done|].
  - destruct Hm as (m' & Hrun & Hrepr' & Hframe & Hdom).
    exists m'. split_and!.
    + apply try_catch_Done. rewrite run_budget.
      rewrite (bind_Done _ _ _ _ _ (run_get_root _ _ _ _ Hq)).
      cbn [root]. change (Some a) with (ptr (leaf a e)).
      rewrite (bind_Done _ _ _ _ _ Hrun).
      rewrite (bind_Done _ _ _ _ _ (run_set_root _ _ _ _ _ Hq)).
      rewrite (bind_Done _ _ _ _ _ (run_get_sz _ _ _ _ (lookup_insert_eq _ _ _))).
      rewrite (run_set_sz _ _ _ _ _ (lookup_insert_eq _ _ _)).
      rewrite insert_insert_eq. cbn [root sz]. unfold obj_of.
      rewrite wrap_wrap_add. apply tmerge_size in Hpure. rewrite Hpure.
      simpl. do 4 f_equal. f_equal. lia.
    + done.
    + apply tmerge_addrs in Hpure. by rewrite Hpure.
    + intros b Hb. rewrite not_elem_of_cons in Hb. destruct Hb as [Hba Hb].
      rewrite Hframe.
      * subst m1. by rewrite lookup_insert_ne.
      * simpl. rewrite not_elem_of_app, list_elem_of_singleton. done.
    + rewrite Hdom. subst m1. by rewrite dom_insert_L.
  - erewrite try_catch_Throw.
    2:{ rewrite run_budget.
        rewrite (bind_Done _ _ _ _ _ (run_get_root _ _ _ _ Hq)).
        cbn [root]. change (Some a) with (ptr (leaf a e)).
        by rewrite (bind_Throw _ _ _ _ _ Hm). }
    subst m1. rewrite (bind_Done _ _ _ _ _
      (run_delete_node _ _ _ _ (lookup_insert_eq _ _ _))).
    by rewrite delete_insert_id.
  - by apply tmerge'_no_timeout in Hpure.
Qed.

Lemma wrap_tsize_nonzero t :
  wrap (Z.of_nat (tsize t)) ≠ 0%Z → ∃ a l x n r, t = Br a l x n r.
Proof. destruct t; [done|eauto 6]. Qed.

Lemma top_spec st q t :
  owns st q t →
  top q st =
    (match t with
     | Leaf => Throw container_is_empty
     | Br _ _ x _ _ =>
         if (wrap (Z.of_nat (tsize t)) =? 0)%Z
         then Throw container_is_empty else Done x
     end, st).
Proof.
  intros (Hq & Hrepr & Hnd). destruct st as [m o]. simpl in *.
  unfold top. rewrite (bind_Done _ _ _ _ _ (run_empty _ _ _ _ Hq)). cbn [sz].
  destruct t as [|a l x n r]; [done|].
  destruct (wrap _ =? 0)%Z; [done|].
  rewrite (bind_Done _ _ _ _ _ (run_get_root _ _ _ _ Hq)). cbn [root ptr].
  destruct Hrepr as (Ha & _).
  by rewrite (bind_Done _ _ _ _ _ (run_load _ _ _ _ Ha)).
Qed.

Lemma pop_spec st q t :
  owns st q t →
  match t with
  | Leaf => pop q st = (Throw container_is_empty, st)
  | Br a l x n r =>
      if (wrap (Z.of_nat (tsize t)) =? 0)%Z
      then pop q st = (Throw container_is_empty, st)
      else
        match tmerge' l r with
        | Done t' =>
            ∃ m', pop q st = (Done tt, mkState m' (<[q := obj_of t']> (objs st)))
              ∧ repr m' t' ∧ NoDup (addrs t')
              ∧ (∀ b, b ∉ addrs t → m' !! b = mem st !! b)
              ∧ dom m' = dom (mem st) ∖ {[a]}
        | Throw ex => pop q st = (Throw ex, st)
        | _ => False
        end
  end.
Proof.
  intros (Hq & Hrepr & Hnd). destruct st as [m o]. simpl in *.
  unfold pop. rewrite (bind_Done _ _ _ _ _ (run_empty _ _ _ _ Hq)). cbn [sz].
  destruct t as [|a l x n r]; [done|].
  destruct (wrap _ =? 0)%Z; [done|].
  rewrite (bind_Done _ _ _ _ _ (run_get_root _ _ _ _ Hq)). cbn [root ptr].
  pose proof (repr_size _ _ Hrepr Hnd) as Hsz. simpl in Hsz.
  destruct Hrepr as (Ha & Hl & Hr).
  rewrite (bind_Done _ _ _ _ _ (run_load _ _ _ _ Ha)). rewrite run_budget.
  cbn [left right].
  simpl in Hnd. apply NoDup_cons in Hnd as [Ha_notin Hnd].
  rewrite not_elem_of_app in Ha_notin. destruct Ha_notin as [Hal Har].
  pose proof (merge_refines (S (base.size m)) l r m o Hl Hr Hnd) as Hm.
  unfold merge_post in Hm. rewrite tmerge_tmerge' in Hm.
  2:{ lia. }
  destruct (tmerge' l r) as [t'|ex| |] eqn:Hpure; [| |done|].
  - destruct Hm as (m' & Hrun & Hrepr' & Hframe & Hdom).
    pose proof (tmerge_addrs _ _ _ _ Hpure) as Hperm.
    assert (Ha_t' : a ∉ addrs t').
    { rewrite Hperm, not_elem_of_app. done. }
    assert (Ha' : m' !! a = Some (mkNode x (ptr l) (ptr r) n)).
    { rewrite Hframe; [done|]. rewrite not_elem_of_app. done. }
    exists (delete a m'). split_and!.
    + rewrite (bind_Done _ _ _ _ _ Hrun).
      rewrite (bind_Done _ _ _ _ _ (run_set_root _ _ _ _ _ Hq)).
      rewrite (bind_Done _ _ _ _ _ (run_delete_node _ _ _ _ Ha')).
      rewrite (bind_Done _ _ _ _ _ (run_get_sz _ _ _ _ (lookup_insert_eq _ _ _))).
      rewrite (run_set_sz _ _ _ _ _ (lookup_insert_eq _ _ _)).
      rewrite insert_insert_eq. cbn [root sz]. unfold obj_of.
      rewrite wrap_wrap_sub. apply tmerge_size in Hpure. rewrite Hpure.
      simpl. do 4 f_equal. f_equal. lia.
    + by apply repr_delete.
    + by rewrite Hperm.
    + intros b Hb. simpl in Hb. rewrite not_elem_of_cons in Hb.
      destruct Hb as [Hba Hb]. rewrite lookup_delete_ne by done.
      by apply Hframe.
    + by rewrite dom_delete_L, Hdom.
  - by rewrite (bind_Throw _ _ _ _ _ Hm).
  - by apply tmerge'_no_timeout in Hpure.
Qed.

Lemma merge_pq_spec st q1 q2 t1 t2 :
  owns st q1 t1 → owns st q2 t2 → q1 ≠ q2 →
  NoDup (addrs t1 ++ addrs t2) →
  match tmerge' t1 t2 with
  | Done t' =>
      ∃ m', merge_pq q1 q2 st
            = (Done tt,
               mkState m' (<[q2 := obj_of Leaf]> (<[q1 := obj_of t']> (objs st))))
        ∧ repr m' t' ∧ NoDup (addrs t')
        ∧ (∀ b, b ∉ addrs t1 ++ addrs t2 → m' !! b = mem st !! b)
        ∧ dom m' = dom (mem st)
  | Throw ex => merge_pq q1 q2 st = (Throw ex, st)
  | _ => False
  end.
Proof.
  intros (Hq1 & Hrepr1 & Hnd1) (Hq2 & Hrepr2 & Hnd2) Hne Hnd.
  destruct st as [m o]. simpl in *.
  unfold merge_pq. rewrite decide_False by done.
  pose proof (merge_refines (S (base.size m)) t1 t2 m o Hrepr1 Hrepr2 Hnd) as Hm.
  unfold merge_post in Hm. rewrite tmerge_tmerge' in Hm.
  2:{ pose proof (repr_size2 _ _ _ Hrepr1 Hrepr2 Hnd). lia. }
  destruct (tmerge' t1 t2) as [t'|ex| |] eqn:Hpure; [| |done|].
  - destruct Hm as (m' & Hrun & Hrepr' & Hframe & Hdom).
    exists m'. split_and!; [|done| |done..].
    + apply try_catch_Done. rewrite run_budget.
      rewrite (bind_Done _ _ _ _ _ (run_get_root _ _ _ _ Hq1)).
      rewrite (bind_Done _ _ _ _ _ (run_get_root _ _ _ _ Hq2)).
      cbn [root]. rewrite (bind_Done _ _ _ _ _ Hrun).
      rewrite (bind_Done _ _ _ _ _ (run_set_root _ _ _ _ _ Hq1)).
      rewrite (bind_Done _ _ _ _ _ (run_get_sz _ _ _ _ (lookup_insert_eq _ _ _))).
      assert (Hq2' : ∀ v, <[q1 := v]> o !! q2
        = Some (mkPQ (ptr t2) (wrap (Z.of_nat (tsize t2))))).
      { intros v. by rewrite lookup_insert_ne. }
      rewrite (bind_Done _ _ _ _ _ (run_get_sz _ _ _ _ (Hq2' _))).
      rewrite (bind_Done _ _ _ _ _ (run_set_sz _ _ _ _ _ (lookup_insert_eq _ _ _))).
      rewrite insert_insert_eq.
      rewrite (bind_Done _ _ _ _ _ (run_set_root _ _ _ _ _ (Hq2' _))).
      rewrite (run_set_sz _ _ _ _ _ (lookup_insert_eq _ _ _)).
      rewrite insert_insert_eq. cbn [root sz]. unfold obj_of.
      rewrite wrap_wrap_add, wrap_add_wrap.
      apply tmerge_size in Hpure. rewrite Hpure.
      by rewrite Nat2Z.inj_add.
    + apply tmerge_addrs in Hpure. by rewrite Hpure.
  - erewrite try_catch_Throw; [done|]. rewrite run_budget.
    rewrite (bind_Done _ _ _ _ _ (run_get_root _ _ _ _ Hq1)).
    rewrite (bind_Done _ _ _ _ _ (run_get_root _ _ _ _ Hq2)).
    cbn [root]. by rewrite (bind_Throw _ _ _ _ _ Hm).
  - by apply tmerge'_no_timeout in Hpure.
Qed.

(** ** [clear] and [copy] on ghost trees *)

Lemma repr_mono m m' t : m ⊆ m' → repr m t → repr m' t.
Proof.
  intros Hsub. induction t as [|a l IHl x n r IHr]; simpl; [done|].
  intros (Ha & Hl & Hr). split_and!; [|by apply IHl|by apply IHr].
  by eapply lookup_weaken.
Qed.

Lemma clear_spec fuel t m o :
  repr m t → NoDup (addrs t) → tsize t < fuel →
  ∃ m', clear fuel (ptr t) (mkState m o) = (Done tt, mkState m' o)
    ∧ (∀ a, a ∈ addrs t → m' !! a = None)
    ∧ (∀ a, a ∉ addrs t → m' !! a = m !! a).
Proof.
  revert t m. induction fuel as [|fuel IH]; intros t m Hrepr Hnd Hfuel; [lia|].
  destruct t as [|a l x n r]; simpl.
  { exists m. split_and!; [done| |done]. intros a Ha. by apply elem_of_nil in Ha. }
  destruct Hrepr as (Ha & Hl & Hr). simpl in Hnd, Hfuel.
  apply NoDup_cons in Hnd as [Ha_notin Hnd].
  apply NoDup_app in Hnd as (Hndl & Hdisj & Hndr).
  rewrite not_elem_of_app in Ha_notin. destruct Ha_notin as [Hal Har].
  rewrite (bind_Done _ _ _ _ _ (run_load _ _ _ _ Ha)). cbn [left].
  destruct (IH l m Hl Hndl) as (m1 & Hrun1 & Hgone1 & Hkeep1); [lia|].
  rewrite (bind_Done _ _ _ _ _ Hrun1).
  assert (Ha1 : m1 !! a = Some (mkNode x (ptr l) (ptr r) n)).
  { by rewrite Hkeep1. }
  rewrite (bind_Done _ _ _ _ _ (run_load _ _ _ _ Ha1)). cbn [right].
  assert (Hr1 : repr m1 r).
  { eapply repr_agree; [|done]. intros b Hb. apply Hkeep1.
    intros Hb'. by eapply Hdisj. }
  destruct (IH r m1 Hr1 Hndr) as (m2 & Hrun2 & Hgone2 & Hkeep2); [lia|].
  rewrite (bind_Done _ _ _ _ _ Hrun2).
  assert (Ha2 : m2 !! a = Some (mkNode x (ptr l) (ptr r) n)).
  { by rewrite Hkeep2. }
  exists (delete a m2). split_and!.
  - by eapply run_delete_node.
  - intros b. rewrite elem_of_cons, elem_of_app. intros [->|[Hb|Hb]].
    + apply lookup_delete_eq.
    + rewrite lookup_delete_ne by (by intros ->).
      rewrite Hkeep2; [by apply Hgone1|]. intros Hb'. by eapply Hdisj.
    + rewrite lookup_delete_ne by (by intros ->). by apply Hgone2.
  - intros b. rewrite not_elem_of_cons, not_elem_of_app. intros (Hba & Hbl & Hbr).
    rewrite lookup_delete_ne by done. rewrite Hkeep2 by done. by apply Hkeep1.
Qed.

Lemma copy_spec fuel t m o :
  repr m t → tsize t < fuel →
  ∃ tc m', copy fuel (ptr t) (mkState m o) = (Done (ptr tc), mkState m' o)
    ∧ repr m' tc
    ∧ NoDup (addrs tc)
    ∧ erase tc = erase t
    ∧ (∀ a, a ∈ addrs tc → a ∉ dom m)
    ∧ m ⊆ m'
    ∧ dom m' = dom m ∪ list_to_set (addrs tc).
Proof.
  revert t m. induction fuel as [|fuel IH]; intros t m Hrepr Hfuel; [lia|].
  destruct t as [|a l x n r]; simpl.
  { exists Leaf, m. split_and!; try done.
    - apply NoDup_nil_2.
    - intros a Ha. by apply elem_of_nil in Ha.
    - simpl. set_solver. }
  destruct Hrepr as (Ha & Hl & Hr). simpl in Hfuel.
  rewrite (bind_Done _ _ _ _ _ (run_load _ _ _ _ Ha)). cbn [data].
  set (a' := fresh (dom m)).
  assert (Ha' : m !! a' = None) by (apply not_elem_of_dom, is_fresh).
  set (m1 := <[a' := mkNode x None None 1%Z]> m).
  rewrite (bind_Done _ _ _ a' (mkState m1 o)) by done.
  assert (Hsub1 : m ⊆ m1) by by apply insert_subseteq.
  assert (Ha1 : m1 !! a = Some (mkNode x (ptr l) (ptr r) n))
    by exact (lookup_weaken _ _ _ _ Ha Hsub1).
  rewrite (bind_Done _ _ _ _ _ (run_load _ _ _ _ Ha1)). cbn [left].
  destruct (IH l m1) as (tl & m2 & Hrun2 & Hrepr2 & Hnd2 & Her2 & Hfresh2 & Hsub2 & Hdom2);
    [by eapply repr_mono|lia|].
  rewrite (bind_Done _ _ _ _ _ Hrun2).
  assert (Ha'2 : m2 !! a' = Some (mkNode x None None 1%Z)).
  { eapply lookup_weaken; [|done]. apply lookup_insert_eq. }
  rewrite (bind_Done _ _ _ _ _ (run_set_left _ _ _ _ _ Ha'2)). cbn [data right npl].
  set (m3 := <[a' := mkNode x (ptr tl) None 1%Z]> m2).
  assert (Hsub3 : m ⊆ m3).
  { apply insert_subseteq_r; [done|]. by etrans. }
  assert (Ha3 : m3 !! a = Some (mkNode x (ptr l) (ptr r) n))
    by exact (lookup_weaken _ _ _ _ Ha Hsub3).
  rewrite (bind_Done _ _ _ _ _ (run_load _ _ _ _ Ha3)). cbn [right].
  destruct (IH r m3) as (tr & m4 & Hrun4 & Hrepr4 & Hnd4 & Her4 & Hfresh4 & Hsub4 & Hdom4);
    [by eapply repr_mono|lia|].
  rewrite (bind_Done _ _ _ _ _ Hrun4).
  assert (Ha'4 : m4 !! a' = Some (mkNode x (ptr tl) None 1%Z)).
  { eapply lookup_weaken; [|done]. apply lookup_insert_eq. }
  rewrite (bind_Done _ _ _ _ _ (run_set_right _ _ _ _ _ Ha'4)). cbn [data left npl].
  set (m5 := <[a' := mkNode x (ptr tl) (ptr tr) 1%Z]> m4).
  assert (Ha5 : m5 !! a = Some (mkNode x (ptr l) (ptr r) n)).
  { apply (lookup_weaken _ _ _ _ Ha). apply insert_subseteq_r; [done|].
    by etrans. }
  rewrite (bind_Done _ _ _ _ _ (run_load _ _ _ _ Ha5)). cbn [npl].
  unfold m5 at 1.
  rewrite (bind_Done _ _ _ _ _ (run_set_npl _ _ _ _ _ (lookup_insert_eq _ _ _))).
  cbn [data left right]. rewrite insert_insert_eq. clear m5 Ha5.
  assert (Ha'_dom1 : a' ∈ dom m1) by (unfold m1; set_solver).
  assert (Ha'_dom3 : a' ∈ dom m3) by (unfold m3; set_solver).
  assert (Ha'_tl : a' ∉ addrs tl) by (intros ?; by eapply Hfresh2).
  assert (Ha'_tr : a' ∉ addrs tr) by (intros ?; by eapply Hfresh4).
  assert (Hdom3 : dom m3 = dom m2).
  { unfold m3. by apply dom_insert_lookup_L. }
  exists (Br a' tl x n tr), (<[a' := mkNode x (ptr tl) (ptr tr) n]> m4).
  split_and!.
  - done.
  - simpl. split_and!.
    + apply lookup_insert_eq.
    + apply repr_insert; [done|]. eapply repr_mono; [done|].
      by apply repr_insert.
    + by apply repr_insert.
  - simpl. apply NoDup_cons. split.
    + rewrite not_elem_of_app. done.
    + apply NoDup_app. split_and!; [done| |done].
      intros b Hbl Hbr. apply (Hfresh4 b Hbr). rewrite Hdom3, Hdom2.
      set_solver.
  - simpl. by rewrite Her2, Her4.
  - intros b. simpl. rewrite elem_of_cons, elem_of_app. intros [->|[Hb|Hb]].
    + apply is_fresh.
    + intros Hbm. apply (Hfresh2 b Hb). unfold m1. set_solver.
    + intros Hbm. apply (Hfresh4 b Hb). rewrite Hdom3, Hdom2. unfold m1.
      set_solver.
  - apply insert_subseteq_r; [done|]. by etrans.
  - rewrite dom_insert_L, Hdom4, Hdom3, Hdom2. unfold m1. simpl.
    rewrite dom_insert_L, list_to_set_app_L. set_solver.
Qed.

Lemma tsize_erase t : tsize (erase t) = tsize t.
Proof. induction t; simpl; lia. Qed.

Lemma erase_tsize t t' : erase t = erase t' → tsize t = tsize t'.
Proof. intros H. by rewrite <-(tsize_erase t), H, tsize_erase. Qed.

Lemma construct_spec st q :
  construct q st = (Done tt, mkState (mem st) (<[q := obj_of Leaf]> (objs st))).
Proof. done. Qed.

Lemma copy_construct_self st q :
  copy_construct q q st
  = (Done tt, mkState (mem st) (<[q := obj_of Leaf]> (objs st))).
Proof.
  destruct st as [m o]. unfold copy_construct.
  rewrite (bind_Done _ _ _ tt (mkState m (<[q := mkPQ None 0%Z]> o))) by done.
  rewrite run_budget.
  rewrite (bind_Done _ _ _ _ _ (run_get_root _ _ _ _ (lookup_insert_eq _ _ _))).
  cbn [root copy]. rewrite bind_ret.
  rewrite (bind_Done _ _ _ _ _ (run_set_root _ _ _ _ _ (lookup_insert_eq _ _ _))).
  rewrite (bind_Done _ _ _ _ _ (run_get_sz _ _ _ _ (lookup_insert_eq _ _ _))).
  rewrite (run_set_sz _ _ _ _ _ (lookup_insert_eq _ _ _)).
  by rewrite !insert_insert_eq.
Qed.

Lemma copy_construct_spec st c q t :
  owns st q t → c ≠ q →
  ∃ tc m',
    copy_construct c q st = (Done tt, mkState m' (<[c := obj_of tc]> (objs st)))
    ∧ repr m' tc
    ∧ NoDup (addrs tc)
    ∧ erase tc = erase t
    ∧ (∀ a, a ∈ addrs tc → a ∉ dom (mem st))
    ∧ mem st ⊆ m'
    ∧ dom m' = dom (mem st) ∪ list_to_set (addrs tc).
Proof.
  intros (Hq & Hrepr & Hnd) Hne. destruct st as [m o]. simpl in *.
  destruct (copy_spec (S (base.size m)) t m (<[c := mkPQ None 0%Z]> o) Hrepr)
    as (tc & m' & Hrun & Hrepr' & Hnd' & Her & Hfresh & Hsub & Hdom).
  { pose proof (repr_size _ _ Hrepr Hnd). lia. }
  exists tc, m'. split_and!; try done.
  unfold copy_construct.
  rewrite (bind_Done _ _ _ tt (mkState m (<[c := mkPQ None 0%Z]> o))) by done.
  rewrite run_budget.
  assert (Hq' : ∀ v, <[c := v]> o !! q
    = Some (mkPQ (ptr t) (wrap (Z.of_nat (tsize t))))).
  { intros v. by rewrite lookup_insert_ne. }
  rewrite (bind_Done _ _ _ _ _ (run_get_root _ _ _ _ (Hq' _))). cbn [root].
  rewrite (bind_Done _ _ _ _ _ Hrun).
  rewrite (bind_Done _ _ _ _ _ (run_set_root _ _ _ _ _ (lookup_insert_eq _ _ _))).
  rewrite insert_insert_eq.
  rewrite (bind_Done _ _ _ _ _ (run_get_sz _ _ _ _ (Hq' _))).
  rewrite (run_set_sz _ _ _ _ _ (lookup_insert_eq _ _ _)).
  rewrite insert_insert_eq. cbn [root sz]. unfold obj_of.
  by rewrite (erase_tsize _ _ Her).
Qed.

Lemma destroy_spec st q t :
  owns st q t →
  ∃ m', destroy q st = (Done tt, mkState m' (delete q (objs st)))
    ∧ (∀ a, a ∈ addrs t → m' !! a = None)
    ∧ (∀ a, a ∉ addrs t → m' !! a = mem st !! a).
Proof.
  intros (Hq & Hrepr & Hnd). destruct st as [m o]. simpl in *.
  destruct (clear_spec (S (base.size m)) t m o Hrepr Hnd)
    as (m' & Hrun & Hgone & Hkeep).
  { pose proof (repr_size _ _ Hrepr Hnd). lia. }
  exists m'. split_and!; [|done..].
  unfold destroy. rewrite run_budget.
  rewrite (bind_Done _ _ _ _ _ (run_get_root _ _ _ _ Hq)). cbn [root].
  by rewrite (bind_Done _ _ _ _ _ Hrun).
Qed.

Lemma assign_self st q : assign q q st = (Done tt, st).
Proof. unfold assign. by rewrite decide_False by (by intros ?). Qed.

Lemma assign_spec st q1 q2 t1 t2 :
  owns st q1 t1 → owns st q2 t2 → q1 ≠ q2 →
  (∀ a, a ∈ addrs t1 → a ∉ addrs t2) →
  ∃ tc m',
    assign q1 q2 st = (Done tt, mkState m' (<[q1 := obj_of tc]> (objs st)))
    ∧ repr m' tc
    ∧ NoDup (addrs tc)
    ∧ erase tc = erase t2
    ∧ (∀ a, a ∈ addrs tc → a ∈ dom (mem st) → a ∈ addrs t1)
    ∧ (∀ a, a ∉ addrs t1 → a ∉ addrs tc → m' !! a = mem st !! a).
Proof.
  intros (Hq1 & Hrepr1 & Hnd1) (Hq2 & Hrepr2 & Hnd2) Hne Hdisj.
  destruct st as [m o]. simpl in *.
  destruct (clear_spec (S (base.size m)) t1 m o Hrepr1 Hnd1)
    as (m1 & Hrun1 & Hgone & Hkeep).
  { pose proof (repr_size _ _ Hrepr1 Hnd1). lia. }
  assert (Hrepr2' : repr m1 t2).
  { eapply repr_agree; [|done]. intros a Ha. apply Hkeep.
    intros Ha'. by eapply Hdisj. }
  destruct (copy_spec (S (base.size m1)) t2 m1 o Hrepr2')
    as (tc & m' & Hrun & Hrepr' & Hnd' & Her & Hfresh & Hsub & Hdom).
  { pose proof (repr_size _ _ Hrepr2' Hnd2). lia. }
  exists tc, m'. split_and!; try done.
  - unfold assign. rewrite decide_True by done. rewrite run_budget.
    rewrite (bind_Done _ _ _ _ _ (run_get_root _ _ _ _ Hq1)). cbn [root].
    rewrite (bind_Done _ _ _ _ _ Hrun1). rewrite run_budget.
    rewrite (bind_Done _ _ _ _ _ (run_get_root _ _ _ _ Hq2)). cbn [root].
    rewrite (bind_Done _ _ _ _ _ Hrun).
    rewrite (bind_Done _ _ _ _ _ (run_set_root _ _ _ _ _ Hq1)).
    assert (Hq2' : ∀ v, <[q1 := v]> o !! q2
      = Some (mkPQ (ptr t2) (wrap (Z.of_nat (tsize t2))))).
    { intros v. by rewrite lookup_insert_ne. }
    rewrite (bind_Done _ _ _ _ _ (run_get_sz _ _ _ _ (Hq2' _))).
    rewrite (run_set_sz _ _ _ _ _ (lookup_insert_eq _ _ _)).
    rewrite insert_insert_eq. cbn [root sz]. unfold obj_of.
    by rewrite (erase_tsize _ _ Her).
  - intros a Ha Ham. destruct (decide (a ∈ addrs t1)) as [|Hnot]; [done|].
    exfalso. apply (Hfresh a Ha). apply elem_of_dom.
    rewrite Hkeep by done. by apply elem_of_dom.
  - intros a Ha1 Hac. rewrite <-Hkeep by done.
    destruct (m1 !! a) as [n|] eqn:Hm1.
    + by apply (lookup_weaken _ _ _ _ Hm1).
    + apply not_elem_of_dom. rewrite Hdom.
      apply not_elem_of_dom in Hm1. set_solver.
Qed.

(** ** The global invariant is kept by every operation *)

Lemma ginv_init P : ginv P init.
Proof.
  exists ∅. split_and!.
  - simpl. by rewrite !dom_empty_L.
  - intros q t Hq. by rewrite lookup_empty in Hq.
  - intros q1 q2 t1 t2 a Hq. by rewrite lookup_empty in Hq.
Qed.

(** Replacing the tree of [q] by [t'], when the store changed only inside
    the footprint [F] or at unallocated addresses and the other queues have
    no node in [F]. *)
Lemma ginv_update P (Γ : gmap positive tree) m o q t' m' (F : list positive) :
  dom Γ = dom o →
  (∀ q2 t2, Γ !! q2 = Some t2 → owns (mkState m o) q2 t2 ∧ P t2) →
  (∀ q1 q2 t1 t2 a, Γ !! q1 = Some t1 → Γ !! q2 = Some t2 →
     a ∈ addrs t1 → a ∈ addrs t2 → q1 = q2) →
  (∀ q2 t2 a, q2 ≠ q → Γ !! q2 = Some t2 → a ∈ addrs t2 → a ∉ F) →
  (∀ a, a ∈ dom m → a ∉ F → m' !! a = m !! a) →
  (∀ a, a ∈ addrs t' → a ∈ F ∨ a ∉ dom m) →
  repr m' t' → NoDup (addrs t') → P t' →
  let Γ' := <[q := t']> Γ in
  dom Γ' = dom (<[q := obj_of t']> o)
  ∧ (∀ q2 t2, Γ' !! q2 = Some t2 →
       owns (mkState m' (<[q := obj_of t']> o)) q2 t2 ∧ P t2)
  ∧ (∀ q1 q2 t1 t2 a, Γ' !! q1 = Some t1 → Γ' !! q2 = Some t2 →
       a ∈ addrs t1 → a ∈ addrs t2 → q1 = q2).
Proof.
  intros Hdom Hown Hsep HF Hframe Haddr Hrepr Hnd HP Γ'.
  assert (Hother : ∀ q2 t2 a, q2 ≠ q → Γ !! q2 = Some t2 → a ∈ addrs t2 →
    a ∈ dom m ∧ (a ∉ F) ∧ (a ∉ addrs t')).
  { intros q2 t2 a Hne Hq2 Ha.
    destruct (Hown _ _ Hq2) as [(_ & Hr2 & _) _]. simpl in Hr2.
    pose proof (repr_dom _ _ _ Hr2 Ha) as Hin.
    pose proof (HF _ _ _ Hne Hq2 Ha) as HnF.
    split_and!; [done..|]. intros Ha'. by destruct (Haddr _ Ha'). }
  split_and!.
  - subst Γ'. by rewrite !dom_insert_L, Hdom.
  - intros q2 t2. subst Γ'. destruct (decide (q2 = q)) as [->|Hne].
    + rewrite lookup_insert_eq. intros [= <-]. split; [|done].
      split_and!; simpl; [|done..]. by rewrite lookup_insert_eq.
    + rewrite lookup_insert_ne by done. intros Hq2.
      destruct (Hown _ _ Hq2) as [(Ho2 & Hr2 & Hnd2) HP2]. simpl in *.
      split; [|done]. split_and!; simpl; [|  |done].
      * by rewrite lookup_insert_ne.
      * eapply repr_agree; [|done]. intros a Ha.
        destruct (Hother _ _ _ Hne Hq2 Ha) as (? & ? & ?). by apply Hframe.
  - intros q1 q2 t1 t2 a. subst Γ'.
    destruct (decide (q1 = q)) as [->|Hne1];
      destruct (decide (q2 = q)) as [->|Hne2]; [done|..].
    + rewrite lookup_insert_eq, lookup_insert_ne by done.
      intros [= <-] Hq2 Ha1 Ha2.
      by destruct (Hother _ _ _ Hne2 Hq2 Ha2) as (? & ? & ?).
    + rewrite lookup_insert_eq, lookup_insert_ne by done.
      intros Hq1 [= <-] Ha1 Ha2.
      by destruct (Hother _ _ _ Hne1 Hq1 Ha1) as (? & ? & ?).
    + rewrite !lookup_insert_ne by done. apply Hsep.
Qed.

Lemma ginv_remove P (Γ : gmap positive tree) m o q t m' :
  dom Γ = dom o →
  (∀ q2 t2, Γ !! q2 = Some t2 → owns (mkState m o) q2 t2 ∧ P t2) →
  (∀ q1 q2 t1 t2 a, Γ !! q1 = Some t1 → Γ !! q2 = Some t2 →
     a ∈ addrs t1 → a ∈ addrs t2 → q1 = q2) →
  Γ !! q = Some t →
  (∀ a, a ∉ addrs t → m' !! a = m !! a) →
  ginv P (mkState m' (delete q o)).
Proof.
  intros Hdom Hown Hsep Hq Hframe. exists (delete q Γ). split_and!.
  - simpl. by rewrite !dom_delete_L, Hdom.
  - intros q2 t2. destruct (decide (q2 = q)) as [->|Hne].
    { by rewrite lookup_delete_eq. }
    rewrite lookup_delete_ne by done. intros Hq2.
    destruct (Hown _ _ Hq2) as [(Ho2 & Hr2 & Hnd2) HP2]. simpl in *.
    split; [|done]. split_and!; simpl; [| |done].
    + by rewrite lookup_delete_ne.
    + eapply repr_agree; [|done]. intros a Ha. apply Hframe.
      intros Ha'. apply Hne. by eapply Hsep.
  - intros q1 q2 t1 t2 a.
    destruct (decide (q1 = q)) as [->|Hne1]; [by rewrite lookup_delete_eq|].
    destruct (decide (q2 = q)) as [->|Hne2]; [by rewrite lookup_delete_eq|].
    rewrite !lookup_delete_ne by done. apply Hsep.
Qed.

(** Calls on an address that holds no queue object fault. *)

Lemma bind_Fault {A B} (m : M A) (k : A → M B) st st1 :
  m st = (Fault, st1) → bind m k st = (Fault, st1).
Proof. unfold bind. by intros ->. Qed.

Lemma run_get_root_None m o q :
  o !! q = None → get_root q (mkState m o) = (Fault, mkState m o).
Proof. intros Hq. unfold get_root, bind, get_obj. simpl. by rewrite Hq. Qed.

Lemma run_get_sz_None m o q :
  o !! q = None → get_sz q (mkState m o) = (Fault, mkState m o).
Proof. intros Hq. unfold get_sz, bind, get_obj. simpl. by rewrite Hq. Qed.

Lemma push_missing st q e : objs st !! q = None → (push q e st).1 = Fault.
Proof.
  intros Hq. destruct st as [m o]. simpl in *. unfold push.
  set (a := fresh (dom m)).
  rewrite (bind_Done _ _ _ a
    (mkState (<[a := mkNode e None None 1%Z]> m) o)) by done.
  unfold try_catch. rewrite run_budget.
  by rewrite (bind_Fault _ _ _ _ (run_get_root_None _ _ _ Hq)).
Qed.

Lemma pop_missing st q : objs st !! q = None → (pop q st).1 = Fault.
Proof.
  intros Hq. destruct st as [m o]. simpl in *. unfold pop, empty.
  by rewrite (bind_Fault _ _ _ _
    (bind_Fault _ _ _ _ (run_get_sz_None _ _ _ Hq))).
Qed.

Lemma destroy_missing st q : objs st !! q = None → (destroy q st).1 = Fault.
Proof.
  intros Hq. destruct st as [m o]. simpl in *. unfold destroy.
  rewrite run_budget.
  by rewrite (bind_Fault _ _ _ _ (run_get_root_None _ _ _ Hq)).
Qed.

Lemma merge_pq_missing_l st q1 q2 :
  q1 ≠ q2 → objs st !! q1 = None → (merge_pq q1 q2 st).1 = Fault.
Proof.
  intros Hne Hq. destruct st as [m o]. simpl in *. unfold merge_pq.
  rewrite decide_False by done. unfold try_catch. rewrite run_budget.
  by rewrite (bind_Fault _ _ _ _ (run_get_root_None _ _ _ Hq)).
Qed.

Lemma merge_pq_missing_r st q1 q2 pq :
  q1 ≠ q2 → objs st !! q1 = Some pq → objs st !! q2 = None →
  (merge_pq q1 q2 st).1 = Fault.
Proof.
  intros Hne Hq1 Hq. destruct st as [m o]. simpl in *. unfold merge_pq.
  rewrite decide_False by done. unfold try_catch. rewrite run_budget.
  rewrite (bind_Done _ _ _ _ _ (run_get_root _ _ _ _ Hq1)).
  by rewrite (bind_Fault _ _ _ _ (run_get_root_None _ _ _ Hq)).
Qed.

Lemma copy_construct_missing st c q :
  c ≠ q → objs st !! q = None → (copy_construct c q st).1 = Fault.
Proof.
  intros Hne Hq. destruct st as [m o]. simpl in *. unfold copy_construct.
  rewrite (bind_Done _ _ _ tt (mkState m (<[c := mkPQ None 0%Z]> o))) by done.
  rewrite run_budget.
  rewrite (bind_Fault _ _ _ (mkState m (<[c := mkPQ None 0%Z]> o))); [done|].
  apply run_get_root_None. by rewrite lookup_insert_ne.
Qed.

Lemma assign_missing_l st q1 q2 :
  q1 ≠ q2 → objs st !! q1 = None → (assign q1 q2 st).1 = Fault.
Proof.
  intros Hne Hq. destruct st as [m o]. simpl in *. unfold assign.
  rewrite decide_True by done. rewrite run_budget.
  by rewrite (bind_Fault _ _ _ _ (run_get_root_None _ _ _ Hq)).
Qed.

Lemma assign_missing_r st q1 q2 t1 :
  q1 ≠ q2 → owns st q1 t1 → objs st !! q2 = None →
  (assign q1 q2 st).1 = Fault.
Proof.
  intros Hne (Hq1 & Hrepr1 & Hnd1) Hq. destruct st as [m o]. simpl in *.
  destruct (clear_spec (S (base.size m)) t1 m o Hrepr1 Hnd1)
    as (m1 & Hrun1 & _).
  { pose proof (repr_size _ _ Hrepr1 Hnd1). lia. }
  unfold assign. rewrite decide_True by done. rewrite run_budget.
  rewrite (bind_Done _ _ _ _ _ (run_get_root _ _ _ _ Hq1)). cbn [root].
  rewrite (bind_Done _ _ _ _ _ Hrun1). rewrite run_budget.
  by rewrite (bind_Fault _ _ _ _ (run_get_root_None _ _ _ Hq)).
Qed.

Lemma readonly_top q : readonly (top q).
Proof.
  unfold top. apply readonly_bind; [auto with effects|intros []].
  { auto with effects. }
  apply readonly_bind; [auto with effects|intros [a|]];
    auto with effects.
Qed.

Lemma readonly_snd {A} (m : M A) st r st' :
  readonly m → m st = (r, st') → st' = st.
Proof. intros Hm Heq. specialize (Hm st). by rewrite Heq in Hm. Qed.

Lemma ginv_lookup_None st (Γ : gmap positive tree) q :
  dom Γ = dom (objs st) → Γ !! q = None → objs st !! q = None.
Proof.
  intros Hdom Hq. apply not_elem_of_dom. rewrite <-Hdom.
  by apply not_elem_of_dom.
Qed.

Ltac absurd_fault Hrun Hmiss :=
  exfalso; rewrite Hrun in Hmiss; simpl in Hmiss; subst; done.

Lemma step_ginv P st c res st' :
  tree_invariant P →
  ginv P st → run_op c st = (res, st') → completes res → ginv P st'.
Proof.
  intros HP (Γ & Hdom & Hown & Hsep) Hrun Hcomp.
  assert (Hnone : ∀ q, Γ !! q = None → objs st !! q = None).
  { intros q. by apply ginv_lookup_None. }
  assert (Hsame : ginv P st) by (exists Γ; done).
  destruct c as [q|q q'|q|q q'|q|q e|q|q|q|q q']; simpl in Hrun.
  - (* construct *)
    rewrite construct_spec in Hrun. injection Hrun as <- <-.
    destruct st as [m o]. simpl in *. exists (<[q := Leaf]> Γ).
    apply (ginv_update P Γ m o q Leaf m []); try done.
    + intros q2 t2 a _ _ _. apply not_elem_of_nil.
    + intros a Ha. by apply elem_of_nil in Ha.
    + apply NoDup_nil_2.
    + apply (inv_Leaf P HP).
  - (* copy construction *)
    destruct (decide (q = q')) as [<-|Hne].
    { rewrite copy_construct_self in Hrun. injection Hrun as <- <-.
      destruct st as [m o]. simpl in *. exists (<[q := Leaf]> Γ).
      apply (ginv_update P Γ m o q Leaf m []); try done.
      + intros q2 t2 a _ _ _. apply not_elem_of_nil.
      + intros a Ha. by apply elem_of_nil in Ha.
      + apply NoDup_nil_2.
      + apply (inv_Leaf P HP). }
    destruct (Γ !! q') as [t|] eqn:Hq'.
    2:{ pose proof (copy_construct_missing st q q' Hne (Hnone _ Hq')) as Hmiss.
        absurd_fault Hrun Hmiss. }
    destruct (Hown _ _ Hq') as [Ho HPt].
    destruct (copy_construct_spec st q q' t Ho Hne)
      as (tc & m' & Hrun' & Hrepr' & Hnd' & Her & Hfresh & Hsub & Hdom').
    rewrite Hrun' in Hrun. injection Hrun as <- <-.
    destruct st as [m o]. simpl in *. exists (<[q := tc]> Γ).
    apply (ginv_update P Γ m o q tc m' []); try done.
    + intros q2 t2 a _ _ _. apply not_elem_of_nil.
    + intros a Ha _. apply elem_of_dom in Ha as [n Hn].
      rewrite Hn. by apply (lookup_weaken _ _ _ _ Hn).
    + intros a Ha. right. by apply Hfresh.
    + by apply (inv_erase P HP t tc).
  - (* destruction *)
    destruct (Γ !! q) as [t|] eqn:Hq.
    2:{ pose proof (destroy_missing st q (Hnone _ Hq)) as Hmiss.
        absurd_fault Hrun Hmiss. }
    destruct (Hown _ _ Hq) as [Ho HPt].
    destruct (destroy_spec st q t Ho) as (m' & Hrun' & Hgone & Hkeep).
    rewrite Hrun' in Hrun. injection Hrun as <- <-.
    destruct st as [m o]. simpl in *.
    by apply (ginv_remove P Γ m o q t m').
  - (* assignment *)
    destruct (decide (q = q')) as [<-|Hne].
    { rewrite assign_self in Hrun. by injection Hrun as <- <-. }
    destruct (Γ !! q) as [t1|] eqn:Hq.
    2:{ pose proof (assign_missing_l st q q' Hne (Hnone _ Hq)) as Hmiss.
        absurd_fault Hrun Hmiss. }
    destruct (Hown _ _ Hq) as [Ho1 HP1].
    destruct (Γ !! q') as [t2|] eqn:Hq'.
    2:{ pose proof (assign_missing_r st q q' t1 Hne Ho1 (Hnone _ Hq')) as Hmiss.
        absurd_fault Hrun Hmiss. }
    destruct (Hown _ _ Hq') as [Ho2 HP2].
    destruct (assign_spec st q q' t1 t2 Ho1 Ho2 Hne)
      as (tc & m' & Hrun' & Hrepr' & Hnd' & Her & Hreuse & Hframe).
    { intros a Ha1 Ha2. apply Hne. by eapply Hsep. }
    rewrite Hrun' in Hrun. injection Hrun as <- <-.
    destruct st as [m o]. simpl in *. exists (<[q := tc]> Γ).
    apply (ginv_update P Γ m o q tc m' (addrs t1)); try done.
    + intros q2 t2' a Hne2 Hq2 Ha Ha1. apply Hne2. by eapply Hsep.
    + intros a Ham Ha1. apply Hframe; [done|].
      intros Hac. apply Ha1. by apply Hreuse.
    + intros a Ha. destruct (decide (a ∈ dom m)); [left|by right].
      by apply Hreuse.
    + by apply (inv_erase P HP t2 tc).
  - (* top *)
    assert (st' = st) as ->; [|done].
    eapply (readonly_snd (top q;; ret tt)); [|done].
    apply readonly_bind; [apply readonly_top|intros; apply readonly_ret].
  - (* push *)
    destruct (Γ !! q) as [t|] eqn:Hq.
    2:{ pose proof (push_missing st q e (Hnone _ Hq)) as Hmiss.
        absurd_fault Hrun Hmiss. }
    destruct (Hown _ _ Hq) as [Ho HPt].
    pose proof (push_spec st q t e Ho) as Hspec. simpl in Hspec.
    destruct (tmerge' t (leaf _ e)) as [t'|ex| |] eqn:Hpure; [| |done..].
    2:{ rewrite Hspec in Hrun. by injection Hrun as <- <-. }
    destruct Hspec as (m' & Hrun' & Hrepr' & Hnd' & Hframe & Hdom').
    rewrite Hrun' in Hrun. injection Hrun as <- <-.
    pose proof (tmerge_addrs _ _ _ _ Hpure) as Hperm.
    destruct st as [m o]. simpl in *. exists (<[q := t']> Γ).
    apply (ginv_update P Γ m o q t' m' (addrs t)); try done.
    + intros q2 t2' a Hne2 Hq2 Ha Ha1. apply Hne2. by eapply Hsep.
    + intros a Ham Ha1. apply Hframe. rewrite not_elem_of_cons. split; [|done].
      intros ->. by apply (is_fresh (dom m)).
    + intros a. rewrite Hperm, elem_of_app, list_elem_of_singleton.
      intros [?| ->]; [by left|right]. apply is_fresh.
    + exact (inv_merge P HP _ _ t' HPt (inv_leaf P HP _ _) Hpure).
  - (* pop *)
    destruct (Γ !! q) as [t|] eqn:Hq.
    2:{ pose proof (pop_missing st q (Hnone _ Hq)) as Hmiss.
        absurd_fault Hrun Hmiss. }
    destruct (Hown _ _ Hq) as [Ho HPt].
    pose proof (pop_spec st q t Ho) as Hspec.
    destruct t as [|a l x n r].
    { rewrite Hspec in Hrun. by injection Hrun as <- <-. }
    destruct (wrap _ =? 0)%Z.
    { rewrite Hspec in Hrun. by injection Hrun as <- <-. }
    destruct (tmerge' l r) as [t'|ex| |] eqn:Hpure; [| |done..].
    2:{ rewrite Hspec in Hrun. by injection Hrun as <- <-. }
    destruct Hspec as (m' & Hrun' & Hrepr' & Hnd' & Hframe & Hdom').
    rewrite Hrun' in Hrun. injection Hrun as <- <-.
    pose proof (tmerge_addrs _ _ _ _ Hpure) as Hperm.
    destruct st as [m o]. simpl in Hdom, Hown, Hframe, Hdom' |- *.
    exists (<[q := t']> Γ).
    apply (ginv_update P Γ m o q t' m' (addrs (Br a l x n r))); try done.
    + intros q2 t2' b Hne2 Hq2 Hb Hb1. apply Hne2. by eapply Hsep.
    + intros b Hbm Hb1. by apply Hframe.
    + intros b. rewrite Hperm. intros Hb. left. simpl. by right.
    + destruct (inv_children P HP _ _ _ _ _ HPt) as [HPl HPr].
      exact (inv_merge P HP l r t' HPl HPr Hpure).
  - (* size *)
    assert (st' = st) as ->; [|done].
    eapply (readonly_snd (size q;; ret tt)); [|done].
    apply readonly_bind; [apply readonly_get_sz|intros; apply readonly_ret].
  - (* empty *)
    assert (st' = st) as ->; [|done].
    eapply (readonly_snd (empty q;; ret tt)); [|done].
    apply readonly_bind; [apply readonly_empty|intros; apply readonly_ret].
  - (* merge *)
    destruct (decide (q = q')) as [<-|Hne].
    { unfold merge_pq in Hrun. rewrite decide_True in Hrun by done.
      by injection Hrun as <- <-. }
    destruct (Γ !! q) as [t1|] eqn:Hq.
    2:{ pose proof (merge_pq_missing_l st q q' Hne (Hnone _ Hq)) as Hmiss.
        absurd_fault Hrun Hmiss. }
    destruct (Hown _ _ Hq) as [Ho1 HP1].
    destruct (Γ !! q') as [t2|] eqn:Hq'.
    2:{ pose proof (merge_pq_missing_r st q q' _ Hne (proj1 Ho1) (Hnone _ Hq'))
          as Hmiss.
        absurd_fault Hrun Hmiss. }
    destruct (Hown _ _ Hq') as [Ho2 HP2].
    assert (Hnd : NoDup (addrs t1 ++ addrs t2)).
    { apply NoDup_app. split_and!; [apply Ho1| |apply Ho2].
      intros a Ha1 Ha2. apply Hne. by eapply Hsep. }
    pose proof (merge_pq_spec st q q' t1 t2 Ho1 Ho2 Hne Hnd) as Hspec.
    destruct (tmerge' t1 t2) as [t'|ex| |] eqn:Hpure; [| |done..].
    2:{ rewrite Hspec in Hrun. by injection Hrun as <- <-. }
    destruct Hspec as (m' & Hrun' & Hrepr' & Hnd' & Hframe & Hdom').
    rewrite Hrun' in Hrun. injection Hrun as <- <-.
    pose proof (tmerge_addrs _ _ _ _ Hpure) as Hperm.
    destruct st as [m o]. simpl in Hdom, Hown, Hframe, Hdom', Ho1, Ho2 |- *.
    destruct (ginv_update P Γ m o q' Leaf m []) as (Hdom1 & Hown1 & Hsep1);
      try done.
    { intros q2 t2' a _ _ _. apply not_elem_of_nil. }
    { intros a Ha. by apply elem_of_nil in Ha. }
    { apply NoDup_nil_2. }
    { apply (inv_Leaf P HP). }
    exists (<[q := t']> (<[q' := Leaf]> Γ)).
    rewrite (insert_insert_ne o) by done.
    apply (ginv_update P (<[q' := Leaf]> Γ) m (<[q' := obj_of Leaf]> o)
      q t' m' (addrs t1 ++ addrs t2)); try done.
    + intros q2 t2' a Hne2. destruct (decide (q2 = q')) as [->|Hne3].
      * rewrite lookup_insert_eq. intros [= <-] Ha. by apply elem_of_nil in Ha.
      * rewrite lookup_insert_ne by done. intros Hq2 Ha.
        rewrite not_elem_of_app. split; intros Ha'.
        -- apply Hne2. by eapply Hsep.
        -- apply Hne3. by eapply Hsep.
    + intros a _ Ha. by apply Hframe.
    + intros a. rewrite Hperm. by left.
    + exact (inv_merge P HP t1 t2 t' HP1 HP2 Hpure).
Qed.

Lemma reachable_ginv P st :
  tree_invariant P → reachable st → ginv P st.
Proof.
  intros HP. induction 1 as [|st c r st' _ IH Hrun Hcomp].
  - apply ginv_init.
  - by eapply step_ginv.
Qed.

(** ** The leftist invariant *)

Lemma rank_erase t : rank (erase t) = rank t.
Proof. by destruct t. Qed.

Lemma leftist_erase t : leftist (erase t) ↔ leftist t.
Proof.
  induction t as [|a l IHl x n r IHr]; simpl; [done|].
  rewrite !rank_erase, IHl, IHr. done.
Qed.

Lemma leftist_join a l x r : leftist l → leftist r → leftist (join a l x r).
Proof.
  intros Hl Hr. unfold join.
  destruct (rank l <? rank r)%Z eqn:Hlt; simpl; split_and!; try done; lia.
Qed.

Lemma leftist_tmerge fuel t1 t2 t :
  leftist t1 → leftist t2 → tmerge fuel t1 t2 = Done t → leftist t.
Proof.
  revert t1 t2 t. induction fuel as [|fuel IH]; intros t1 t2 t; simpl; [done|].
  destruct t1 as [|a1 l1 x1 n1 r1]; [by intros _ ? [= <-]|].
  destruct t2 as [|a2 l2 x2 n2 r2]; [by intros ? _ [= <-]|].
  intros H1 H2. pose proof H1 as (_ & _ & Hl1 & Hr1).
  pose proof H2 as (_ & _ & Hl2 & Hr2).
  destruct (comp x1 x2) as [[]|]; [| |done].
  - destruct (tmerge fuel r2 _) as [r| | |] eqn:Hrec; try done.
    intros [= <-]. apply leftist_join; [done|]. exact (IH _ _ _ Hr2 H1 Hrec).
  - destruct (tmerge fuel r1 _) as [r| | |] eqn:Hrec; try done.
    intros [= <-]. apply leftist_join; [done|]. exact (IH _ _ _ Hr1 H2 Hrec).
Qed.

Lemma leftist_invariant : tree_invariant leftist.
Proof.
  split.
  - done.
  - intros a e. simpl. done.
  - intros t1 t2 t H1 H2 Hm. exact (leftist_tmerge _ _ _ _ H1 H2 Hm).
  - intros a l x n r (_ & _ & Hl & Hr). done.
  - intros t t' Her Ht. apply leftist_erase. rewrite <-Her.
    by apply leftist_erase.
Qed.




(** ** Which exception can leave a computation *)

Lemma throws_only_nothrow {A} e (m : M A) : nothrow m → throws_only e m.
Proof. intros Hm st ex st' Heq. specialize (Hm st ex). by rewrite Heq in Hm. Qed.

Lemma throws_only_bind {A B} e (m : M A) (k : A → M B) :
  throws_only e m → (∀ a, throws_only e (k a)) → throws_only e (bind m k).
Proof.
  intros Hm Hk st ex st'. unfold bind.
  destruct (m st) as [[a|e'| |] st1] eqn:Hmst; try done.
  - apply Hk.
  - intros [= -> ->]. by eapply Hm.
Qed.

Lemma throws_only_call_comp x y : throws_only foreign_failure (call_comp x y).
Proof.
  intros st ex st'. unfold call_comp. destruct (comp x y); [done|].
  by intros [= <- _].
Qed.

Lemma throws_only_merge fuel h1 h2 :
  throws_only foreign_failure (merge fuel h1 h2).
Proof.
  revert h1 h2. induction fuel as [|fuel IH]; intros h1 h2; simpl.
  { apply throws_only_nothrow; auto with effects. }
  destruct h1 as [a1|]; [|apply throws_only_nothrow; auto with effects].
  destruct h2 as [a2|]; [|apply throws_only_nothrow; auto with effects].
  apply throws_only_bind; [apply throws_only_nothrow; auto with effects|intros n1].
  apply throws_only_bind; [apply throws_only_nothrow; auto with effects|intros n2].
  apply throws_only_bind; [apply throws_only_call_comp|intros c].
  apply throws_only_bind; [apply throws_only_nothrow; auto with effects|intros nh].
  apply throws_only_bind; [apply IH|intros r].
  apply throws_only_nothrow. auto 12 with effects.
Qed.

(** ** Exception safety of the mutating operations *)

Lemma throw_safe_pop q : throw_safe (pop q).
Proof.
  unfold pop. apply throw_safe_bind_readonly; [auto with effects|intros []].
  { apply readonly_throw_safe. auto with effects. }
  apply throw_safe_bind_readonly; [auto with effects|intros [a|]].
  2:{ apply readonly_throw_safe. auto with effects. }
  apply throw_safe_bind_readonly; [auto with effects|intros n].
  apply throw_safe_bind_readonly; [auto with effects|intros b].
  apply throw_safe_bind_nothrow; [apply throw_safe_merge|intros r].
  auto 10 with effects.
Qed.

Lemma throw_safe_merge_pq q other : throw_safe (merge_pq q other).
Proof.
  unfold merge_pq. destruct (decide (q = other)).
  { apply readonly_throw_safe. auto with effects. }
  intros st ex st'. unfold try_catch.
  set (body := bind budget _).
  assert (Hbody : throw_safe body).
  { subst body.
    apply throw_safe_bind_readonly; [auto with effects|intros b].
    apply throw_safe_bind_readonly; [auto with effects|intros r0].
    apply throw_safe_bind_readonly; [auto with effects|intros r1].
    apply throw_safe_bind_nothrow; [apply throw_safe_merge|intros r].
    auto 12 with effects. }
  destruct (body st) as [[a|e'| |] st1] eqn:Hb; try done.
  unfold throw. intros [= <- <-]. by eapply Hbody.
Qed.

Lemma throw_safe_push q e : throw_safe (push q e).
Proof.
  intros st ex st'. destruct st as [m o]. unfold push.
  set (a := fresh (dom m)).
  rewrite (bind_Done _ _ _ a
    (mkState (<[a := mkNode e None None 1%Z]> m) o)) by done.
  unfold try_catch. set (body := bind budget _).
  assert (Hbody : throw_safe body).
  { subst body.
    apply throw_safe_bind_readonly; [auto with effects|intros b].
    apply throw_safe_bind_readonly; [auto with effects|intros r0].
    apply throw_safe_bind_nothrow; [apply throw_safe_merge|intros r].
    auto 10 with effects. }
  destruct (body _) as [[u|e'| |] st1] eqn:Hb; try done.
  apply Hbody in Hb as ->.
  rewrite (bind_Done _ _ _ _ _
    (run_delete_node _ _ _ _ (lookup_insert_eq _ _ _))).
  rewrite delete_insert_id by (apply not_elem_of_dom, is_fresh).
  unfold throw. by intros [= _ <-].
Qed.

Lemma exec_reachable cs st st' :
  reachable st → exec cs st = Some st' → reachable st'.
Proof.
  revert st. induction cs as [|c cs IH]; intros st Hreach; simpl.
  { by intros [= <-]. }
  destruct (run_op c st) as [[u|e| |] st1] eqn:Hrun; try done.
  - apply IH. by eapply reachable_step.
  - apply IH. by eapply reachable_step.
Qed.

Lemma exec_default_reachable cs : reachable (default init (exec cs init)).
Proof.
  destruct (exec cs init) as [st|] eqn:He; simpl.
  - eapply exec_reachable; [apply reachable_init|done].
  - apply reachable_init.
Qed.

(** In a leftist tree the stored npl is at most logarithmic in the number of
    nodes, which is why [int] holds it whenever [size_t] holds the size. *)
Lemma leftist_rank_bound t :
  leftist t → (0 ≤ rank t)%Z ∧ (2 ^ rank t ≤ Z.of_nat (tsize t) + 1)%Z.
Proof.
  induction t as [|a l IHl x n r IHr]; simpl; [done|].
  intros (Hle & -> & Hl & Hr).
  destruct (IHl Hl) as [Hl0 Hlb]. destruct (IHr Hr) as [Hr0 Hrb].
  split; [lia|]. rewrite Z.pow_add_r by lia.
  assert (2 ^ rank r ≤ 2 ^ rank l)%Z by (apply Z.pow_le_mono_r; lia).
  lia.
Qed.

(** ** Properties that hold for every comparator *)

Lemma reachable_owns P st q pq :
  tree_invariant P → reachable st → objs st !! q = Some pq →
  ∃ t, owns st q t ∧ P t.
Proof.
  intros HP Hreach Hq.
  destruct (reachable_ginv P st HP Hreach) as (Γ & Hdom & Hown & _).
  destruct (Γ !! q) as [t|] eqn:HΓ.
  - exists t. by apply Hown.
  - apply (ginv_lookup_None st Γ q Hdom) in HΓ. congruence.
Qed.

Lemma trivial_invariant : tree_invariant (λ _, True).
Proof. by split. Qed.



(** C5. If the tree merge inside [push] throws, [push] throws the same
    exception and the program state is the one before the call: the new node
    is gone again and root and size are untouched.  If the tree merge inside
    the queue-to-queue merge of two distinct queues throws, both queues are
    as before.  More generally, whatever exception leaves either operation
    leaves the state unchanged. *)
Theorem push_merge_strong_exception_safety st ex :
  (∀ q pq e st1,
     objs st !! q = Some pq →
     let a := fresh (dom (mem st)) in
     let st0 := mkState (<[a := mkNode e None None 1%Z]> (mem st)) (objs st) in
     merge (S (base.size (mem st0))) (root pq) (Some a) st0 = (Throw ex, st1) →
     push q e st = (Throw ex, st) ∧ a ∉ dom (mem st))
  ∧ (∀ q other pq1 pq2 st1,
     q ≠ other → objs st !! q = Some pq1 → objs st !! other = Some pq2 →
     merge (S (base.size (mem st))) (root pq1) (root pq2) st = (Throw ex, st1) →
     merge_pq q other st = (Throw ex, st))
  ∧ (∀ q e st', push q e st = (Throw ex, st') → st' = st)
  ∧ (∀ q other st', merge_pq q other st = (Throw ex, st') → st' = st).
Proof.
  split_and!.
  - intros q pq e st1 Hq a st0 Hm. split; [|apply is_fresh].
    pose proof (throw_safe_merge _ _ _ _ _ _ Hm) as ->.
    destruct st as [m o]. simpl in *. unfold push. fold a.
    rewrite (bind_Done _ _ _ a st0) by done.
    erewrite try_catch_Throw.
    2:{ unfold st0. rewrite run_budget.
        rewrite (bind_Done _ _ _ _ _ (run_get_root _ _ _ _ Hq)).
        by rewrite (bind_Throw _ _ _ _ _ Hm). }
    unfold st0.
    rewrite (bind_Done _ _ _ _ _
      (run_delete_node _ _ _ _ (lookup_insert_eq _ _ _))).
    by rewrite delete_insert_id by (apply not_elem_of_dom, is_fresh).
  - intros q other pq1 pq2 st1 Hne Hq1 Hq2 Hm.
    pose proof (throw_safe_merge _ _ _ _ _ _ Hm) as ->.
    destruct st as [m o]. simpl in *. unfold merge_pq.
    rewrite decide_False by done.
    erewrite try_catch_Throw; [done|]. rewrite run_budget.
    rewrite (bind_Done _ _ _ _ _ (run_get_root _ _ _ _ Hq1)).
    rewrite (bind_Done _ _ _ _ _ (run_get_root _ _ _ _ Hq2)).
    by rewrite (bind_Throw _ _ _ _ _ Hm).
  - intros q e st'. apply throw_safe_push.
  - intros q other st'. apply throw_safe_merge_pq.
Qed.

(** C6. On a queue whose [size()] is 0, [top()] and [pop()] both throw
    [container_is_empty] and leave the program state as it was; and either
    of them throws [container_is_empty] only when [size()] is 0 (what the
    comparator throws inside [pop()] is another exception). *)
Theorem empty_queue_raises st q :
  (size q st = (Done 0%Z, st) →
     top q st = (Throw container_is_empty, st)
     ∧ pop q st = (Throw container_is_empty, st))
  ∧ (∀ st', top q st = (Throw container_is_empty, st') →
       size q st = (Done 0%Z, st))
  ∧ (∀ st', pop q st = (Throw container_is_empty, st') →
       size q st = (Done 0%Z, st)).
Proof.
  destruct st as [m o]. unfold size.
  destruct (o !! q) as [pq|] eqn:Hq.
  2:{ split_and!.
      - by rewrite (run_get_sz_None _ _ _ Hq).
      - intros st'. unfold top, empty.
        by rewrite (bind_Fault _ _ _ _
          (bind_Fault _ _ _ _ (run_get_sz_None _ _ _ Hq))).
      - intros st'. unfold pop, empty.
        by rewrite (bind_Fault _ _ _ _
          (bind_Fault _ _ _ _ (run_get_sz_None _ _ _ Hq))). }
  rewrite (run_get_sz _ _ _ _ Hq). split_and!.
  - intros [= Hsz]. unfold top, pop.
    rewrite !(bind_Done _ _ _ _ _ (run_empty _ _ _ _ Hq)). by rewrite Hsz.
  - intros st'. unfold top.
    rewrite (bind_Done _ _ _ _ _ (run_empty _ _ _ _ Hq)).
    destruct (sz pq =? 0)%Z eqn:Hz; [apply Z.eqb_eq in Hz; by rewrite Hz|].
    intros Hthrow. exfalso. revert Hthrow.
    assert (Hnt : nothrow (do r <- get_root q;
      match r with Some a => do n <- load a; ret (data n) | None => fault end))
      by auto with effects.
    intros Hthrow. specialize (Hnt (mkState m o) container_is_empty).
    by rewrite Hthrow in Hnt.
  - intros st'. unfold pop.
    rewrite (bind_Done _ _ _ _ _ (run_empty _ _ _ _ Hq)).
    destruct (sz pq =? 0)%Z eqn:Hz; [apply Z.eqb_eq in Hz; by rewrite Hz|].
    intros Hthrow. exfalso. revert Hthrow.
    match goal with |- ?m _ = _ → _ =>
      assert (Hto : throws_only foreign_failure m) end.
    { apply throws_only_bind; [apply throws_only_nothrow; auto with effects|].
      intros [a|]; [|apply throws_only_nothrow; auto with effects].
      apply throws_only_bind; [apply throws_only_nothrow; auto with effects|].
      intros n.
      apply throws_only_bind; [apply throws_only_nothrow; auto with effects|].
      intros b.
      apply throws_only_bind; [apply throws_only_merge|intros r].
      apply throws_only_nothrow. auto 10 with effects. }
    intros Hthrow. by apply Hto in Hthrow.
Qed.

(** C7. Merging a queue into itself returns at once: the program state,
    and with it the queue's size, its elements and what draining it would
    yield, is exactly as before. *)
Theorem self_merge_noop st q :
  merge_pq q q st = (Done tt, st)
  ∧ (∀ st', merge_pq q q st = (Done tt, st') →
       size q st' = size q st ∧ drain q st' = drain q st
       ∧ mem st' = mem st ∧ objs st' = objs st).
Proof.
  assert (Hrun : merge_pq q q st = (Done tt, st)).
  { unfold merge_pq. by rewrite decide_True. }
  split; [done|]. intros st'. rewrite Hrun. by intros [= <-].
Qed.

(** C9. Assigning a queue to itself does nothing: the self-check comes
    before the teardown, so no node is released and the program state, the
    queue's size, its elements and what draining it would yield are exactly
    as before. *)
Theorem self_assign_noop st q :
  assign q q st = (Done tt, st)
  ∧ (∀ st', assign q q st = (Done tt, st') →
       size q st' = size q st ∧ drain q st' = drain q st
       ∧ mem st' = mem st ∧ objs st' = objs st).
Proof.
  pose proof (assign_self st q) as Hrun.
  split; [done|]. intros st'. rewrite Hrun. by intros [= <-].
Qed.

(** C10. If the comparator throws while [pop()] merges the two children of
    the root of a non-empty queue, [pop()] throws the same exception and the
    program state is the one before the call: the root pointer is not
    reassigned, the old root is not deleted and the size is not decremented.
    More generally, whatever exception leaves [pop()] leaves the state
    unchanged. *)
Theorem pop_strong_exception_safety st q pq a n ex st1 :
  objs st !! q = Some pq → sz pq ≠ 0%Z → root pq = Some a →
  mem st !! a = Some n →
  merge (S (base.size (mem st))) (left n) (right n) st = (Throw ex, st1) →
  pop q st = (Throw ex, st)
  ∧ (∀ ex' st', pop q st = (Throw ex', st') → st' = st).
Proof.
  intros Hq Hsz Hroot Ha Hm. split_and!.
  - pose proof (throw_safe_merge _ _ _ _ _ _ Hm) as ->.
    destruct st as [m o]. simpl in *. unfold pop.
    rewrite (bind_Done _ _ _ _ _ (run_empty _ _ _ _ Hq)).
    apply Z.eqb_neq in Hsz. rewrite Hsz.
    rewrite (bind_Done _ _ _ _ _ (run_get_root _ _ _ _ Hq)), Hroot.
    rewrite (bind_Done _ _ _ _ _ (run_load _ _ _ _ Ha)), run_budget.
    by rewrite (bind_Throw _ _ _ _ _ Hm).
  - intros ex' st'. apply throw_safe_pop.
Qed.

(** ** Draining on ghost trees *)

Lemma erase_join a l x r : erase (join a l x r) = join 1 (erase l) x (erase r).
Proof.
  unfold join. rewrite !rank_erase. by destruct (rank l <? rank r)%Z.
Qed.

Lemma tmerge_erase fuel t1 t2 :
  tmerge fuel (erase t1) (erase t2) = omap erase (tmerge fuel t1 t2).
Proof.
  revert t1 t2. induction fuel as [|fuel IH]; intros t1 t2; simpl; [done|].
  destruct t1 as [|a1 l1 x1 n1 r1]; [done|].
  destruct t2 as [|a2 l2 x2 n2 r2]; [done|].
  simpl. destruct (comp x1 x2) as [[]|]; [| |done].
  - pose proof (IH r2 (Br a1 l1 x1 n1 r1)) as IH'. simpl in IH'. rewrite IH'.
    destruct (tmerge fuel r2 _); simpl; try done. by rewrite erase_join.
  - pose proof (IH r1 (Br a2 l2 x2 n2 r2)) as IH'. simpl in IH'. rewrite IH'.
    destruct (tmerge fuel r1 _); simpl; try done. by rewrite erase_join.
Qed.

Lemma tmerge'_erase t1 t2 :
  tmerge' (erase t1) (erase t2) = omap erase (tmerge' t1 t2).
Proof. unfold tmerge'. rewrite !tsize_erase. apply tmerge_erase. Qed.

Lemma tdrain_erase fuel t : tdrain fuel (erase t) = tdrain fuel t.
Proof.
  revert t. induction fuel as [|fuel IH]; intros t; simpl; [done|].
  destruct t as [|a l x n r]; simpl; [done|].
  rewrite tmerge'_erase. destruct (tmerge' l r); simpl; try done.
  by rewrite IH.
Qed.

Lemma tdrain_fuel fuel fuel' t :
  tsize t < fuel → tsize t < fuel' → tdrain fuel t = tdrain fuel' t.
Proof.
  revert fuel' t. induction fuel as [|fuel IH]; intros fuel' t; [lia|].
  destruct fuel' as [|fuel']; [lia|]. simpl.
  destruct t as [|a l x n r]; [done|]. simpl. intros Hf Hf'.
  destruct (tmerge' l r) as [t'| | |] eqn:Hm; try done.
  apply tmerge_size in Hm. rewrite (IH fuel' t'); [done|lia..].
Qed.

Lemma tdrain_no_fault fuel t : tdrain fuel t ≠ Fault.
Proof.
  revert t. induction fuel as [|fuel IH]; intros t; simpl; [done|].
  destruct t as [|a l x n r]; [done|].
  destruct (tmerge' l r) as [t'| | |] eqn:Hm; try done.
  - specialize (IH t'). by destruct (tdrain fuel t').
  - by apply tmerge'_no_fault in Hm.
Qed.

Lemma tdrain_no_timeout fuel t : tsize t < fuel → tdrain fuel t ≠ Timeout.
Proof.
  revert t. induction fuel as [|fuel IH]; intros t; simpl; [lia|].
  destruct t as [|a l x n r]; [done|]. simpl. intros Hf.
  destruct (tmerge' l r) as [t'| | |] eqn:Hm; try done.
  - apply tmerge_size in Hm. specialize (IH t').
    destruct (tdrain fuel t'); try done. apply IH. lia.
  - by apply tmerge'_no_timeout in Hm.
Qed.

Lemma tdrain_elems fuel t xs : tdrain fuel t = Done xs → xs ≡ₚ elems t.
Proof.
  revert t xs. induction fuel as [|fuel IH]; intros t xs; simpl; [done|].
  destruct t as [|a l x n r]; [by intros [= <-]|].
  destruct (tmerge' l r) as [t'| | |] eqn:Hm; try done.
  destruct (tdrain fuel t') as [xs'| | |] eqn:Hd; try done.
  intros [= <-]. simpl. rewrite (IH _ _ Hd). by rewrite (tmerge_elems _ _ _ _ Hm).
Qed.

Lemma owns_wrap_small st q t :
  owns st q t → (Z.of_nat (tsize t) < size_modulus)%Z →
  objs st !! q = Some (mkPQ (ptr t) (Z.of_nat (tsize t))).
Proof. intros (Hq & _) Hlt. rewrite Hq, wrap_small; [done|lia]. Qed.

(** The client loop computes [tdrain] of the tree the queue owns. *)
Lemma drain_loop_spec fuel st q t :
  owns st q t → (Z.of_nat (tsize t) < size_modulus)%Z →
  (drain_loop fuel q st).1 = tdrain fuel t
  ∧ (∀ xs, tdrain fuel t = Done xs →
       ∃ m', (drain_loop fuel q st).2
             = mkState m' (<[q := obj_of Leaf]> (objs st))
         ∧ (∀ b, b ∉ addrs t → m' !! b = mem st !! b)
         ∧ (∀ b, b ∈ addrs t → m' !! b = None)).
Proof.
  revert st t. induction fuel as [|fuel IH]; intros st t Hown Hsmall; simpl.
  { done. }
  pose proof (owns_wrap_small _ _ _ Hown Hsmall) as Hq.
  pose proof (top_spec _ _ _ Hown) as Htop.
  pose proof (pop_spec _ _ _ Hown) as Hpop.
  destruct st as [m o]. simpl in Hq |- *.
  rewrite (bind_Done _ _ _ _ _ (run_empty _ _ _ _ Hq)). cbn [sz].
  destruct t as [|a l x n r].
  { simpl. split; [done|]. intros xs _. exists m. split_and!; [|done|].
    - by rewrite insert_id.
    - intros b Hb. by apply elem_of_nil in Hb. }
  rewrite wrap_small in Htop, Hpop by lia.
  assert (Hnz : (Z.of_nat (tsize (Br a l x n r)) =? 0)%Z = false).
  { apply Z.eqb_neq. simpl. lia. }
  rewrite Hnz in Htop, Hpop |- *.
  rewrite (bind_Done _ _ _ _ _ Htop).
  destruct (tmerge' l r) as [t'|ex| |] eqn:Hm; [| |done..].
  2:{ by rewrite (bind_Throw _ _ _ _ _ Hpop). }
  destruct Hpop as (m1 & Hrun & Hrepr1 & Hnd1 & Hframe & Hdom).
  rewrite (bind_Done _ _ _ _ _ Hrun). simpl in Hframe, Hdom, Hrun.
  pose proof (tmerge_size _ _ _ _ Hm) as Hsz.
  pose proof (tmerge_addrs _ _ _ _ Hm) as Hperm.
  assert (Hown1 : owns (mkState m1 (<[q := obj_of t']> o)) q t').
  { split_and!; simpl; [by rewrite lookup_insert_eq|done..]. }
  destruct (IH _ t' Hown1) as [Hres Hfin]. { simpl in Hsmall. lia. }
  unfold bind.
  destruct (drain_loop fuel q _) as [res st2] eqn:Hloop. simpl in Hres, Hfin.
  subst res. split.
  { by destruct (tdrain fuel t'). }
  intros xs Hxs.
  destruct (tdrain fuel t') as [xs'| | |]; try done.
  destruct (Hfin xs' eq_refl) as (m' & -> & Hkeep & Hgone).
  exists m'. split_and!.
  - simpl. by rewrite insert_insert_eq.
  - intros b Hb. rewrite Hkeep.
    + by apply Hframe.
    + rewrite Hperm. simpl in Hb. rewrite not_elem_of_cons in Hb. tauto.
  - intros b. simpl. rewrite elem_of_cons, elem_of_app, <-elem_of_app, <-Hperm.
    destruct Hown as (_ & _ & Hnd). simpl in Hnd.
    apply NoDup_cons in Hnd as [Ha_notin _].
    intros [->|Hb]; [|by apply Hgone].
    rewrite Hkeep; [|by rewrite Hperm].
    apply not_elem_of_dom. rewrite Hdom. set_solver.
Qed.

(** ** Comparators that never throw and order the elements *)

Section Total.

Variable less : T → T → bool.
Hypothesis comp_total : ∀ x y, comp x y = Some (less x y).
Hypothesis less_swo : strict_weak_order less.

Lemma less_asym x y : less x y = true → less y x = false.
Proof.
  intros Hxy. destruct (less y x) eqn:Hyx; [|done].
  pose proof (swo_trans less less_swo _ _ _ Hxy Hyx) as Hxx.
  by rewrite (swo_irrefl less less_swo) in Hxx.
Qed.

(** "Not less than" is transitive. *)
Lemma less_negtrans x y z :
  less x y = false → less y z = false → less x z = false.
Proof.
  intros Hxy Hyz. destruct (less x z) eqn:Hxz; [|done]. exfalso.
  destruct (less y x) eqn:Hyx.
  { pose proof (swo_trans less less_swo _ _ _ Hyx Hxz). congruence. }
  destruct (less z y) eqn:Hzy.
  { pose proof (swo_trans less less_swo _ _ _ Hxz Hzy). congruence. }
  destruct (swo_equiv_trans less less_swo x y z); congruence.
Qed.

Lemma ge_root_join y a l x r : ge_root less y (join a l x r) ↔ less y x = false.
Proof. unfold join. by destruct (rank l <? rank r)%Z. Qed.

Lemma heap_ordered_join a l x r :
  ge_root less x l → ge_root less x r → heap_ordered less l → heap_ordered less r →
  heap_ordered less (join a l x r).
Proof. intros. unfold join. by destruct (rank l <? rank r)%Z. Qed.

Lemma tmerge_no_throw fuel t1 t2 e : tmerge fuel t1 t2 ≠ Throw e.
Proof.
  revert t1 t2. induction fuel as [|fuel IH]; intros t1 t2; simpl; [done|].
  destruct t1 as [|a1 l1 x1 n1 r1]; [done|].
  destruct t2 as [|a2 l2 x2 n2 r2]; [done|].
  rewrite comp_total. destruct (less x1 x2).
  - specialize (IH r2 (Br a1 l1 x1 n1 r1)). by destruct (tmerge fuel r2 _).
  - specialize (IH r1 (Br a2 l2 x2 n2 r2)). by destruct (tmerge fuel r1 _).
Qed.

Lemma tmerge'_Done t1 t2 : ∃ t, tmerge' t1 t2 = Done t.
Proof.
  destruct (tmerge' t1 t2) as [t|e| |] eqn:Hm; [by exists t|..].
  - by apply tmerge_no_throw in Hm.
  - by apply tmerge'_no_fault in Hm.
  - by apply tmerge'_no_timeout in Hm.
Qed.

Lemma ge_root_tmerge fuel y t1 t2 t :
  ge_root less y t1 → ge_root less y t2 → tmerge fuel t1 t2 = Done t → ge_root less y t.
Proof.
  destruct fuel as [|fuel]; simpl; [done|].
  destruct t1 as [|a1 l1 x1 n1 r1]; [by intros _ ? [= <-]|].
  destruct t2 as [|a2 l2 x2 n2 r2]; [by intros ? _ [= <-]|].
  simpl. intros H1 H2. rewrite comp_total. destruct (less x1 x2).
  - destruct (tmerge fuel r2 _); try done. intros [= <-]. by apply ge_root_join.
  - destruct (tmerge fuel r1 _); try done. intros [= <-]. by apply ge_root_join.
Qed.

Lemma heap_ordered_tmerge fuel t1 t2 t :
  heap_ordered less t1 → heap_ordered less t2 → tmerge fuel t1 t2 = Done t →
  heap_ordered less t.
Proof.
  revert t1 t2 t. induction fuel as [|fuel IH]; intros t1 t2 t; simpl; [done|].
  destruct t1 as [|a1 l1 x1 n1 r1]; [by intros _ ? [= <-]|].
  destruct t2 as [|a2 l2 x2 n2 r2]; [by intros ? _ [= <-]|].
  intros H1 H2. pose proof H1 as (Hgl1 & Hgr1 & Hl1 & Hr1).
  pose proof H2 as (Hgl2 & Hgr2 & Hl2 & Hr2).
  rewrite comp_total. destruct (less x1 x2) eqn:Hlt.
  - destruct (tmerge fuel r2 _) as [r| | |] eqn:Hrec; try done.
    intros [= <-]. apply heap_ordered_join; [done| |done|].
    + eapply (ge_root_tmerge fuel x2 r2 (Br a1 l1 x1 n1 r1)); [done| |done].
      simpl. by apply less_asym.
    + exact (IH _ _ _ Hr2 H1 Hrec).
  - destruct (tmerge fuel r1 _) as [r| | |] eqn:Hrec; try done.
    intros [= <-]. apply heap_ordered_join; [done| |done|].
    + by eapply (ge_root_tmerge fuel x1 r1 (Br a2 l2 x2 n2 r2)).
    + exact (IH _ _ _ Hr1 H2 Hrec).
Qed.

Lemma ge_root_erase x t : ge_root less x (erase t) ↔ ge_root less x t.
Proof. by destruct t. Qed.

Lemma heap_ordered_erase t : heap_ordered less (erase t) ↔ heap_ordered less t.
Proof.
  induction t as [|a l IHl x n r IHr]; simpl; [done|].
  by rewrite !ge_root_erase, IHl, IHr.
Qed.

Lemma heap_ordered_invariant : tree_invariant (heap_ordered less).
Proof.
  split.
  - done.
  - intros a e. simpl. done.
  - intros t1 t2 t H1 H2 Hm. exact (heap_ordered_tmerge _ _ _ _ H1 H2 Hm).
  - intros a l x n r (_ & _ & Hl & Hr). done.
  - intros t t' Her Ht. apply heap_ordered_erase. rewrite <-Her.
    by apply heap_ordered_erase.
Qed.

(** The root of a heap-ordered tree is not less than any element in it. *)
Lemma heap_ordered_ge y t :
  heap_ordered less t → ge_root less y t → ∀ z, z ∈ elems t → less y z = false.
Proof.
  revert y. induction t as [|a l IHl x n r IHr]; simpl; intros y.
  { intros _ _ z Hz. by apply elem_of_nil in Hz. }
  intros (Hgl & Hgr & Hl & Hr) Hy z.
  rewrite elem_of_cons, elem_of_app. intros [->|[Hz|Hz]]; [done|..].
  - apply (less_negtrans y x z); [done|]. by apply IHl.
  - apply (less_negtrans y x z); [done|]. by apply IHr.
Qed.

Lemma heap_ordered_max a l x n r :
  heap_ordered less (Br a l x n r) →
  ∀ z, z ∈ elems (Br a l x n r) → less x z = false.
Proof.
  intros Ht. apply heap_ordered_ge; [done|].
  simpl. apply (swo_irrefl less less_swo).
Qed.

Lemma tdrain_sorted fuel t :
  heap_ordered less t → tsize t < fuel →
  ∃ xs, tdrain fuel t = Done xs ∧ xs ≡ₚ elems t ∧ StronglySorted (not_less less) xs.
Proof.
  revert t. induction fuel as [|fuel IH]; intros t Ht Hf; [lia|]. simpl.
  destruct t as [|a l x n r].
  { exists []. split_and!; [done..|constructor]. }
  destruct (tmerge'_Done l r) as [t' Hm]. rewrite Hm.
  pose proof Ht as (_ & _ & Hl & Hr).
  pose proof (heap_ordered_tmerge _ _ _ _ Hl Hr Hm) as Ht'.
  pose proof (tmerge_size _ _ _ _ Hm) as Hsz. simpl in Hf.
  destruct (IH t' Ht') as (xs & Hd & Hperm & Hsorted); [lia|].
  rewrite Hd. exists (x :: xs). split_and!; [done| |].
  - simpl. by rewrite Hperm, (tmerge_elems _ _ _ _ Hm).
  - constructor; [done|]. apply Forall_forall. intros z Hz.
    apply (heap_ordered_max a l x n r Ht). simpl. right.
    by rewrite <-(tmerge_elems _ _ _ _ Hm), <-Hperm.
Qed.

Lemma reachable_heap_ordered st q pq :
  reachable st → objs st !! q = Some pq → ∃ t, owns st q t ∧ heap_ordered less t.
Proof. apply reachable_owns, heap_ordered_invariant. Qed.

Lemma push_all_spec st q t xs :
  owns st q t → heap_ordered less t →
  ∃ st1 t1,
    push_all q xs st = (Done tt, st1)
    ∧ owns st1 q t1 ∧ heap_ordered less t1
    ∧ elems t1 ≡ₚ elems t ++ xs
    ∧ base.size (mem st1) = base.size (mem st) + length xs.
Proof.
  revert st t. induction xs as [|x xs IH]; intros st t Hown Hord; simpl.
  { exists st, t. split_and!; [done..| |lia]. by rewrite app_nil_r. }
  pose proof (push_spec st q t x Hown) as Hspec. simpl in Hspec.
  destruct (tmerge'_Done t (leaf (fresh (dom (mem st))) x)) as [t' Hm].
  rewrite Hm in Hspec.
  destruct Hspec as (m' & Hrun & Hrepr' & Hnd' & Hframe & Hdom').
  assert (Hown' : owns (mkState m' (<[q := obj_of t']> (objs st))) q t').
  { split_and!; simpl; [by rewrite lookup_insert_eq|done..]. }
  assert (Hord' : heap_ordered less t').
  { eapply (heap_ordered_tmerge _ t (leaf _ x)); [done| |done]. by simpl. }
  destruct (IH _ t' Hown' Hord') as (st1 & t1 & Hrun1 & Hown1 & Hord1 & Hel & Hsz).
  exists st1, t1. split_and!; [|done..| |].
  - by rewrite (bind_Done _ _ _ _ _ Hrun).
  - rewrite Hel, (tmerge_elems _ _ _ _ Hm). simpl.
    by rewrite <-(assoc (++)).
  - rewrite Hsz. simpl. rewrite <-!size_dom, Hdom'.
    rewrite size_union by (pose proof (is_fresh (dom (mem st))); set_solver).
    rewrite size_singleton. lia.
Qed.

Lemma pop_n_spec st q t k :
  owns st q t → (Z.of_nat (tsize t) < size_modulus)%Z → k ≤ tsize t →
  ∃ stk tk,
    pop_n k q st = (Done tt, stk) ∧ owns stk q tk ∧ tsize tk = tsize t - k.
Proof.
  revert st t. induction k as [|k IH]; intros st t Hown Hsmall Hk; simpl.
  { exists st, t. split_and!; [done..|lia]. }
  pose proof (pop_spec st q t Hown) as Hspec.
  destruct t as [|a l x n r]; [simpl in Hk; lia|].
  rewrite wrap_small in Hspec by lia.
  assert (Hnz : (Z.of_nat (tsize (Br a l x n r)) =? 0)%Z = false).
  { apply Z.eqb_neq. simpl. lia. }
  rewrite Hnz in Hspec.
  destruct (tmerge'_Done l r) as [t' Hm]. rewrite Hm in Hspec.
  destruct Hspec as (m' & Hrun & Hrepr' & Hnd' & Hframe & Hdom').
  pose proof (tmerge_size _ _ _ _ Hm) as Hsz. simpl in Hsmall, Hk.
  assert (Hown' : owns (mkState m' (<[q := obj_of t']> (objs st))) q t').
  { split_and!; simpl; [by rewrite lookup_insert_eq|done..]. }
  destruct (IH _ t' Hown') as (stk & tk & Hrunk & Hownk & Hszk); [lia..|].
  exists stk, tk. split_and!; [|done|simpl; lia].
  by rewrite (bind_Done _ _ _ _ _ Hrun).
Qed.

Lemma run_size st q t :
  owns st q t → (Z.of_nat (tsize t) < size_modulus)%Z →
  size q st = (Done (Z.of_nat (tsize t)), st).
Proof.
  intros Hown Hsmall. pose proof (owns_wrap_small _ _ _ Hown Hsmall) as Hq.
  destruct st as [m o]. unfold size. by rewrite (run_get_sz _ _ _ _ Hq).
Qed.

Lemma drain_spec st q t :
  owns st q t → heap_ordered less t → (Z.of_nat (tsize t) < size_modulus)%Z →
  ∃ xs st1,
    drain q st = (Done xs, st1)
    ∧ xs ≡ₚ elems t ∧ StronglySorted (not_less less) xs
    ∧ owns st1 q Leaf.
Proof.
  intros Hown Hord Hsmall.
  pose proof Hown as (_ & Hrepr & Hnd).
  pose proof (repr_size _ _ Hrepr Hnd) as Hsz.
  destruct (tdrain_sorted (S (base.size (mem st))) t Hord)
    as (xs & Hd & Hperm & Hsorted); [lia|].
  destruct (drain_loop_spec (S (base.size (mem st))) st q t Hown Hsmall)
    as [Hres Hfin].
  destruct (Hfin xs Hd) as (m' & Hst & _).
  exists xs, (mkState m' (<[q := obj_of Leaf]> (objs st))).
  split_and!; [|done..|].
  - unfold drain. destruct st as [m o]. rewrite run_budget.
    cbn [mem objs] in Hres, Hst, Hd.
    destruct (drain_loop _ q _) as [res st2]. cbn [fst snd] in Hres, Hst.
    by rewrite Hres, Hd, Hst.
  - split_and!; simpl; [by rewrite lookup_insert_eq|done|constructor].
Qed.

(** ** Properties of the order of the elements *)

(** C1. In any reachable state with room for the new nodes, pushing a
    non-empty sequence [xs] onto a queue that holds the elements of [t]
    succeeds, and [top()] then returns an element of [elems t ++ xs] that is
    not less, under the comparator, than any of them.  For a queue that was
    empty (null root) these are the pushed elements alone. *)
Theorem top_after_pushes st q pq xs :
  reachable st → objs st !! q = Some pq → xs ≠ [] →
  (Z.of_nat (base.size (mem st) + length xs) < size_modulus)%Z →
  ∃ t st1 m,
    owns st q t
    ∧ push_all q xs st = (Done tt, st1)
    ∧ top q st1 = (Done m, st1)
    ∧ m ∈ elems t ++ xs
    ∧ (∀ x, x ∈ elems t ++ xs → less m x = false)
    ∧ (root pq = None → m ∈ xs ∧ ∀ x, x ∈ xs → less m x = false).
Proof.
  intros Hreach Hq Hne Hroom.
  destruct (reachable_heap_ordered st q pq Hreach Hq) as (t & Hown & Hord).
  destruct (push_all_spec st q t xs Hown Hord)
    as (st1 & t1 & Hrun & Hown1 & Hord1 & Hel & Hsz).
  pose proof Hown1 as (_ & Hrepr1 & Hnd1).
  pose proof (repr_size _ _ Hrepr1 Hnd1) as Hsz1.
  pose proof (top_spec st1 q t1 Hown1) as Htop.
  destruct t1 as [|a l x n r].
  { apply Permutation_length in Hel. rewrite length_app in Hel.
    destruct xs; [done|]. simpl in Hel. lia. }
  rewrite wrap_small in Htop by lia.
  assert (Hnz : (Z.of_nat (tsize (Br a l x n r)) =? 0)%Z = false).
  { apply Z.eqb_neq. simpl. lia. }
  rewrite Hnz in Htop.
  assert (Hmax : ∀ y, y ∈ elems t ++ xs → less x y = false).
  { intros y Hy. apply (heap_ordered_max a l x n r Hord1). by rewrite Hel. }
  assert (Hin : x ∈ elems t ++ xs).
  { rewrite <-Hel. simpl. by left. }
  exists t, st1, x. split_and!; try done.
  intros Hnull. destruct Hown as (Hq' & _). rewrite Hq in Hq'.
  injection Hq' as ->. simpl in Hnull. apply ptr_None in Hnull. by subst t.
Qed.

(** C2. In any reachable state, reading [top()] and calling [pop()] until
    [empty()] returns the elements the queue holds, each exactly once, in an
    order in which no element is less than a later one.  The loop, which
    runs while [size()] is not 0, makes exactly as many rounds as there are
    elements: after [k] pops [size()] is the number held minus [k], so it
    is 0 after the last one and not before. *)
Theorem drain_sorted st q pq :
  reachable st → objs st !! q = Some pq →
  (Z.of_nat (base.size (mem st)) < size_modulus)%Z →
  ∃ t xs st1,
    owns st q t
    ∧ drain q st = (Done xs, st1)
    ∧ xs ≡ₚ elems t
    ∧ StronglySorted (not_less less) xs
    ∧ size q st1 = (Done 0%Z, st1)
    ∧ (∀ k, k ≤ length xs →
         ∃ stk, pop_n k q st = (Done tt, stk)
                ∧ size q stk = (Done (Z.of_nat (length xs - k)), stk)).
Proof.
  intros Hreach Hq Hroom.
  destruct (reachable_heap_ordered st q pq Hreach Hq) as (t & Hown & Hord).
  pose proof Hown as (_ & Hrepr & Hnd).
  pose proof (repr_size _ _ Hrepr Hnd) as Hsz.
  assert (Hsmall : (Z.of_nat (tsize t) < size_modulus)%Z) by lia.
  destruct (drain_spec st q t Hown Hord Hsmall)
    as (xs & st1 & Hrun & Hperm & Hsorted & Hown1).
  exists t, xs, st1. split_and!; try done.
  - by apply (run_size st1 q Leaf).
  - intros k Hk. pose proof (Permutation_length Hperm) as Hlen.
    rewrite length_elems in Hlen.
    destruct (pop_n_spec st q t k Hown Hsmall) as (stk & tk & Hrunk & Hownk & Hszk);
      [lia|].
    exists stk. split; [done|]. rewrite Hlen, <-Hszk.
    apply run_size; [done|]. lia.
Qed.

(** C3. In any reachable state, merging queue [B] into a distinct queue [A]
    succeeds; afterwards [A] owns exactly the nodes the two queues owned,
    holds the multiset union of their elements, has the sum of their sizes
    as its size, and drains in sorted order; [B] has a null root and size 0;
    and no node was allocated or released. *)
Theorem merge_queues st A B pqA pqB :
  reachable st → A ≠ B →
  objs st !! A = Some pqA → objs st !! B = Some pqB →
  (Z.of_nat (base.size (mem st)) < size_modulus)%Z →
  ∃ tA tB t' st',
    owns st A tA ∧ owns st B tB
    ∧ merge_pq A B st = (Done tt, st')
    ∧ owns st' A t'
    ∧ elems t' ≡ₚ elems tA ++ elems tB
    ∧ addrs t' ≡ₚ addrs tA ++ addrs tB
    ∧ size A st' = (Done (sz pqA + sz pqB)%Z, st')
    ∧ objs st' !! B = Some (mkPQ None 0%Z)
    ∧ owns st' B Leaf
    ∧ size B st' = (Done 0%Z, st')
    ∧ dom (mem st') = dom (mem st)
    ∧ (∃ xs st'', drain A st' = (Done xs, st'')
         ∧ xs ≡ₚ elems tA ++ elems tB ∧ StronglySorted (not_less less) xs).
Proof.
  intros Hreach Hne HA HB Hroom.
  destruct (reachable_ginv (heap_ordered less) st heap_ordered_invariant Hreach)
    as (Γ & Hdom & Hown & Hsep).
  destruct (Γ !! A) as [tA|] eqn:HΓA.
  2:{ apply (ginv_lookup_None st Γ A Hdom) in HΓA. congruence. }
  destruct (Γ !! B) as [tB|] eqn:HΓB.
  2:{ apply (ginv_lookup_None st Γ B Hdom) in HΓB. congruence. }
  destruct (Hown _ _ HΓA) as [HoA HordA].
  destruct (Hown _ _ HΓB) as [HoB HordB].
  assert (Hnd : NoDup (addrs tA ++ addrs tB)).
  { apply NoDup_app. split_and!; [apply HoA| |apply HoB].
    intros a Ha1 Ha2. apply Hne. by eapply Hsep. }
  pose proof (repr_size2 _ _ _ (proj1 (proj2 HoA)) (proj1 (proj2 HoB)) Hnd)
    as Hsz.
  pose proof (merge_pq_spec st A B tA tB HoA HoB Hne Hnd) as Hspec.
  destruct (tmerge'_Done tA tB) as [t' Hm]. rewrite Hm in Hspec.
  destruct Hspec as (m' & Hrun & Hrepr' & Hnd' & Hframe & Hdom').
  pose proof (tmerge_size _ _ _ _ Hm) as Hsz'.
  pose proof (heap_ordered_tmerge _ _ _ _ HordA HordB Hm) as Hord'.
  set (st' := mkState m' _) in Hrun.
  assert (HoA' : owns st' A t').
  { split_and!; simpl; [|done..].
    by rewrite lookup_insert_ne, lookup_insert_eq. }
  assert (HoB' : owns st' B Leaf).
  { split_and!; simpl; [by rewrite lookup_insert_eq|done|constructor]. }
  assert (Hsmall' : (Z.of_nat (tsize t') < size_modulus)%Z) by lia.
  exists tA, tB, t', st'. split_and!; try done.
  - by apply tmerge_elems in Hm.
  - by apply tmerge_addrs in Hm.
  - rewrite (run_size st' A t' HoA' Hsmall'). do 2 f_equal.
    destruct HoA as (HqA & _). destruct HoB as (HqB & _).
    rewrite HA in HqA. rewrite HB in HqB.
    injection HqA as ->. injection HqB as ->. simpl.
    rewrite !wrap_small by lia. lia.
  - simpl. by rewrite lookup_insert_eq.
  - by apply (run_size st' B Leaf).
  - destruct (drain_spec st' A t' HoA' Hord' Hsmall')
      as (xs & st'' & Hd & Hperm & Hsorted & _).
    exists xs, st''. split_and!; [done| |done].
    by rewrite Hperm, (tmerge_elems _ _ _ _ Hm).
Qed.

End Total.

(** ** Deep copies *)

Lemma drain_result st q t :
  owns st q t → (Z.of_nat (tsize t) < size_modulus)%Z →
  (drain q st).1 = tdrain (S (tsize t)) t.
Proof.
  intros Hown Hsmall. pose proof Hown as (_ & Hrepr & Hnd).
  pose proof (repr_size _ _ Hrepr Hnd) as Hsz.
  destruct (drain_loop_spec (S (base.size (mem st))) st q t Hown Hsmall)
    as [Hres _].
  unfold drain. destruct st as [m o]. rewrite run_budget.
  cbn [mem] in Hres, Hsz. rewrite Hres. apply tdrain_fuel; lia.
Qed.

Lemma mutation_frame st c q t tc mu :
  owns st c tc → owns st q t → c ≠ q →
  (∀ a, a ∈ addrs tc → a ∉ addrs t) →
  ∃ tc', owns (run_mutation c mu st).2 c tc'
    ∧ owns (run_mutation c mu st).2 q t
    ∧ (∀ a, a ∈ addrs tc' → a ∉ addrs t).
Proof.
  intros Hoc Hoq Hne Hdisj.
  assert (Hsame : ∀ res, run_mutation c mu st = (res, st) →
    ∃ tc', owns (run_mutation c mu st).2 c tc'
      ∧ owns (run_mutation c mu st).2 q t
      ∧ (∀ a, a ∈ addrs tc' → a ∉ addrs t)).
  { intros res ->. by exists tc. }
  destruct mu as [e|]; simpl in *.
  - pose proof (push_spec st c tc e Hoc) as Hspec. simpl in Hspec.
    destruct (tmerge' tc (leaf _ e)) as [t'|ex| |] eqn:Hm; [| |done..].
    2:{ by eapply Hsame. }
    destruct Hspec as (m' & Hrun & Hrepr' & Hnd' & Hframe & Hdom').
    rewrite Hrun. simpl. pose proof (tmerge_addrs _ _ _ _ Hm) as Hperm.
    pose proof (owns_fresh _ _ _ Hoq) as Hfresh.
    destruct Hoq as (Hq & Hreprq & Hndq).
    exists t'. split_and!.
    + split_and!; simpl; [by rewrite lookup_insert_eq|done..].
    + split_and!; simpl; [by rewrite lookup_insert_ne| |done].
      eapply repr_agree; [|done]. intros a Ha. apply Hframe.
      rewrite not_elem_of_cons. split; [by intros ->|].
      intros Ha'. by eapply Hdisj.
    + intros a. rewrite Hperm, elem_of_app. simpl.
      rewrite list_elem_of_singleton. intros [Ha| ->]; [by apply Hdisj|done].
  - pose proof (pop_spec st c tc Hoc) as Hspec.
    destruct tc as [|a l x n r]; [by eapply Hsame|].
    destruct (wrap _ =? 0)%Z; [by eapply Hsame|].
    destruct (tmerge' l r) as [t'|ex| |] eqn:Hm; [| |done..].
    2:{ by eapply Hsame. }
    destruct Hspec as (m' & Hrun & Hrepr' & Hnd' & Hframe & Hdom').
    rewrite Hrun. simpl. pose proof (tmerge_addrs _ _ _ _ Hm) as Hperm.
    destruct Hoq as (Hq & Hreprq & Hndq).
    exists t'. split_and!.
    + split_and!; simpl; [by rewrite lookup_insert_eq|done..].
    + split_and!; simpl; [by rewrite lookup_insert_ne| |done].
      eapply repr_agree; [|done]. intros b Hb. apply Hframe.
      intros Hb'. by eapply Hdisj.
    + intros b. rewrite Hperm. intros Hb. apply Hdisj. simpl. by right.
Qed.

Lemma mutations_frame st c q t tc mus :
  owns st c tc → owns st q t → c ≠ q →
  (∀ a, a ∈ addrs tc → a ∉ addrs t) →
  owns (run_mutations c mus st) q t.
Proof.
  revert st tc. induction mus as [|mu mus IH]; intros st tc Hoc Hoq Hne Hdisj.
  { done. }
  simpl. destruct (mutation_frame st c q t tc mu Hoc Hoq Hne Hdisj)
    as (tc' & Hoc' & Hoq' & Hdisj').
  by eapply (IH _ tc').
Qed.

(** C8. In any reachable state, copy-constructing a new queue [c] from a
    queue [q] succeeds and leaves [q] as it was.  The copy owns a tree with
    the same data, the same child structure and the same stored npl at
    every node, made of nodes that were not allocated before, none shared
    with [q].  Both queues report the same size and draining either yields
    the same sequence.  Whatever pushes and pops are then applied to the
    copy, [q] still owns the same tree, reports the same size and drains to
    the same sequence. *)
Theorem copy_is_deep st q c pq :
  reachable st → objs st !! q = Some pq → c ≠ q →
  (Z.of_nat (base.size (mem st)) < size_modulus)%Z →
  ∃ t tc st1,
    owns st q t
    ∧ copy_construct c q st = (Done tt, st1)
    ∧ owns st1 q t
    ∧ owns st1 c tc
    ∧ erase tc = erase t
    ∧ (∀ a, a ∈ addrs tc → (a ∉ dom (mem st)) ∧ (a ∉ addrs t))
    ∧ size c st1 = (Done (sz pq), st1)
    ∧ size q st1 = (Done (sz pq), st1)
    ∧ (drain c st1).1 = (drain q st1).1
    ∧ (drain q st1).1 = (drain q st).1
    ∧ completes (drain q st1).1
    ∧ (∀ mus, let st2 := run_mutations c mus st1 in
         owns st2 q t
         ∧ size q st2 = (Done (sz pq), st2)
         ∧ (drain q st2).1 = (drain q st1).1).
Proof.
  intros Hreach Hq Hne Hroom.
  destruct (reachable_owns (λ _, True) st q pq) as (t & Hown & _); [|done..|].
  { by split. }
  pose proof Hown as (Hq' & Hrepr & Hnd).
  pose proof (repr_size _ _ Hrepr Hnd) as Hsz.
  assert (Hsmall : (Z.of_nat (tsize t) < size_modulus)%Z) by lia.
  destruct (copy_construct_spec st c q t Hown Hne)
    as (tc & m' & Hrun & Hrepr' & Hnd' & Her & Hfresh & Hsub & Hdom').
  set (st1 := mkState m' _) in Hrun.
  assert (Hoq1 : owns st1 q t).
  { split_and!; simpl; [by rewrite lookup_insert_ne| |done].
    by eapply repr_mono. }
  assert (Hoc1 : owns st1 c tc).
  { split_and!; simpl; [by rewrite lookup_insert_eq|done..]. }
  assert (Hdisj : ∀ a, a ∈ addrs tc → a ∉ addrs t).
  { intros a Ha Ha'. apply (Hfresh a Ha). by eapply repr_dom. }
  pose proof (erase_tsize _ _ Her) as Hszc.
  assert (Hpq : sz pq = Z.of_nat (tsize t)).
  { rewrite Hq in Hq'. injection Hq' as ->. simpl. apply wrap_small. lia. }
  assert (Hdq : ∀ st0, owns st0 q t → (drain q st0).1 = tdrain (S (tsize t)) t).
  { intros st0 Ho. by apply drain_result. }
  exists t, tc, st1. split_and!; try done.
  - intros a Ha. split; [by apply Hfresh|by apply Hdisj].
  - rewrite Hpq, <-Hszc. apply run_size; [done|lia].
  - rewrite Hpq. by apply run_size.
  - rewrite (Hdq st1 Hoq1), (drain_result st1 c tc Hoc1) by lia.
    rewrite Hszc, <-(tdrain_erase _ tc), Her. apply tdrain_erase.
  - by rewrite (Hdq st1 Hoq1), (Hdq st Hown).
  - rewrite (Hdq st1 Hoq1).
    pose proof (tdrain_no_fault (S (tsize t)) t) as Hnf.
    pose proof (tdrain_no_timeout (S (tsize t)) t (Nat.lt_succ_diag_r _)) as Hnt.
    by destruct (tdrain (S (tsize t)) t).
  - intros mus st2.
    pose proof (mutations_frame st1 c q t tc mus Hoc1 Hoq1 Hne Hdisj) as Ho2.
    split_and!; [done| |].
    + rewrite Hpq. by apply run_size.
    + by rewrite (Hdq st2 Ho2), (Hdq st1 Hoq1).
Qed.

(** ** Further properties of the class, for every comparator *)

(** The store fixes the tree below a pointer. *)
Lemma repr_lookup m1 m2 t :
  repr m1 t → repr m2 t → ∀ a, a ∈ addrs t → m1 !! a = m2 !! a.
Proof.
  induction t as [|b l IHl x n r IHr]; simpl.
  { intros _ _ a Ha. by apply elem_of_nil in Ha. }
  intros (Hb1 & Hl1 & Hr1) (Hb2 & Hl2 & Hr2) a.
  rewrite elem_of_cons, elem_of_app. intros [->|[Ha|Ha]].
  - by rewrite Hb1, Hb2.
  - by apply IHl.
  - by apply IHr.
Qed.

Lemma repr_unique m t t' : repr m t → repr m t' → ptr t = ptr t' → t = t'.
Proof.
  revert t'. induction t as [|a l IHl x n r IHr]; intros t'; simpl.
  { intros _ _ Hp. symmetry in Hp. apply ptr_None in Hp. by subst. }
  intros (Ha & Hl & Hr). destruct t' as [|a' l' x' n' r']; simpl; [done|].
  intros (Ha' & Hl' & Hr') [= <-]. rewrite Ha in Ha'.
  injection Ha' as <- Hpl Hpr <-.
  by rewrite (IHl l' Hl Hl' Hpl), (IHr r' Hr Hr' Hpr).
Qed.

Lemma owns_unique st q t t' : owns st q t → owns st q t' → t = t'.
Proof.
  intros (Hq & Hr & _) (Hq' & Hr' & _). rewrite Hq in Hq'.
  injection Hq' as Hp _. by eapply repr_unique.
Qed.

Lemma owns_exists st q pq :
  reachable st → objs st !! q = Some pq → ∃ t, owns st q t.
Proof.
  intros Hreach Hq.
  destruct (reachable_owns (λ _, True) st q pq trivial_invariant Hreach Hq)
    as (t & Ho & _).
  by exists t.
Qed.

(** In a reachable state two queue objects share no node. *)
Lemma reachable_disjoint st q1 q2 t1 t2 :
  reachable st → q1 ≠ q2 → owns st q1 t1 → owns st q2 t2 →
  ∀ a, a ∈ addrs t1 → a ∉ addrs t2.
Proof.
  intros Hreach Hne Ho1 Ho2 a Ha1 Ha2.
  destruct (reachable_ginv _ st trivial_invariant Hreach)
    as (Γ & Hdom & Hown & Hsep).
  assert (Hget : ∀ q t, owns st q t → Γ !! q = Some t).
  { intros q t Ho. destruct (Γ !! q) as [t'|] eqn:HΓ.
    - f_equal. eapply owns_unique; [|done]. by apply Hown.
    - apply (ginv_lookup_None st Γ q Hdom) in HΓ.
      destruct Ho as (Hq & _). congruence. }
  apply Hne. exact (Hsep q1 q2 t1 t2 a (Hget _ _ Ho1) (Hget _ _ Ho2) Ha1 Ha2).
Qed.

(** X1. [top()], [size()] and [empty()], the member functions declared
    [const], leave the program state as it is whatever they return or
    throw. *)
Theorem const_members_readonly st q :
  (top q st).2 = st ∧ (size q st).2 = st ∧ (empty q st).2 = st.
Proof.
  split_and!.
  - apply readonly_top.
  - apply readonly_get_sz.
  - apply readonly_empty.
Qed.

(** X2. In a reachable state with fewer than [2^64] nodes, [size()] returns
    the number of elements the queue holds, which is the number of nodes it
    owns, and [empty()] returns true exactly when the root pointer is null,
    which is exactly when the size field is 0. *)
Theorem size_counts_nodes st q pq :
  reachable st → objs st !! q = Some pq →
  (Z.of_nat (base.size (mem st)) < size_modulus)%Z →
  ∃ t,
    owns st q t
    ∧ size q st = (Done (Z.of_nat (length (elems t))), st)
    ∧ length (addrs t) = length (elems t)
    ∧ empty q st = (Done (bool_decide (root pq = None)), st)
    ∧ (root pq = None ↔ sz pq = 0%Z).
Proof.
  intros Hreach Hq Hroom.
  destruct (owns_exists st q pq Hreach Hq) as (t & Hown).
  pose proof Hown as (Hq' & Hrepr & Hnd).
  pose proof (repr_size _ _ Hrepr Hnd) as Hsz.
  assert (Hsmall : (Z.of_nat (tsize t) < size_modulus)%Z) by lia.
  pose proof (owns_wrap_small _ _ _ Hown Hsmall) as Hpq.
  rewrite Hq in Hpq. injection Hpq as ->.
  assert (Hiff : ptr t = None ↔ Z.of_nat (tsize t) = 0%Z).
  { destruct t; simpl; split; intros; try done; lia. }
  exists t. split_and!; [done| | | |done].
  - rewrite length_elems. destruct st as [m o]. unfold size.
    by rewrite (run_get_sz _ _ _ _ Hq).
  - by rewrite length_addrs, length_elems.
  - destruct st as [m o]. rewrite (run_empty _ _ _ _ Hq). simpl.
    do 2 f_equal. by destruct t.
Qed.

(** X3. In a reachable state the destructor returns, removes the queue
    object and releases exactly the nodes the queue owned: each of them once,
    and no other node is touched. *)
Theorem destructor_releases_nodes st q pq :
  reachable st → objs st !! q = Some pq →
  ∃ t st',
    owns st q t
    ∧ destroy q st = (Done tt, st')
    ∧ objs st' = delete q (objs st)
    ∧ dom (mem st') = dom (mem st) ∖ list_to_set (addrs t)
    ∧ (∀ a, a ∉ addrs t → mem st' !! a = mem st !! a)
    ∧ base.size (mem st') + length (elems t) = base.size (mem st).
Proof.
  intros Hreach Hq.
  destruct (owns_exists st q pq Hreach Hq) as (t & Hown).
  destruct (destroy_spec st q t Hown) as (m' & Hrun & Hgone & Hkeep).
  pose proof Hown as (_ & Hrepr & Hnd).
  assert (Hdom : dom m' = dom (mem st) ∖ list_to_set (addrs t)).
  { apply set_eq. intros a. rewrite elem_of_difference, elem_of_list_to_set.
    rewrite !elem_of_dom. destruct (decide (a ∈ addrs t)) as [Ha|Ha].
    - rewrite (Hgone a Ha). split; [by intros [? ?]|tauto].
    - rewrite (Hkeep a Ha). tauto. }
  exists t, (mkState m' (delete q (objs st))).
  split_and!; [done..|]. simpl.
  rewrite <-!size_dom, Hdom, length_elems, <-length_addrs.
  rewrite <-(size_list_to_set (C:=gset positive) (addrs t)) by done.
  assert (Hsub : list_to_set (addrs t) ⊆ dom (mem st)).
  { intros a Ha. apply elem_of_list_to_set in Ha. by eapply repr_dom. }
  pose proof (size_union_alt (list_to_set (addrs t) : gset positive)
                (dom (mem st))) as Hu.
  rewrite (subseteq_union_1_L _ _ Hsub) in Hu. lia.
Qed.

(** X4. Merging with an empty queue moves no node and calls no comparator:
    when the donor is empty the whole program state stays as it is, and when
    the receiver is empty it takes over the donor's root pointer and size
    while the store stays as it is. *)
Theorem merge_with_empty st q1 q2 pq1 pq2 :
  reachable st → q1 ≠ q2 →
  objs st !! q1 = Some pq1 → objs st !! q2 = Some pq2 →
  (root pq2 = None → merge_pq q1 q2 st = (Done tt, st))
  ∧ (root pq1 = None →
     merge_pq q1 q2 st
     = (Done tt,
        mkState (mem st) (<[q2 := mkPQ None 0%Z]> (<[q1 := pq2]> (objs st))))).
Proof.
  intros Hreach Hne Hq1 Hq2.
  destruct (owns_exists st q1 pq1 Hreach Hq1) as (t1 & Ho1).
  destruct (owns_exists st q2 pq2 Hreach Hq2) as (t2 & Ho2).
  pose proof (reachable_disjoint st q1 q2 t1 t2 Hreach Hne Ho1 Ho2) as Hdisj.
  assert (Hnd : NoDup (addrs t1 ++ addrs t2)).
  { apply NoDup_app. split_and!; [apply Ho1|done|apply Ho2]. }
  pose proof (merge_pq_spec st q1 q2 t1 t2 Ho1 Ho2 Hne Hnd) as Hspec.
  pose proof Ho1 as (Hq1' & Hr1 & _). pose proof Ho2 as (Hq2' & Hr2 & _).
  rewrite Hq1 in Hq1'. rewrite Hq2 in Hq2'.
  injection Hq1' as ->. injection Hq2' as ->. simpl.
  assert (Hsame : ∀ t m', repr m' t → repr (mem st) t →
    (∀ b, b ∉ addrs t1 ++ addrs t2 → m' !! b = mem st !! b) →
    addrs t ≡ₚ addrs t1 ++ addrs t2 → m' = mem st).
  { intros t m' Hrm' Hrm Hframe Hperm. apply map_eq. intros b.
    destruct (decide (b ∈ addrs t)) as [Hb|Hb].
    - by apply (repr_lookup m' (mem st) t).
    - apply Hframe. by rewrite <-Hperm. }
  split.
  - intros Hnull. apply ptr_None in Hnull. subst t2.
    rewrite tmerge'_Leaf_r in Hspec.
    destruct Hspec as (m' & Hrun & Hrepr' & _ & Hframe & _).
    rewrite Hrun. f_equal.
    rewrite (Hsame t1 m' Hrepr' Hr1 Hframe) by (simpl; by rewrite app_nil_r).
    destruct st as [m o]. simpl in *. f_equal.
    rewrite (insert_id o q1) by done. by rewrite insert_id.
  - intros Hnull. apply ptr_None in Hnull. subst t1.
    rewrite tmerge'_Leaf_l in Hspec.
    destruct Hspec as (m' & Hrun & Hrepr' & _ & Hframe & _).
    rewrite Hrun. f_equal.
    by rewrite (Hsame t2 m' Hrepr' Hr2 Hframe).
Qed.

Lemma owns_frame st st' q t :
  owns st q t → objs st' !! q = objs st !! q →
  (∀ a, a ∈ addrs t → mem st' !! a = mem st !! a) →
  owns st' q t.
Proof.
  intros (Hq & Hrepr & Hnd) Hobj Hmem. split_and!; [congruence| |done].
  by eapply repr_agree.
Qed.

(** A call leaves the fields and the nodes of every queue object it is not
    allowed to write as they were. *)
Lemma step_frame st c res st' q t :
  reachable st → owns st q t → q ∉ op_writes c →
  run_op c st = (res, st') → completes res →
  objs st' !! q = objs st !! q
  ∧ (∀ a, a ∈ addrs t → mem st' !! a = mem st !! a).
Proof.
  intros Hreach Hoq Hnw Hrun Hcomp.
  assert (Hsame : st' = st →
    objs st' !! q = objs st !! q
    ∧ (∀ a, a ∈ addrs t → mem st' !! a = mem st !! a)).
  { by intros ->. }
  assert (Hget : ∀ q', (objs st !! q' = None → (run_op c st).1 = Fault) →
    ∃ t', owns st q' t').
  { intros q' Hmiss. destruct (objs st !! q') as [pq'|] eqn:Hq'.
    - by eapply owns_exists.
    - exfalso. rewrite Hrun in Hmiss. simpl in Hmiss.
      rewrite Hmiss in Hcomp by done. done. }
  pose proof Hoq as (_ & Hrq & _).
  destruct c as [q'|q' o'|q'|q' o'|q'|q' e|q'|q'|q'|q' o']; simpl in *.
  - rewrite construct_spec in Hrun. injection Hrun as <- <-. simpl.
    split; [|done]. rewrite lookup_insert_ne; [done|set_solver].
  - assert (Hne : q' ≠ q) by set_solver.
    destruct (decide (q' = o')) as [<-|Hne'].
    { rewrite copy_construct_self in Hrun. injection Hrun as <- <-. simpl.
      split; [|done]. by rewrite lookup_insert_ne. }
    destruct (Hget o') as (t' & Ho'); [by apply copy_construct_missing|].
    destruct (copy_construct_spec st q' o' t' Ho' Hne')
      as (tc & m' & Hrun' & _ & _ & _ & _ & Hsub & _).
    rewrite Hrun' in Hrun. injection Hrun as <- <-. simpl.
    split; [by rewrite lookup_insert_ne|].
    intros a Ha. pose proof (repr_dom _ _ _ Hrq Ha) as Hin.
    apply elem_of_dom in Hin as [n Hn]. rewrite Hn.
    by apply (lookup_weaken _ _ _ _ Hn).
  - assert (Hne : q' ≠ q) by set_solver.
    destruct (Hget q') as (t' & Ho'); [by apply destroy_missing|].
    destruct (destroy_spec st q' t' Ho') as (m' & Hrun' & _ & Hkeep).
    rewrite Hrun' in Hrun. injection Hrun as <- <-. simpl.
    split; [by rewrite lookup_delete_ne|].
    intros a Ha. apply Hkeep. intros Ha'.
    by apply (reachable_disjoint st q' q t' t Hreach Hne Ho' Hoq a).
  - assert (Hne : q' ≠ q) by set_solver.
    destruct (decide (q' = o')) as [<-|Hne'].
    { rewrite assign_self in Hrun. injection Hrun as <- <-. done. }
    destruct (Hget q') as (t1 & Ho1); [by apply assign_missing_l|].
    destruct (Hget o') as (t2 & Ho2); [by apply (assign_missing_r st q' o' t1)|].
    destruct (assign_spec st q' o' t1 t2 Ho1 Ho2 Hne')
      as (tc & m' & Hrun' & _ & _ & _ & Hreuse & Hframe).
    { by apply (reachable_disjoint st q' o'). }
    rewrite Hrun' in Hrun. injection Hrun as <- <-. simpl.
    split; [by rewrite lookup_insert_ne|].
    pose proof (reachable_disjoint st q' q t1 t Hreach Hne Ho1 Hoq) as Hdisj.
    intros a Ha. apply Hframe.
    + intros Ha1. by apply (Hdisj a).
    + intros Hac. apply (Hdisj a); [|done]. apply Hreuse; [done|].
      by eapply repr_dom.
  - apply Hsame. eapply (readonly_snd (top q';; ret tt)); [|done].
    apply readonly_bind; [apply readonly_top|intros; apply readonly_ret].
  - assert (Hne : q' ≠ q) by set_solver.
    destruct (Hget q') as (t' & Ho'); [by apply push_missing|].
    pose proof (reachable_disjoint st q' q t' t Hreach Hne Ho' Hoq) as Hdisj.
    pose proof (push_spec st q' t' e Ho') as Hspec. simpl in Hspec.
    pose proof (owns_fresh _ _ _ Hoq) as Hfresh.
    destruct (tmerge' t' (leaf _ e)) as [t''|ex| |]; [| |done..].
    2:{ rewrite Hspec in Hrun. injection Hrun as <- <-. done. }
    destruct Hspec as (m' & Hrun' & _ & _ & Hframe & _).
    rewrite Hrun' in Hrun. injection Hrun as <- <-. simpl.
    split; [by rewrite lookup_insert_ne|].
    intros a Ha. apply Hframe. rewrite not_elem_of_cons.
    split; [by intros ->|]. intros Ha'. by apply (Hdisj a).
  - assert (Hne : q' ≠ q) by set_solver.
    destruct (Hget q') as (t' & Ho'); [by apply pop_missing|].
    pose proof (reachable_disjoint st q' q t' t Hreach Hne Ho' Hoq) as Hdisj.
    pose proof (pop_spec st q' t' Ho') as Hspec.
    destruct t' as [|b l x n r].
    { rewrite Hspec in Hrun. injection Hrun as <- <-. done. }
    destruct (wrap _ =? 0)%Z.
    { rewrite Hspec in Hrun. injection Hrun as <- <-. done. }
    destruct (tmerge' l r) as [t''|ex| |]; [| |done..].
    2:{ rewrite Hspec in Hrun. injection Hrun as <- <-. done. }
    destruct Hspec as (m' & Hrun' & _ & _ & Hframe & _).
    rewrite Hrun' in Hrun. injection Hrun as <- <-. simpl.
    split; [by rewrite lookup_insert_ne|].
    intros a Ha. apply Hframe. intros Ha'. by apply (Hdisj a).
  - apply Hsame. eapply (readonly_snd (size q';; ret tt)); [|done].
    apply readonly_bind; [apply readonly_get_sz|intros; apply readonly_ret].
  - apply Hsame. eapply (readonly_snd (empty q';; ret tt)); [|done].
    apply readonly_bind; [apply readonly_empty|intros; apply readonly_ret].
  - assert (Hne1 : q' ≠ q) by set_solver.
    assert (Hne2 : o' ≠ q) by set_solver.
    destruct (decide (q' = o')) as [<-|Hne'].
    { unfold merge_pq in Hrun. rewrite decide_True in Hrun by done.
      injection Hrun as <- <-. done. }
    destruct (Hget q') as (t1 & Ho1); [by apply merge_pq_missing_l|].
    destruct (Hget o') as (t2 & Ho2).
    { apply (merge_pq_missing_r st q' o' (obj_of t1) Hne'). apply Ho1. }
    pose proof (reachable_disjoint st q' q t1 t Hreach Hne1 Ho1 Hoq) as Hd1.
    pose proof (reachable_disjoint st o' q t2 t Hreach Hne2 Ho2 Hoq) as Hd2.
    assert (Hnd : NoDup (addrs t1 ++ addrs t2)).
    { apply NoDup_app. split_and!; [apply Ho1| |apply Ho2].
      by apply (reachable_disjoint st q' o'). }
    pose proof (merge_pq_spec st q' o' t1 t2 Ho1 Ho2 Hne' Hnd) as Hspec.
    destruct (tmerge' t1 t2) as [t''|ex| |]; [| |done..].
    2:{ rewrite Hspec in Hrun. injection Hrun as <- <-. done. }
    destruct Hspec as (m' & Hrun' & _ & _ & Hframe & _).
    rewrite Hrun' in Hrun. injection Hrun as <- <-. simpl.
    split; [by rewrite !lookup_insert_ne|].
    intros a Ha. apply Hframe. rewrite not_elem_of_app.
    split; intros Ha'; [by apply (Hd1 a)|by apply (Hd2 a)].
Qed.

(** X5. A call never touches a queue it is not applied to: in a reachable
    state, every queue object other than [this] (and other than the donor of
    a queue-to-queue merge) keeps its root pointer, its size and every one of
    its nodes, so it holds the same elements and drains to the same
    sequence. *)
Theorem other_queues_untouched st c res st' q pq :
  reachable st → objs st !! q = Some pq → q ∉ op_writes c →
  run_op c st = (res, st') → completes res →
  (Z.of_nat (base.size (mem st)) < size_modulus)%Z →
  ∃ t,
    owns st q t ∧ owns st' q t
    ∧ objs st' !! q = Some pq
    ∧ (∀ a, a ∈ addrs t → mem st' !! a = mem st !! a)
    ∧ (drain q st').1 = (drain q st).1.
Proof.
  intros Hreach Hq Hnw Hrun Hcomp Hroom.
  destruct (owns_exists st q pq Hreach Hq) as (t & Hown).
  destruct (step_frame st c res st' q t Hreach Hown Hnw Hrun Hcomp)
    as [Hobj Hmem].
  assert (Hown' : owns st' q t) by by apply (owns_frame st).
  pose proof Hown as (_ & Hrepr & Hnd).
  pose proof (repr_size _ _ Hrepr Hnd) as Hsz.
  exists t. split_and!; [done|done|congruence|done|].
  rewrite !(drain_result _ q t) by (done || lia). done.
Qed.








(** *** How deep [merge] nests *)

Lemma tmerge_rank_no_timeout fuel t1 t2 :
  leftist t1 → leftist t2 → (rank t1 + rank t2 < Z.of_nat fuel)%Z →
  tmerge fuel t1 t2 ≠ Timeout.
Proof.
  revert t1 t2. induction fuel as [|fuel IH]; intros t1 t2 Hl1 Hl2 Hlt.
  - destruct (leftist_rank_bound t1 Hl1), (leftist_rank_bound t2 Hl2). lia.
  - destruct t1 as [|a1 l1 x1 n1 r1], t2 as [|a2 l2 x2 n2 r2]; try done.
    pose proof Hl1 as (_ & Hn1 & _ & Hlr1). pose proof Hl2 as (_ & Hn2 & _ & Hlr2).
    cbn [rank] in Hlt. cbn [tmerge].
    destruct (comp x1 x2) as [[]|]; [| |done].
    + specialize (IH r2 (Br a1 l1 x1 n1 r1) Hlr2 Hl1).
      destruct (tmerge fuel r2 _); try done. apply IH. cbn [rank]. lia.
    + specialize (IH r1 (Br a2 l2 x2 n2 r2) Hlr1 Hl2).
      destruct (tmerge fuel r1 _); try done. apply IH. cbn [rank]. lia.
Qed.

Lemma tmerge_more_fuel fuel fuel' t1 t2 :
  fuel ≤ fuel' → tmerge fuel t1 t2 ≠ Timeout →
  tmerge fuel' t1 t2 = tmerge fuel t1 t2.
Proof.
  revert fuel' t1 t2. induction fuel as [|fuel IH]; intros fuel' t1 t2 Hle Hnt.
  { done. }
  destruct fuel' as [|fuel']; [lia|].
  destruct t1 as [|a1 l1 x1 n1 r1], t2 as [|a2 l2 x2 n2 r2]; try done.
  cbn [tmerge] in *. destruct (comp x1 x2) as [[]|]; [| |done].
  - rewrite (IH fuel' r2 (Br a1 l1 x1 n1 r1)); [done|lia|].
    intros Heq. by rewrite Heq in Hnt.
  - rewrite (IH fuel' r1 (Br a2 l2 x2 n2 r2)); [done|lia|].
    intros Heq. by rewrite Heq in Hnt.
Qed.

(** Once [merge] has enough fuel not to run out, more fuel changes neither
    its outcome nor the store it leaves. *)
Lemma merge_more_fuel fuel fuel' t1 t2 m o :
  repr m t1 → repr m t2 → NoDup (addrs t1 ++ addrs t2) →
  fuel ≤ fuel' → tmerge fuel t1 t2 ≠ Timeout →
  merge fuel' (ptr t1) (ptr t2) (mkState m o)
  = merge fuel (ptr t1) (ptr t2) (mkState m o)
  ∧ (merge fuel (ptr t1) (ptr t2) (mkState m o)).1 = omap ptr (tmerge fuel t1 t2).
Proof.
  intros Hr1 Hr2 Hnd Hle Hnt.
  pose proof (merge_refines fuel t1 t2 m o Hr1 Hr2 Hnd) as H1.
  pose proof (merge_refines fuel' t1 t2 m o Hr1 Hr2 Hnd) as H2.
  unfold merge_post in H1, H2. rewrite (tmerge_more_fuel fuel fuel') in H2 by done.
  destruct (tmerge fuel t1 t2) as [t|ex| |] eqn:Hpure; [| |done..].
  - destruct H1 as (m1 & Hrun1 & Hrepr1 & Hframe1 & _).
    destruct H2 as (m2 & Hrun2 & Hrepr2 & Hframe2 & _).
    rewrite Hrun1, Hrun2. split; [|done]. do 2 f_equal. apply map_eq. intros a.
    destruct (decide (a ∈ addrs t1 ++ addrs t2)) as [Ha|Ha].
    + apply (repr_lookup m2 m1 t); [done..|].
      by rewrite (tmerge_addrs _ _ _ _ Hpure).
    + by rewrite Hframe1, Hframe2.
  - by rewrite H1, H2.
Qed.

(** X8. The merge of two queues of a reachable state nests its recursive
    calls logarithmically deep, whatever the comparator does: the value
    [getNPL] reads at a root is at most the binary logarithm of the number
    of elements plus one, and [merge(root, other.root)] allowed to nest
    more deeply than the sum of the two values never exhausts the
    allowance; it then does exactly what it does without a bound (here:
    with the allowance of one call per allocated node). *)
Theorem merge_depth_logarithmic st q1 q2 pq1 pq2 :
  reachable st → q1 ≠ q2 →
  objs st !! q1 = Some pq1 → objs st !! q2 = Some pq2 →
  ∃ t1 t2 k1 k2,
    owns st q1 t1 ∧ owns st q2 t2
    ∧ getNPL (root pq1) st = (Done k1, st)
    ∧ getNPL (root pq2) st = (Done k2, st)
    ∧ (0 ≤ k1 ≤ Z.log2 (Z.of_nat (length (elems t1)) + 1))%Z
    ∧ (0 ≤ k2 ≤ Z.log2 (Z.of_nat (length (elems t2)) + 1))%Z
    ∧ ∀ fuel, (k1 + k2 < Z.of_nat fuel)%Z →
        (merge fuel (root pq1) (root pq2) st).1 ≠ Timeout
        ∧ (merge fuel (root pq1) (root pq2) st).1 ≠ Fault
        ∧ merge fuel (root pq1) (root pq2) st
          = merge (S (base.size (mem st))) (root pq1) (root pq2) st.
Proof.
  intros Hreach Hne Hq1 Hq2.
  destruct (reachable_owns leftist st q1 pq1 leftist_invariant Hreach Hq1)
    as (t1 & Ho1 & Hl1).
  destruct (reachable_owns leftist st q2 pq2 leftist_invariant Hreach Hq2)
    as (t2 & Ho2 & Hl2).
  assert (Hdisj : NoDup (addrs t1 ++ addrs t2)).
  { apply NoDup_app. split_and!; [apply Ho1| |apply Ho2].
    by apply (reachable_disjoint st q1 q2). }
  assert (Hnpl : ∀ t, repr (mem st) t → getNPL (ptr t) st = (Done (rank t), st)).
  { intros [|a l x n r]; [done|]. intros (Ha & _). unfold getNPL, bind, load.
    cbn [ptr]. by rewrite Ha. }
  assert (Hlog : ∀ t, leftist t →
    (0 ≤ rank t ≤ Z.log2 (Z.of_nat (length (elems t)) + 1))%Z).
  { intros t Hl. destruct (leftist_rank_bound t Hl) as [H0 Hb].
    split; [done|]. rewrite length_elems. apply Z.log2_le_pow2; lia. }
  pose proof Ho1 as (Hq1' & Hr1 & _). pose proof Ho2 as (Hq2' & Hr2 & _).
  rewrite Hq1 in Hq1'. injection Hq1' as ->.
  rewrite Hq2 in Hq2'. injection Hq2' as ->. cbn [root].
  exists t1, t2, (rank t1), (rank t2).
  split_and!; [done|done|by apply Hnpl|by apply Hnpl|by apply Hlog..|].
  intros fuel Hfuel.
  pose proof (tmerge_rank_no_timeout fuel t1 t2 Hl1 Hl2 Hfuel) as Hnt.
  pose proof (repr_size2 _ _ _ Hr1 Hr2 Hdisj) as Hsz.
  assert (Hnt' : tmerge (S (base.size (mem st))) t1 t2 ≠ Timeout).
  { apply tmerge_no_timeout. lia. }
  destruct st as [m o]. cbn [mem] in *.
  destruct (merge_more_fuel fuel (fuel `max` S (base.size m)) t1 t2 m o)
    as [Heq1 Hout]; [done|done|done|lia|done|].
  destruct (merge_more_fuel (S (base.size m)) (fuel `max` S (base.size m))
    t1 t2 m o) as [Heq2 _]; [done|done|done|lia|done|].
  split_and!.
  - rewrite Hout. by destruct (tmerge fuel t1 t2).
  - rewrite Hout. pose proof (tmerge_no_fault fuel t1 t2).
    by destruct (tmerge fuel t1 t2).
  - by rewrite <-Heq1, Heq2.
Qed.

Lemma owns_insert m o q t :
  repr m t → NoDup (addrs t) → owns (mkState m (<[q := obj_of t]> o)) q t.
Proof. intros. split_and!; simpl; [by rewrite lookup_insert_eq|done..]. Qed.

Lemma wrap_pred n :
  wrap (Z.of_nat (S n)) ≠ 0%Z →
  wrap (Z.of_nat n) = (wrap (Z.of_nat (S n)) - 1)%Z.
Proof.
  intros Hnz. replace (Z.of_nat n) with (Z.of_nat (S n) - 1)%Z by lia.
  rewrite <-wrap_wrap_sub. apply wrap_small.
  assert (0 ≤ wrap (Z.of_nat (S n)) < size_modulus)%Z; [|lia].
  unfold wrap. by apply Z.mod_pos_bound.
Qed.

(** ** Further properties of the order of the elements *)

Section Ordered.

Variable less : T → T → bool.
Hypothesis comp_total : ∀ x y, comp x y = Some (less x y).
Hypothesis less_swo : strict_weak_order less.

Lemma heap_ordered_nodes st t :
  repr (mem st) t → heap_ordered less t →
  ∀ a, a ∈ addrs t → node_heap_ordered less st a.
Proof.
  induction t as [|b l IHl x n r IHr]; intros Hrepr Hho a Ha.
  { by apply elem_of_nil in Ha. }
  destruct Hrepr as (Hb & Hrl & Hrr). destruct Hho as (Hgl & Hgr & Hhl & Hhr).
  cbn [addrs] in Ha. rewrite elem_of_cons, elem_of_app in Ha.
  destruct Ha as [->|[Ha|Ha]]; [|by apply IHl|by apply IHr].
  exists (mkNode x (ptr l) (ptr r) n). split; [done|]. cbn [left right data].
  intros c [Hc|Hc].
  - destruct l as [|al ll xl nl rl]; [done|]. injection Hc as <-.
    destruct Hrl as (Hal & _). eexists. split; [exact Hal|done].
  - destruct r as [|ar lr xr nr rr]; [done|]. injection Hc as <-.
    destruct Hrr as (Har & _). eexists. split; [exact Har|done].
Qed.

(** X9. The max-heap order is an invariant of the class under a comparator
    that computes a strict weak order: in every reachable state, at every
    node of every queue, the node's element is not less than the element of
    the node either child pointer leads to; and whenever [top()] returns,
    it returns an element of the queue that is not less than any element of
    the queue. *)
Theorem heap_order_invariant st q pq :
  reachable st → objs st !! q = Some pq →
  ∃ t, owns st q t
    ∧ heap_ordered less t
    ∧ (∀ a, a ∈ addrs t → node_heap_ordered less st a)
    ∧ (∀ x, top q st = (Done x, st) →
         x ∈ elems t ∧ ∀ y, y ∈ elems t → less x y = false).
Proof.
  intros Hreach Hq.
  destruct (reachable_heap_ordered less comp_total less_swo st q pq Hreach Hq)
    as (t & Ho & Hho).
  exists t. split_and!; [done|done| |].
  - apply heap_ordered_nodes; [apply Ho|done].
  - intros x Htop. rewrite (top_spec st q t Ho) in Htop.
    destruct t as [|a l y n r]; [done|].
    destruct (wrap _ =? 0)%Z; [done|]. injection Htop as ->.
    split; [by left|]. by apply (heap_ordered_max less less_swo a l x n r).
Qed.

(** The root of the tree [push(e)] builds: the new element when the old
    root is less than it, the old root otherwise. *)
Lemma tmerge'_leaf_root t a e t' :
  tmerge' t (leaf a e) = Done t' →
  ∃ b l n r, t' = Br b l (match t with
                          | Leaf => e
                          | Br _ _ x _ _ => if less x e then e else x
                          end) n r.
Proof using comp_total.
  destruct t as [|a1 l1 x1 n1 r1].
  { intros [= <-]. by eexists _, _, _, _. }
  unfold tmerge', leaf. cbn [tmerge]. rewrite comp_total.
  destruct (less x1 e).
  - destruct (tmerge _ _ _); [|done..]. intros [= <-].
    unfold join. destruct (_ <? _)%Z; by eexists _, _, _, _.
  - destruct (tmerge _ _ _); [|done..]. intros [= <-].
    unfold join. destruct (_ <? _)%Z; by eexists _, _, _, _.
Qed.

(** X10. [push(e)] under a comparator that never throws: it returns, it
    allocates exactly one node, the queue holds [e] in addition to what it
    held, its size grows by one, and [top()] afterwards is [e] if the queue
    was empty or its old top was less than [e], and the old top otherwise
    (an element equivalent to the old top does not displace it). *)
Theorem push_adds_one st q pq e :
  reachable st → objs st !! q = Some pq →
  (Z.of_nat (base.size (mem st)) + 1 < size_modulus)%Z →
  ∃ t t' st',
    owns st q t
    ∧ push q e st = (Done tt, st')
    ∧ owns st' q t'
    ∧ elems t' ≡ₚ e :: elems t
    ∧ addrs t' ≡ₚ fresh (dom (mem st)) :: addrs t
    ∧ dom (mem st') = {[fresh (dom (mem st))]} ∪ dom (mem st)
    ∧ (fresh (dom (mem st)) ∉ dom (mem st))
    ∧ size q st' = (Done (sz pq + 1)%Z, st')
    ∧ (root pq = None → top q st' = (Done e, st'))
    ∧ (∀ x, top q st = (Done x, st) →
         top q st' = (Done (if less x e then e else x), st')).
Proof using comp_total.
  intros Hreach Hq Hbound.
  destruct (owns_exists st q pq Hreach Hq) as (t & Ho).
  pose proof (push_spec st q t e Ho) as Hspec. cbn zeta in Hspec.
  set (a := fresh (dom (mem st))) in *.
  destruct (tmerge'_Done less comp_total t (leaf a e)) as (t' & Hpure).
  rewrite Hpure in Hspec. destruct Hspec as (m' & Hrun & Hrepr' & Hnd' & _ & Hdom).
  pose proof (tmerge_elems _ _ _ _ Hpure) as Hel.
  pose proof (tmerge_addrs _ _ _ _ Hpure) as Had.
  pose proof (tmerge_size _ _ _ _ Hpure) as Hsz. cbn [leaf tsize] in Hsz.
  pose proof Ho as (Hq' & Hrepr & Hnd).
  pose proof (repr_size _ _ Hrepr Hnd) as Hle.
  rewrite Hq in Hq'. injection Hq' as ->. cbn [root sz].
  set (st' := mkState m' (<[q := obj_of t']> (objs st))) in *.
  assert (Ho' : owns st' q t') by by apply owns_insert.
  assert (Htop : top q st' = (Done (match t with
                                    | Leaf => e
                                    | Br _ _ x _ _ => if less x e then e else x
                                    end), st')).
  { rewrite (top_spec st' q t' Ho').
    destruct (tmerge'_leaf_root t a e t' Hpure) as (b & l & n & r & Heq).
    rewrite (proj2 (Z.eqb_neq _ _)) by (rewrite wrap_small; lia).
    by rewrite Heq. }
  exists t, t', st'. split_and!; [done|done|done| | |done| | | |].
  - rewrite Hel. simpl. by rewrite Permutation_app_comm.
  - rewrite Had. simpl. by rewrite Permutation_app_comm.
  - apply is_fresh.
  - rewrite (run_size st' q t' Ho') by lia. do 2 f_equal.
    rewrite wrap_small; lia.
  - intros Hroot. by destruct t.
  - intros x Hx. rewrite (top_spec st q t Ho) in Hx.
    destruct t as [|a1 l1 x1 n1 r1]; [done|].
    destruct (wrap _ =? 0)%Z; [done|]. by injection Hx as ->.
Qed.

(** X11. [pop()] on a queue whose size is not zero, under a comparator that
    computes a strict weak order: it returns, it removes one occurrence of
    the element [top()] returned just before, which is not less than any
    element that stays, it frees exactly the old root node, and the size
    goes down by one. *)
Theorem pop_removes_top st q pq :
  reachable st → objs st !! q = Some pq → sz pq ≠ 0%Z →
  ∃ a x t t' st',
    owns st q t
    ∧ root pq = Some a
    ∧ top q st = (Done x, st)
    ∧ pop q st = (Done tt, st')
    ∧ owns st' q t'
    ∧ elems t ≡ₚ x :: elems t'
    ∧ (∀ y, y ∈ elems t' → less x y = false)
    ∧ addrs t ≡ₚ a :: addrs t'
    ∧ dom (mem st') = dom (mem st) ∖ {[a]}
    ∧ size q st' = (Done (sz pq - 1)%Z, st').
Proof using comp_total less_swo.
  intros Hreach Hq Hnz.
  destruct (reachable_heap_ordered less comp_total less_swo st q pq Hreach Hq)
    as (t & Ho & Hho).
  pose proof Ho as (Hq' & Hrepr & Hnd).
  rewrite Hq in Hq'. injection Hq' as ->. cbn [root sz] in *.
  destruct t as [|a l x n r]; [done|].
  pose proof (top_spec st q _ Ho) as Htop. pose proof (pop_spec st q _ Ho) as Hpop.
  cbn beta iota in Htop, Hpop.
  destruct (wrap _ =? 0)%Z eqn:Hz; [by apply Z.eqb_eq in Hz|].
  destruct (tmerge'_Done less comp_total l r) as (t' & Hpure).
  rewrite Hpure in Hpop. destruct Hpop as (m' & Hrun & Hrepr' & Hnd' & _ & Hdom).
  pose proof (tmerge_elems _ _ _ _ Hpure) as Hel.
  pose proof (tmerge_addrs _ _ _ _ Hpure) as Had.
  pose proof (tmerge_size _ _ _ _ Hpure) as Hsz.
  exists a, x, (Br a l x n r), t', (mkState m' (<[q := obj_of t']> (objs st))).
  split_and!; [done|done|done|done|by apply owns_insert| | | |done|].
  - cbn [elems]. by rewrite Hel.
  - intros y Hy. apply (heap_ordered_max less less_swo a l x n r Hho).
    cbn [elems]. right. by rewrite <-Hel.
  - cbn [addrs]. by rewrite Had.
  - unfold size. rewrite (run_get_sz _ _ q (obj_of t')) by by rewrite lookup_insert_eq.
    do 2 f_equal. cbn [sz obj_of]. rewrite Hsz. by apply wrap_pred.
Qed.

(** X12. Pushing an element that the old top is less than (or pushing onto
    an empty queue) and popping it again restores the whole program state:
    the queue, every node it had, and the set of allocated addresses. *)
Theorem push_pop_round_trip st q pq e :
  reachable st → objs st !! q = Some pq →
  (Z.of_nat (base.size (mem st)) + 1 < size_modulus)%Z →
  (∀ x, top q st = (Done x, st) → less x e = true) →
  ∃ st1, push q e st = (Done tt, st1)
    ∧ top q st1 = (Done e, st1)
    ∧ pop q st1 = (Done tt, st).
Proof using comp_total.
  clear less_swo. intros Hreach Hq Hbound Hless.
  destruct (owns_exists st q pq Hreach Hq) as (t & Ho).
  pose proof (push_spec st q t e Ho) as Hspec. cbn zeta in Hspec.
  pose proof (owns_fresh st q t Ho) as Hfresh_t.
  assert (Hfresh : mem st !! fresh (dom (mem st)) = None).
  { apply not_elem_of_dom, is_fresh. }
  set (a := fresh (dom (mem st))) in *.
  pose proof Ho as (Hq' & Hrepr & Hnd).
  pose proof (repr_size _ _ Hrepr Hnd) as Hle.
  assert (Hpure : tmerge' t (leaf a e) = Done (join a Leaf e t)).
  { destruct t as [|a1 l1 x1 n1 r1]; [done|].
    pose proof (top_spec st q _ Ho) as Htop. cbn beta iota in Htop.
    cbn [tsize] in Htop, Hle.
    rewrite (proj2 (Z.eqb_neq _ _)) in Htop by (rewrite wrap_small; lia).
    unfold tmerge', leaf. cbn [tmerge]. rewrite comp_total, (Hless x1 Htop).
    by destruct (tsize _ + _). }
  rewrite Hpure in Hspec.
  destruct Hspec as (m' & Hrun & Hrepr' & Hnd' & Hframe & Hdom).
  set (st1 := mkState m' (<[q := obj_of (join a Leaf e t)]> (objs st))) in *.
  assert (Ho1 : owns st1 q (join a Leaf e t)) by by apply owns_insert.
  pose proof (top_spec st1 q _ Ho1) as Htop1.
  pose proof (pop_spec st1 q _ Ho1) as Hpop1.
  assert (Hshape : ∃ l n r, join a Leaf e t = Br a l e n r
                            ∧ tmerge' l r = Done t).
  { unfold join. destruct (_ <? _)%Z.
    - eexists _, _, _. split; [done|]. apply tmerge'_Leaf_r.
    - eexists _, _, _. split; [done|]. apply tmerge'_Leaf_l. }
  destruct Hshape as (l & n & r & Hshape & Hback).
  assert (Hsz : tsize (join a Leaf e t) = S (tsize t)) by by rewrite tsize_join.
  assert (Hperm : addrs (join a Leaf e t) ≡ₚ a :: addrs t).
  { rewrite (tmerge_addrs _ _ _ _ Hpure). simpl. by rewrite Permutation_app_comm. }
  rewrite Hsz in Htop1, Hpop1. rewrite Hshape in Htop1, Hpop1, Hperm.
  rewrite (proj2 (Z.eqb_neq _ _)) in Htop1, Hpop1 by (rewrite wrap_small; lia).
  rewrite Hback in Hpop1.
  destruct Hpop1 as (m2 & Hrun2 & Hrepr2 & _ & Hframe2 & Hdom2).
  exists st1. split_and!; [done|done|]. rewrite Hrun2. f_equal.
  destruct st as [m o]. cbn [mem objs] in *. unfold st1. cbn [objs]. f_equal.
  - apply map_eq. intros b. destruct (decide (b = a)) as [->|Hba].
    { rewrite Hfresh. apply not_elem_of_dom. rewrite Hdom2. set_solver. }
    destruct (decide (b ∈ addrs t)) as [Hbt|Hbt].
    { by apply (repr_lookup m2 m t). }
    rewrite Hframe2, Hframe; [done| |].
    + rewrite not_elem_of_cons. done.
    + rewrite Hperm, not_elem_of_cons. done.
  - rewrite insert_insert_eq. by apply insert_id.
Qed.

End Ordered.



End PriorityQueue.

(** * Concrete instances

    Integers under [<], the ordering of [std::less<int>], and a comparator
    that throws when asked to compare 1 with 2. *)

Definition zcomp (x y : Z) : option bool := Some (x <? y)%Z.

Definition flaky (x y : Z) : option bool :=
  if ((x =? 1) && (y =? 2) || (x =? 2) && (y =? 1))%Z
  then None else Some (x <? y)%Z.

Lemma zcomp_total x y : zcomp x y = Some (x <? y)%Z.
Proof. done. Qed.

Lemma Zltb_swo : strict_weak_order Z.ltb.
Proof.
  split.
  - intros x. apply Z.ltb_irrefl.
  - intros x y z. rewrite !Z.ltb_lt. lia.
  - intros x y z. rewrite !Z.ltb_ge. lia.
Qed.

(** A state with one empty queue at address 1. *)
Definition fresh_queue : state :=
  default init (exec zcomp [OpConstruct 1] init).

(** The queues of the worked example: [A] at address 1 holds 1, 5, 3 and [B]
    at address 2 holds 4, 2. *)
Definition two_queues : state :=
  default init
    (exec zcomp
       [OpConstruct 1; OpPush 1 1; OpPush 1 5; OpPush 1 3;
        OpConstruct 2; OpPush 2 4; OpPush 2 2]%Z init).

(** Under [flaky]: queue 1 holds 1, queue 2 holds 2, and queue 3 holds 5 at
    the root with children 1 and 2, which were never compared. *)
Definition flaky_queues : state :=
  default init
    (exec flaky
       [OpConstruct 1; OpPush 1 1; OpConstruct 2; OpPush 2 2;
        OpConstruct 3; OpPush 3 1; OpPush 3 5; OpPush 3 2]%Z init).

(** Queue 1 holds 1 and 5, queue 2 is empty. *)
Definition one_and_empty : state :=
  default init
    (exec zcomp [OpConstruct 1; OpPush 1 1; OpPush 1 5; OpConstruct 2]%Z init).


Lemma top_after_pushes_witness :
  reachable zcomp fresh_queue
  ∧ objs fresh_queue !! 1%positive = Some (mkPQ None 0%Z)
  ∧ [1; 5; 3]%Z ≠ []
  ∧ (Z.of_nat (base.size (mem fresh_queue) + length [1; 5; 3]%Z)
     < size_modulus)%Z
  ∧ ∃ t st1 m,
      owns fresh_queue 1 t
      ∧ push_all zcomp 1 [1; 5; 3]%Z fresh_queue = (Done tt, st1)
      ∧ top 1 st1 = (Done m, st1)
      ∧ m ∈ elems t ++ [1; 5; 3]%Z
      ∧ (∀ x, x ∈ elems t ++ [1; 5; 3]%Z → (m <? x)%Z = false)
      ∧ (root (mkPQ None 0%Z) = None →
         m ∈ [1; 5; 3]%Z ∧ ∀ x, x ∈ [1; 5; 3]%Z → (m <? x)%Z = false).
Proof.
  assert (H1 : reachable zcomp fresh_queue) by apply exec_default_reachable.
  assert (H2 : objs fresh_queue !! 1%positive = Some (mkPQ None 0%Z))
    by (vm_compute; reflexivity).
  assert (H3 : [1; 5; 3]%Z ≠ []) by discriminate.
  assert (H4 : (Z.of_nat (base.size (mem fresh_queue) + length [1; 5; 3]%Z)
                < size_modulus)%Z) by (vm_compute; reflexivity).
  split_and!; [exact H1|exact H2|exact H3|exact H4|].
  exact (top_after_pushes zcomp Z.ltb zcomp_total Zltb_swo
           fresh_queue 1 _ _ H1 H2 H3 H4).
Defined.

Lemma drain_sorted_witness :
  reachable zcomp two_queues
  ∧ objs two_queues !! 1%positive = Some (mkPQ (Some 2%positive) 3%Z)
  ∧ (Z.of_nat (base.size (mem two_queues)) < size_modulus)%Z
  ∧ (drain zcomp 1 two_queues).1 = Done [5; 3; 1]%Z
  ∧ ∃ t xs st1,
      owns two_queues 1 t
      ∧ drain zcomp 1 two_queues = (Done xs, st1)
      ∧ xs ≡ₚ elems t
      ∧ StronglySorted (not_less Z.ltb) xs
      ∧ size 1 st1 = (Done 0%Z, st1)
      ∧ (∀ k, k ≤ length xs →
           ∃ stk, pop_n zcomp k 1 two_queues = (Done tt, stk)
                  ∧ size 1 stk = (Done (Z.of_nat (length xs - k)), stk)).
Proof.
  assert (H1 : reachable zcomp two_queues) by apply exec_default_reachable.
  assert (H2 : objs two_queues !! 1%positive
               = Some (mkPQ (Some 2%positive) 3%Z))
    by (vm_compute; reflexivity).
  assert (H3 : (Z.of_nat (base.size (mem two_queues)) < size_modulus)%Z)
    by (vm_compute; reflexivity).
  split_and!; [exact H1|exact H2|exact H3|vm_compute; reflexivity|].
  exact (drain_sorted zcomp Z.ltb zcomp_total Zltb_swo two_queues 1 _ H1 H2 H3).
Defined.

(** The worked example: merging 1, 5, 3 with 4, 2 gives size 5, top 5 and
    the drain order 5, 4, 3, 2, 1, and leaves the donor empty. *)
Lemma merge_queues_witness :
  reachable zcomp two_queues
  ∧ 1%positive ≠ 2%positive
  ∧ objs two_queues !! 1%positive = Some (mkPQ (Some 2%positive) 3%Z)
  ∧ objs two_queues !! 2%positive = Some (mkPQ (Some 4%positive) 2%Z)
  ∧ (Z.of_nat (base.size (mem two_queues)) < size_modulus)%Z
  ∧ (size 1 (merge_pq zcomp 1 2 two_queues).2).1 = Done 5%Z
  ∧ (top 1 (merge_pq zcomp 1 2 two_queues).2).1 = Done 5%Z
  ∧ (drain zcomp 1 (merge_pq zcomp 1 2 two_queues).2).1
    = Done [5; 4; 3; 2; 1]%Z
  ∧ (size 2 (merge_pq zcomp 1 2 two_queues).2).1 = Done 0%Z
  ∧ ∃ tA tB t' st',
      owns two_queues 1 tA ∧ owns two_queues 2 tB
      ∧ merge_pq zcomp 1 2 two_queues = (Done tt, st')
      ∧ owns st' 1 t'
      ∧ elems t' ≡ₚ elems tA ++ elems tB
      ∧ addrs t' ≡ₚ addrs tA ++ addrs tB
      ∧ size 1 st' = (Done (3 + 2)%Z, st')
      ∧ objs st' !! 2%positive = Some (mkPQ None 0%Z)
      ∧ owns st' 2 Leaf
      ∧ size 2 st' = (Done 0%Z, st')
      ∧ dom (mem st') = dom (mem two_queues)
      ∧ (∃ xs st'', drain zcomp 1 st' = (Done xs, st'')
           ∧ xs ≡ₚ elems tA ++ elems tB
           ∧ StronglySorted (not_less Z.ltb) xs).
Proof.
  assert (H1 : reachable zcomp two_queues) by apply exec_default_reachable.
  assert (H2 : 1%positive ≠ 2%positive) by discriminate.
  assert (H3 : objs two_queues !! 1%positive
               = Some (mkPQ (Some 2%positive) 3%Z))
    by (vm_compute; reflexivity).
  assert (H4 : objs two_queues !! 2%positive
               = Some (mkPQ (Some 4%positive) 2%Z))
    by (vm_compute; reflexivity).
  assert (H5 : (Z.of_nat (base.size (mem two_queues)) < size_modulus)%Z)
    by (vm_compute; reflexivity).
  split_and!; [exact H1|exact H2|exact H3|exact H4|exact H5|
               vm_compute; reflexivity..|].
  exact (merge_queues zcomp Z.ltb zcomp_total Zltb_swo
           two_queues 1 2 _ _ H1 H2 H3 H4 H5).
Defined.


Lemma push_merge_strong_exception_safety_witness :
  let a := fresh (dom (mem flaky_queues)) in
  let st0 :=
    mkState (<[a := mkNode 2%Z None None 1%Z]> (mem flaky_queues))
            (objs flaky_queues) in
  (objs flaky_queues !! 1%positive = Some (mkPQ (Some 1%positive) 1%Z)
   ∧ merge flaky (S (base.size (mem st0))) (Some 1%positive) (Some a) st0
     = (Throw foreign_failure, st0)
   ∧ push flaky 1 2%Z flaky_queues = (Throw foreign_failure, flaky_queues)
   ∧ a ∉ dom (mem flaky_queues))
  ∧ (1%positive ≠ 2%positive
     ∧ objs flaky_queues !! 2%positive = Some (mkPQ (Some 2%positive) 1%Z)
     ∧ merge flaky (S (base.size (mem flaky_queues)))
         (Some 1%positive) (Some 2%positive) flaky_queues
       = (Throw foreign_failure, flaky_queues)
     ∧ merge_pq flaky 1 2 flaky_queues
       = (Throw foreign_failure, flaky_queues)).
Proof.
  intros a st0.
  destruct (push_merge_strong_exception_safety flaky flaky_queues
              foreign_failure) as (Hpush & Hmerge & _ & _).
  assert (H1 : objs flaky_queues !! 1%positive
               = Some (mkPQ (Some 1%positive) 1%Z))
    by (vm_compute; reflexivity).
  assert (H2 : objs flaky_queues !! 2%positive
               = Some (mkPQ (Some 2%positive) 1%Z))
    by (vm_compute; reflexivity).
  assert (H3 : merge flaky (S (base.size (mem st0)))
                 (Some 1%positive) (Some a) st0
               = (Throw foreign_failure, st0))
    by (vm_compute; reflexivity).
  assert (H4 : merge flaky (S (base.size (mem flaky_queues)))
                 (Some 1%positive) (Some 2%positive) flaky_queues
               = (Throw foreign_failure, flaky_queues))
    by (vm_compute; reflexivity).
  assert (H5 : 1%positive ≠ 2%positive) by discriminate.
  split.
  - destruct (Hpush 1%positive _ 2%Z st0 H1 H3) as [Hp Ha].
    split_and!; [exact H1|exact H3|exact Hp|exact Ha].
  - split_and!; [exact H5|exact H2|exact H4|].
    exact (Hmerge 1%positive 2%positive _ _ _ H5 H1 H2 H4).
Defined.

Lemma empty_queue_raises_witness :
  size 1 fresh_queue = (Done 0%Z, fresh_queue)
  ∧ top 1 fresh_queue = (Throw container_is_empty, fresh_queue)
  ∧ pop zcomp 1 fresh_queue = (Throw container_is_empty, fresh_queue).
Proof.
  assert (H1 : size 1 fresh_queue = (Done 0%Z, fresh_queue))
    by (vm_compute; reflexivity).
  split; [exact H1|].
  exact (proj1 (empty_queue_raises zcomp fresh_queue 1) H1).
Defined.

Lemma pop_strong_exception_safety_witness :
  objs flaky_queues !! 3%positive = Some (mkPQ (Some 4%positive) 3%Z)
  ∧ sz (mkPQ (Some 4%positive) 3%Z) ≠ 0%Z
  ∧ root (mkPQ (Some 4%positive) 3%Z) = Some 4%positive
  ∧ mem flaky_queues !! 4%positive
    = Some (mkNode 5%Z (Some 3%positive) (Some 5%positive) 2%Z)
  ∧ merge flaky (S (base.size (mem flaky_queues)))
      (Some 3%positive) (Some 5%positive) flaky_queues
    = (Throw foreign_failure, flaky_queues)
  ∧ pop flaky 3 flaky_queues = (Throw foreign_failure, flaky_queues)
  ∧ (∀ ex' st',
       pop flaky 3 flaky_queues = (Throw ex', st') → st' = flaky_queues).
Proof.
  assert (H1 : objs flaky_queues !! 3%positive
               = Some (mkPQ (Some 4%positive) 3%Z))
    by (vm_compute; reflexivity).
  assert (H2 : sz (mkPQ (Some 4%positive) 3%Z) ≠ 0%Z) by discriminate.
  assert (H3 : root (mkPQ (Some 4%positive) 3%Z) = Some 4%positive)
    by reflexivity.
  assert (H4 : mem flaky_queues !! 4%positive
               = Some (mkNode 5%Z (Some 3%positive) (Some 5%positive) 2%Z))
    by (vm_compute; reflexivity).
  assert (H5 : merge flaky (S (base.size (mem flaky_queues)))
                 (Some 3%positive) (Some 5%positive) flaky_queues
               = (Throw foreign_failure, flaky_queues))
    by (vm_compute; reflexivity).
  split_and!; [exact H1|exact H2|exact H3|exact H4|exact H5|..];
    apply (pop_strong_exception_safety flaky flaky_queues 3 _ 4%positive _
             foreign_failure flaky_queues H1 H2 H3 H4 H5).
Defined.

Lemma copy_is_deep_witness :
  reachable zcomp two_queues
  ∧ objs two_queues !! 1%positive = Some (mkPQ (Some 2%positive) 3%Z)
  ∧ 3%positive ≠ 1%positive
  ∧ (Z.of_nat (base.size (mem two_queues)) < size_modulus)%Z
  ∧ (drain zcomp 3 (copy_construct 3 1 two_queues).2).1 = Done [5; 3; 1]%Z
  ∧ ∃ t tc st1,
      owns two_queues 1 t
      ∧ copy_construct 3 1 two_queues = (Done tt, st1)
      ∧ owns st1 1 t
      ∧ owns st1 3 tc
      ∧ erase tc = erase t
      ∧ (∀ a, a ∈ addrs tc → (a ∉ dom (mem two_queues)) ∧ (a ∉ addrs t))
      ∧ size 3 st1 = (Done 3%Z, st1)
      ∧ size 1 st1 = (Done 3%Z, st1)
      ∧ (drain zcomp 3 st1).1 = (drain zcomp 1 st1).1
      ∧ (drain zcomp 1 st1).1 = (drain zcomp 1 two_queues).1
      ∧ completes (drain zcomp 1 st1).1
      ∧ (∀ mus, let st2 := run_mutations zcomp 3 mus st1 in
           owns st2 1 t
           ∧ size 1 st2 = (Done 3%Z, st2)
           ∧ (drain zcomp 1 st2).1 = (drain zcomp 1 st1).1).
Proof.
  assert (H1 : reachable zcomp two_queues) by apply exec_default_reachable.
  assert (H2 : objs two_queues !! 1%positive
               = Some (mkPQ (Some 2%positive) 3%Z))
    by (vm_compute; reflexivity).
  assert (H3 : 3%positive ≠ 1%positive) by discriminate.
  assert (H4 : (Z.of_nat (base.size (mem two_queues)) < size_modulus)%Z)
    by (vm_compute; reflexivity).
  split_and!; [exact H1|exact H2|exact H3|exact H4|vm_compute; reflexivity|].
  exact (copy_is_deep zcomp two_queues 1 3 _ H1 H2 H3 H4).
Defined.

Lemma self_merge_noop_witness :
  merge_pq zcomp 1 1 two_queues = (Done tt, two_queues)
  ∧ size 1 (merge_pq zcomp 1 1 two_queues).2 = size 1 two_queues
  ∧ drain zcomp 1 (merge_pq zcomp 1 1 two_queues).2 = drain zcomp 1 two_queues.
Proof.
  destruct (self_merge_noop zcomp two_queues 1) as [Hrun Hsame].
  destruct (Hsame _ Hrun) as (Hsize & Hdrain & _).
  rewrite Hrun. split_and!; [reflexivity|exact Hsize|exact Hdrain].
Defined.

Lemma self_assign_noop_witness :
  assign 1 1 two_queues = (Done tt, two_queues)
  ∧ size 1 (assign 1 1 two_queues).2 = size 1 two_queues
  ∧ drain zcomp 1 (assign 1 1 two_queues).2 = drain zcomp 1 two_queues.
Proof.
  destruct (self_assign_noop zcomp two_queues 1) as [Hrun Hsame].
  destruct (Hsame _ Hrun) as (Hsize & Hdrain & _).
  rewrite Hrun. split_and!; [reflexivity|exact Hsize|exact Hdrain].
Defined.

Lemma size_counts_nodes_witness :
  reachable zcomp two_queues
  ∧ objs two_queues !! 1%positive = Some (mkPQ (Some 2%positive) 3%Z)
  ∧ (Z.of_nat (base.size (mem two_queues)) < size_modulus)%Z
  ∧ ∃ t,
      owns two_queues 1 t
      ∧ size 1 two_queues = (Done (Z.of_nat (length (elems t))), two_queues)
      ∧ length (addrs t) = length (elems t)
      ∧ empty 1 two_queues
        = (Done (bool_decide (root (mkPQ (Some 2%positive) 3%Z) = None)),
           two_queues)
      ∧ (root (mkPQ (Some 2%positive) 3%Z) = None
         ↔ sz (mkPQ (Some 2%positive) 3%Z) = 0%Z).
Proof.
  assert (H1 : reachable zcomp two_queues) by apply exec_default_reachable.
  assert (H2 : objs two_queues !! 1%positive
               = Some (mkPQ (Some 2%positive) 3%Z))
    by (vm_compute; reflexivity).
  assert (H3 : (Z.of_nat (base.size (mem two_queues)) < size_modulus)%Z)
    by (vm_compute; reflexivity).
  split_and!; [exact H1|exact H2|exact H3|].
  exact (size_counts_nodes zcomp two_queues 1 _ H1 H2 H3).
Defined.

Lemma destructor_releases_nodes_witness :
  reachable zcomp two_queues
  ∧ objs two_queues !! 1%positive = Some (mkPQ (Some 2%positive) 3%Z)
  ∧ base.size (mem (destroy 1 two_queues).2) = 2
  ∧ ∃ t st',
      owns two_queues 1 t
      ∧ destroy 1 two_queues = (Done tt, st')
      ∧ objs st' = delete 1%positive (objs two_queues)
      ∧ dom (mem st') = dom (mem two_queues) ∖ list_to_set (addrs t)
      ∧ (∀ a, a ∉ addrs t → mem st' !! a = mem two_queues !! a)
      ∧ base.size (mem st') + length (elems t) = base.size (mem two_queues).
Proof.
  assert (H1 : reachable zcomp two_queues) by apply exec_default_reachable.
  assert (H2 : objs two_queues !! 1%positive
               = Some (mkPQ (Some 2%positive) 3%Z))
    by (vm_compute; reflexivity).
  split_and!; [exact H1|exact H2|vm_compute; reflexivity|].
  exact (destructor_releases_nodes zcomp two_queues 1 _ H1 H2).
Defined.

Lemma merge_with_empty_witness :
  reachable zcomp one_and_empty
  ∧ 1%positive ≠ 2%positive
  ∧ objs one_and_empty !! 1%positive = Some (mkPQ (Some 2%positive) 2%Z)
  ∧ objs one_and_empty !! 2%positive = Some (mkPQ None 0%Z)
  ∧ (root (mkPQ None 0%Z) = None →
     merge_pq zcomp 1 2 one_and_empty = (Done tt, one_and_empty))
  ∧ (root (mkPQ (Some 2%positive) 2%Z) = None →
     merge_pq zcomp 1 2 one_and_empty
     = (Done tt,
        mkState (mem one_and_empty)
          (<[2%positive := mkPQ None 0%Z]>
             (<[1%positive := mkPQ None 0%Z]> (objs one_and_empty))))).
Proof.
  assert (H1 : reachable zcomp one_and_empty) by apply exec_default_reachable.
  assert (H2 : 1%positive ≠ 2%positive) by discriminate.
  assert (H3 : objs one_and_empty !! 1%positive
               = Some (mkPQ (Some 2%positive) 2%Z))
    by (vm_compute; reflexivity).
  assert (H4 : objs one_and_empty !! 2%positive = Some (mkPQ None 0%Z))
    by (vm_compute; reflexivity).
  split_and!; [exact H1|exact H2|exact H3|exact H4|..];
    apply (merge_with_empty zcomp one_and_empty 1 2 _ _ H1 H2 H3 H4).
Defined.

Lemma other_queues_untouched_witness :
  reachable zcomp two_queues
  ∧ objs two_queues !! 1%positive = Some (mkPQ (Some 2%positive) 3%Z)
  ∧ (1%positive ∉ op_writes (OpPop (T := Z) 2))
  ∧ run_op zcomp (OpPop 2) two_queues
    = (Done tt, (run_op zcomp (OpPop 2) two_queues).2)
  ∧ completes (Done tt)
  ∧ (Z.of_nat (base.size (mem two_queues)) < size_modulus)%Z
  ∧ ∃ t,
      owns two_queues 1 t
      ∧ owns (run_op zcomp (OpPop 2) two_queues).2 1 t
      ∧ objs (run_op zcomp (OpPop 2) two_queues).2 !! 1%positive
        = Some (mkPQ (Some 2%positive) 3%Z)
      ∧ (∀ a, a ∈ addrs t →
           mem (run_op zcomp (OpPop 2) two_queues).2 !! a
           = mem two_queues !! a)
      ∧ (drain zcomp 1 (run_op zcomp (OpPop 2) two_queues).2).1
        = (drain zcomp 1 two_queues).1.
Proof.
  assert (H1 : reachable zcomp two_queues) by apply exec_default_reachable.
  assert (H2 : objs two_queues !! 1%positive
               = Some (mkPQ (Some 2%positive) 3%Z))
    by (vm_compute; reflexivity).
  assert (H3 : 1%positive ∉ op_writes (OpPop (T := Z) 2)).
  { simpl. apply not_elem_of_cons. split; [discriminate|apply not_elem_of_nil]. }
  assert (H4 : run_op zcomp (OpPop 2) two_queues
               = (Done tt, (run_op zcomp (OpPop 2) two_queues).2))
    by (vm_compute; reflexivity).
  assert (H5 : completes (Done tt)) by exact I.
  assert (H6 : (Z.of_nat (base.size (mem two_queues)) < size_modulus)%Z)
    by (vm_compute; reflexivity).
  split_and!; [exact H1|exact H2|exact H3|exact H4|exact H5|exact H6|].
  exact (other_queues_untouched zcomp two_queues (OpPop 2) _ _ 1 _
           H1 H2 H3 H4 H5 H6).
Defined.



(** Under [flaky], merging queue 1 with queue 3 throws at the second
    comparison, one call deep; the bound on the nesting holds all the
    same. *)
Lemma merge_depth_logarithmic_witness :
  reachable flaky flaky_queues
  ∧ 1%positive ≠ 3%positive
  ∧ objs flaky_queues !! 1%positive = Some (mkPQ (Some 1%positive) 1%Z)
  ∧ objs flaky_queues !! 3%positive = Some (mkPQ (Some 4%positive) 3%Z)
  ∧ (merge flaky 1 (Some 1%positive) (Some 4%positive) flaky_queues).1
    = Timeout
  ∧ (merge flaky 2 (Some 1%positive) (Some 4%positive) flaky_queues).1
    = Throw foreign_failure
  ∧ ∃ t1 t2 k1 k2,
      owns flaky_queues 1 t1 ∧ owns flaky_queues 3 t2
      ∧ getNPL (root (mkPQ (Some 1%positive) 1%Z)) flaky_queues
        = (Done k1, flaky_queues)
      ∧ getNPL (root (mkPQ (Some 4%positive) 3%Z)) flaky_queues
        = (Done k2, flaky_queues)
      ∧ (0 ≤ k1 ≤ Z.log2 (Z.of_nat (length (elems t1)) + 1))%Z
      ∧ (0 ≤ k2 ≤ Z.log2 (Z.of_nat (length (elems t2)) + 1))%Z
      ∧ ∀ fuel, (k1 + k2 < Z.of_nat fuel)%Z →
          (merge flaky fuel (root (mkPQ (Some 1%positive) 1%Z))
             (root (mkPQ (Some 4%positive) 3%Z)) flaky_queues).1 ≠ Timeout
          ∧ (merge flaky fuel (root (mkPQ (Some 1%positive) 1%Z))
               (root (mkPQ (Some 4%positive) 3%Z)) flaky_queues).1 ≠ Fault
          ∧ merge flaky fuel (root (mkPQ (Some 1%positive) 1%Z))
              (root (mkPQ (Some 4%positive) 3%Z)) flaky_queues
            = merge flaky (S (base.size (mem flaky_queues)))
                (root (mkPQ (Some 1%positive) 1%Z))
                (root (mkPQ (Some 4%positive) 3%Z)) flaky_queues.
Proof.
  assert (H1 : reachable flaky flaky_queues) by apply exec_default_reachable.
  assert (H2 : 1%positive ≠ 3%positive) by discriminate.
  assert (H3 : objs flaky_queues !! 1%positive
               = Some (mkPQ (Some 1%positive) 1%Z))
    by (vm_compute; reflexivity).
  assert (H4 : objs flaky_queues !! 3%positive
               = Some (mkPQ (Some 4%positive) 3%Z))
    by (vm_compute; reflexivity).
  split_and!; [exact H1|exact H2|exact H3|exact H4|
               vm_compute; reflexivity..|].
  exact (merge_depth_logarithmic flaky flaky_queues 1 3 _ _ H1 H2 H3 H4).
Defined.

Lemma heap_order_invariant_witness :
  (∀ x y, zcomp x y = Some (x <? y)%Z)
  ∧ strict_weak_order Z.ltb
  ∧ reachable zcomp two_queues
  ∧ objs two_queues !! 1%positive = Some (mkPQ (Some 2%positive) 3%Z)
  ∧ ∃ t,
      owns two_queues 1 t
      ∧ heap_ordered Z.ltb t
      ∧ (∀ a, a ∈ addrs t → node_heap_ordered Z.ltb two_queues a)
      ∧ (∀ x, top 1 two_queues = (Done x, two_queues) →
           x ∈ elems t ∧ ∀ y, y ∈ elems t → (x <? y)%Z = false).
Proof.
  assert (H1 : reachable zcomp two_queues) by apply exec_default_reachable.
  assert (H2 : objs two_queues !! 1%positive
               = Some (mkPQ (Some 2%positive) 3%Z))
    by (vm_compute; reflexivity).
  split_and!; [exact zcomp_total|exact Zltb_swo|exact H1|exact H2|].
  exact (heap_order_invariant zcomp Z.ltb zcomp_total Zltb_swo
           two_queues 1 _ H1 H2).
Defined.

(** Pushing a second 5 onto the queue holding 1, 5, 3: the old 5 stays on
    top, the new one sits in the node at the fresh address 6. *)
Lemma push_adds_one_witness :
  (∀ x y, zcomp x y = Some (x <? y)%Z)
  ∧ reachable zcomp two_queues
  ∧ objs two_queues !! 1%positive = Some (mkPQ (Some 2%positive) 3%Z)
  ∧ (Z.of_nat (base.size (mem two_queues)) + 1 < size_modulus)%Z
  ∧ objs (push zcomp 1 5%Z two_queues).2 !! 1%positive
    = Some (mkPQ (Some 2%positive) 4%Z)
  ∧ ∃ t t' st',
      owns two_queues 1 t
      ∧ push zcomp 1 5%Z two_queues = (Done tt, st')
      ∧ owns st' 1 t'
      ∧ elems t' ≡ₚ 5%Z :: elems t
      ∧ addrs t' ≡ₚ fresh (dom (mem two_queues)) :: addrs t
      ∧ dom (mem st') = {[fresh (dom (mem two_queues))]} ∪ dom (mem two_queues)
      ∧ (fresh (dom (mem two_queues)) ∉ dom (mem two_queues))
      ∧ size 1 st' = (Done (sz (mkPQ (Some 2%positive) 3%Z) + 1)%Z, st')
      ∧ (root (mkPQ (Some 2%positive) 3%Z) = None →
         top 1 st' = (Done 5%Z, st'))
      ∧ (∀ x, top 1 two_queues = (Done x, two_queues) →
           top 1 st' = (Done (if (x <? 5)%Z then 5%Z else x), st')).
Proof.
  assert (H1 : reachable zcomp two_queues) by apply exec_default_reachable.
  assert (H2 : objs two_queues !! 1%positive
               = Some (mkPQ (Some 2%positive) 3%Z))
    by (vm_compute; reflexivity).
  assert (H3 : (Z.of_nat (base.size (mem two_queues)) + 1 < size_modulus)%Z)
    by (vm_compute; reflexivity).
  split_and!; [exact zcomp_total|exact H1|exact H2|exact H3|
               vm_compute; reflexivity|].
  exact (push_adds_one zcomp Z.ltb zcomp_total two_queues 1 _ 5%Z H1 H2 H3).
Defined.

Lemma pop_removes_top_witness :
  (∀ x y, zcomp x y = Some (x <? y)%Z)
  ∧ strict_weak_order Z.ltb
  ∧ reachable zcomp two_queues
  ∧ objs two_queues !! 1%positive = Some (mkPQ (Some 2%positive) 3%Z)
  ∧ sz (mkPQ (Some 2%positive) 3%Z) ≠ 0%Z
  ∧ ∃ a x t t' st',
      owns two_queues 1 t
      ∧ root (mkPQ (Some 2%positive) 3%Z) = Some a
      ∧ top 1 two_queues = (Done x, two_queues)
      ∧ pop zcomp 1 two_queues = (Done tt, st')
      ∧ owns st' 1 t'
      ∧ elems t ≡ₚ x :: elems t'
      ∧ (∀ y, y ∈ elems t' → (x <? y)%Z = false)
      ∧ addrs t ≡ₚ a :: addrs t'
      ∧ dom (mem st') = dom (mem two_queues) ∖ {[a]}
      ∧ size 1 st' = (Done (sz (mkPQ (Some 2%positive) 3%Z) - 1)%Z, st').
Proof.
  assert (H1 : reachable zcomp two_queues) by apply exec_default_reachable.
  assert (H2 : objs two_queues !! 1%positive
               = Some (mkPQ (Some 2%positive) 3%Z))
    by (vm_compute; reflexivity).
  assert (H3 : sz (mkPQ (Some 2%positive) 3%Z) ≠ 0%Z) by discriminate.
  split_and!; [exact zcomp_total|exact Zltb_swo|exact H1|exact H2|exact H3|].
  exact (pop_removes_top zcomp Z.ltb zcomp_total Zltb_swo
           two_queues 1 _ H1 H2 H3).
Defined.

Lemma push_pop_round_trip_witness :
  (∀ x y, zcomp x y = Some (x <? y)%Z)
  ∧ reachable zcomp two_queues
  ∧ objs two_queues !! 1%positive = Some (mkPQ (Some 2%positive) 3%Z)
  ∧ (Z.of_nat (base.size (mem two_queues)) + 1 < size_modulus)%Z
  ∧ (∀ x, top 1 two_queues = (Done x, two_queues) → (x <? 7)%Z = true)
  ∧ ∃ st1, push zcomp 1 7%Z two_queues = (Done tt, st1)
      ∧ top 1 st1 = (Done 7%Z, st1)
      ∧ pop zcomp 1 st1 = (Done tt, two_queues).
Proof.
  assert (H1 : reachable zcomp two_queues) by apply exec_default_reachable.
  assert (H2 : objs two_queues !! 1%positive
               = Some (mkPQ (Some 2%positive) 3%Z))
    by (vm_compute; reflexivity).
  assert (H3 : (Z.of_nat (base.size (mem two_queues)) + 1 < size_modulus)%Z)
    by (vm_compute; reflexivity).
  assert (H4 : ∀ x, top 1 two_queues = (Done x, two_queues) →
                    (x <? 7)%Z = true).
  { assert (Htop : top 1 two_queues = (Done 5%Z, two_queues))
      by (vm_compute; reflexivity).
    intros x Hx. rewrite Htop in Hx. apply (f_equal fst) in Hx.
    cbn [fst] in Hx. injection Hx as <-. reflexivity. }
  split_and!; [exact zcomp_total|exact H1|exact H2|exact H3|exact H4|].
  exact (push_pop_round_trip zcomp Z.ltb zcomp_total two_queues 1 _ 7%Z
           H1 H2 H3 H4).
Defined.
